(** * TiledArray: a shallow embedding of selected components

    The development follows the layout of the sources:

    - [Shape]            : [src/shape.h]  (ordinal / coordinate conversion)
    - [ReplicatedPmap]   : [src/TiledArray/pmap/replicated_pmap.h]
    - [Kernels]          : [src/TiledArray/tensor/kernels.h]
    - [Mult]             : [src/TiledArray/tile_op/mult.h]
    - [DistArray]        : [src/TiledArray/dist_array.h]
    - [SparseShape]      : the sparse shape used by
                           [tests/dist_eval_contraction_eval.cpp]

    Fallible code returns a [result]; stateful code threads its state
    explicitly. *)

From Stdlib Require Import ZArith QArith Qabs Lia Lqa.
From stdpp Require Import base list gmap strings.

Local Open Scope Z_scope.

(** ** Failures shared by all components *)

(** The ways in which a call can fail to return a value.  [AssertFailed]
    is a failed [assert] / [TA_ASSERT]; [UserError] is a failed
    [TA_USER_ASSERT]; [Exception] is a [TA_EXCEPTION]; [NullDereference]
    is the dereference of an empty [shared_ptr]; [OutOfBounds] is a read or write
    outside a buffer; [OutOfFuel] is a loop that does not terminate;
    [DivisionByZero] is an integer division by zero. *)
Inductive failure : Type :=
| AssertFailed
| UserError (msg : string)
| Exception (msg : string)
| NullDereference
| OutOfBounds
| OutOfFuel
| DivisionByZero.

Inductive result (A : Type) : Type :=
| Ok (a : A)
| Fail (f : failure).

Arguments Ok {A} a.
Arguments Fail {A} f.

#[global] Instance result_ret : MRet result := fun A a => Ok a.
#[global] Instance result_bind : MBind result := fun A B k r =>
  match r with
  | Ok a => k a
  | Fail f => Fail f
  end.

#[global] Instance result_fmap : FMap result := fun A B f r =>
  match r with
  | Ok a => Ok (f a)
  | Fail e => Fail e
  end.

(** [assert(cond)] of <cassert>. *)
Definition c_assert (cond : bool) : result unit :=
  if cond then Ok tt else Fail AssertFailed.

(** The preprocessor configuration of a build.  [error.h] is not part of the
    sources: [TA_ASSERT] is an assertion that the build may compile out
    ([ta_assert_enabled]), and [NDEBUG] is the standard macro tested by
    [#ifndef NDEBUG]. *)
Record BuildConfig : Type := {
  ta_assert_enabled : bool;
  NDEBUG : bool
}.

(** [TA_ASSERT(cond)]. *)
Definition TA_ASSERT (cfg : BuildConfig) (cond : bool) : result unit :=
  if ta_assert_enabled cfg then c_assert cond else Ok tt.

(** Modelled from the spec: [TA_USER_ASSERT(cond, msg)] of the missing [error.h];
    a violated user contract is fatal. *)
Definition TA_USER_ASSERT (cond : bool) (msg : string) : result unit :=
  if cond then Ok tt else Fail (UserError msg).

(** Modelled from the spec: [TA_EXCEPTION(msg)] of the missing [error.h] throws. *)
Definition TA_EXCEPTION {A} (msg : string) : result A := Fail (Exception msg).

(** ** [src/shape.h] *)

Module Shape.

(** Modelled from the spec: [Tuple<DIM>] ([tuple.h]) is not part of the sources.
    A tuple is a point of the spec's [Z^d]: a vector of [DIM] integer entries,
    default-constructed to all zeros.  In the code the entries have a fixed
    width.  They are taken to be of type [int], the type in which [shape.h]
    counts ordinals in its iterator and increments an entry
    ([m_value[DIM - 1] += n] with [int n]), and [int] is taken to be 32 bits
    wide.  An entry is carried as the integer it denotes, and every operation on
    entries wraps around to the range of [int]: sums, differences and products
    are reduced by [int_wrap], and values enter [size_t] arithmetic through
    [static_cast_size_t]. *)
Abbreviation Tuple := (list Z).

(** The value of the [int] that results from an operation whose exact result is
    [z] (two's complement wrap-around). *)
Definition int_wrap (z : Z) : Z := (z + 2 ^ 31) mod 2 ^ 32 - 2 ^ 31.

(** [z] is a value of type [int]. *)
Definition is_int (z : Z) : Prop := - 2 ^ 31 <= z < 2 ^ 31.

Definition default_tuple (DIM : nat) : Tuple := replicate DIM 0.

(** Element access [t[i]]. *)
Definition at_ (t : Tuple) (i : nat) : Z := t !!! i.

(** [VectorOps<Tuple<DIM>, DIM>::dotProduct], computed in [int]. *)
Fixpoint dotProduct (a b : Tuple) : Z :=
  match a, b with
  | x :: a', y :: b' => int_wrap (int_wrap (x * y) + dotProduct a' b')
  | _, _ => 0
  end.

(** [operator-] and [operator+=] on tuples, component by component, in [int]. *)
Definition tuple_sub (a b : Tuple) : Tuple := zip_with (fun x y => int_wrap (x - y)) a b.
Definition tuple_add (a b : Tuple) : Tuple := zip_with (fun x y => int_wrap (x + y)) a b.

(** Exact sums, differences and dot products of integer vectors, for stating what
    the operations above compute when nothing wraps around. *)
Definition vec_sub (a b : list Z) : list Z := zip_with Z.sub a b.
Definition vec_add (a b : list Z) : list Z := zip_with Z.add a b.
Fixpoint dot (a b : list Z) : Z :=
  match a, b with
  | x :: a', y :: b' => x * y + dot a' b'
  | _, _ => 0
  end.

(** Modelled from the spec: [orthotope.h] is not part of the sources.  An
    orthotope is the closed-open box [[low, high)]; [includes] tests
    [low_i <= c_i < high_i] in every dimension and [nelements] is the
    product of the extents [high_i - low_i], as an exact integer. *)
Record Orthotope : Type := { low : Tuple; high : Tuple }.

Fixpoint box_includes (l h c : Tuple) : bool :=
  match l, h, c with
  | [], [], [] => true
  | l0 :: l', h0 :: h', c0 :: c' =>
      (l0 <=? c0) && (c0 <? h0) && box_includes l' h' c'
  | _, _, _ => false
  end.

Definition ortho_includes (o : Orthotope) (c : Tuple) : bool :=
  box_includes (low o) (high o) c.

Definition extents (o : Orthotope) : list Z := vec_sub (high o) (low o).

Definition nelements (o : Orthotope) : Z := fold_right Z.mul 1 (extents o).

(** [size_t] is taken to be 64 bits wide. *)
Definition size_t_modulus : Z := 2 ^ 64.
Definition static_cast_size_t (z : Z) : Z := z mod size_t_modulus.

Record Shape : Type := {
  m_orthotope : Orthotope;
  m_pred : Tuple -> bool;
  m_linear_step : Tuple
}.

(** The loop of [init_linear_step_]:
    [for (dim = DIM - 1; dim > 0; --dim)
       m_linear_step[dim - 1] = (h[dim] - l[dim]) * m_linear_step[dim];]
    The difference and the product are computed in [int]. *)
Fixpoint init_linear_step_loop (h l : Tuple) (dim : nat) (step : Tuple) : Tuple :=
  match dim with
  | O => step
  | S dim' =>
      init_linear_step_loop h l dim'
        (<[dim' := int_wrap (int_wrap (at_ h dim - at_ l dim) * at_ step dim)]> step)
  end.

Definition init_linear_step_ (o : Orthotope) : Tuple :=
  let DIM := length (low o) in
  let h := high o in
  let l := low o in
  init_linear_step_loop h l (DIM - 1) (<[(DIM - 1)%nat := 1]> (default_tuple DIM)).

(** Constructor [Shape(Orthotope<DIM>* ortho, const predicate& pred)]. *)
Definition make (ortho : Orthotope) (pred : Tuple -> bool) : Shape :=
  {| m_orthotope := ortho; m_pred := pred;
     m_linear_step := init_linear_step_ ortho |}.

Definition DIM (s : Shape) : nat := length (low (m_orthotope s)).

Definition includes (s : Shape) (element_index : Tuple) : bool :=
  ortho_includes (m_orthotope s) element_index && m_pred s element_index.

(** [Shape::ord]: the dot product is computed in [int] and converted to [size_t]
    afterwards. *)
Definition ord (s : Shape) (coord : Tuple) : result Z :=
  c_assert (ortho_includes (m_orthotope s) coord) ;;
  Ok (static_cast_size_t
        (dotProduct (tuple_sub coord (low (m_orthotope s))) (m_linear_step s))).

(** The loop of [Shape::coord]:
    [for (dim = 0; linear_index > 0 && dim < DIM; ++dim) {
       element_index[dim] = linear_index / m_linear_step[dim];
       linear_index -= element_index[dim] * m_linear_step[dim]; }]
    [linear_index] is a [size_t].  In the quotient the step is converted to
    [size_t], and a division by zero does not return; the quotient is stored in an
    [int]; the product of the entry and the step is computed in [int] and
    converted to [size_t] for the subtraction.  [fuel] counts the dimensions that
    are left, [DIM - dim]. *)
Fixpoint coord_loop (step : Tuple) (fuel dim : nat) (linear_index : Z)
    (element_index : Tuple) : result (Z * Tuple) :=
  match fuel with
  | O => Ok (linear_index, element_index)
  | S fuel' =>
      if 0 <? linear_index then
        let divisor := static_cast_size_t (at_ step dim) in
        if divisor =? 0 then Fail DivisionByZero
        else
          let entry := int_wrap (Z.quot linear_index divisor) in
          let product := int_wrap (entry * at_ step dim) in
          coord_loop step fuel' (S dim)
            (static_cast_size_t (linear_index - static_cast_size_t product))
            (<[dim := entry]> element_index)
      else Ok (linear_index, element_index)
  end.

(** [Shape::coord]. *)
Definition coord (s : Shape) (linear_index : Z) : result Tuple :=
  c_assert ((0 <=? linear_index) && (linear_index <? nelements (m_orthotope s))) ;;
  '(rest, element_index) ←
    coord_loop (m_linear_step s) (DIM s) 0 linear_index (default_tuple (DIM s));
  c_assert (rest =? 0) ;;
  Ok (tuple_add element_index (low (m_orthotope s))).

(** The class invariant of an orthotope that the conversions rely on: at least one
    dimension, [low] and [high] of the same rank, [low_i <= high_i], a number
    of elements that a [size_t] can hold, and bounds that are values of type
    [int]. *)
Definition wf_orthotope (o : Orthotope) : Prop :=
  (0 < length (low o))%nat /\
  length (high o) = length (low o) /\
  Forall2 Z.le (low o) (high o) /\
  nelements o <= size_t_modulus /\
  Forall is_int (low o) /\
  Forall is_int (high o).

(** The product of the entries of a tuple. *)
Abbreviation tuple_product es := (fold_right Z.mul 1 es).

(** A digit [d] of a mixed-radix number, for the radix [e]. *)
Definition digit_ok (d e : Z) : Prop := 0 <= d < e.

(** Specification-level view of the linear steps: [steps_of ext] lists, for every
    dimension, the product of the extents of the less significant dimensions. *)
Fixpoint steps_of (ext : list Z) : list Z :=
  match ext with
  | [] => []
  | _ :: es => fold_right Z.mul 1 es :: steps_of es
  end.

(** Specification-level view of [coord_loop] as a recursion over the steps that are
    left, in exact arithmetic; it returns the rest of the linear index and the
    digits. *)
Fixpoint coord_digits (step : list Z) (linear_index : Z) : Z * list Z :=
  match step with
  | [] => (linear_index, [])
  | s :: ss =>
      if 0 <? linear_index then
        let q := Z.quot linear_index s in
        let '(r, ds) := coord_digits ss (linear_index - q * s) in
        (r, q :: ds)
      else (linear_index, replicate (length step) 0)
  end.

End Shape.

(** ** [src/TiledArray/tensor/kernels.h] *)

Module Kernels.

(** Modelled from the spec: [TiledArray::Range] is not part of the sources.  A range
    is the closed-open box [[lobound, upbound)]; its volume is the product of the
    extents, and a default-constructed range (rank 0) has volume 0. *)
Record Range : Type := { lobound : list Z; upbound : list Z }.

#[global] Instance Range_eq_dec : EqDecision Range.
Proof. solve_decision. Defined.

Definition range_volume (r : Range) : nat :=
  match lobound r with
  | [] => 0%nat
  | _ => Z.to_nat (fold_right Z.mul 1 (zip_with Z.sub (upbound r) (lobound r)))
  end.

Definition default_range : Range := {| lobound := []; upbound := [] |}.

(** A contiguous tensor ([Tensor<T>]): either default-constructed, without storage,
    or a range with a row-major buffer. *)
Inductive Tensor (T : Type) : Type :=
| EmptyTensor
| MkTensor (r : Range) (d : list T).

Arguments EmptyTensor {T}.
Arguments MkTensor {T} r d.

Definition empty {T} (t : Tensor T) : bool :=
  match t with EmptyTensor => true | MkTensor _ _ => false end.

Definition range {T} (t : Tensor T) : Range :=
  match t with EmptyTensor => default_range | MkTensor r _ => r end.

Definition data {T} (t : Tensor T) : list T :=
  match t with EmptyTensor => [] | MkTensor _ d => d end.

(** The buffer of a tensor holds exactly [volume] elements. *)
Definition wf_tensor {T} (t : Tensor T) : Prop :=
  length (data t) = range_volume (range t).

(** Modelled from the spec: [is_range_set_congruent] of the missing
    [tensor/utility.h]; two tensors are congruent when their ranges are equal. *)
Definition is_range_set_congruent {A B} (t1 : Tensor A) (t2 : Tensor B) : bool :=
  bool_decide (range t1 = range t2).

(** Modelled from the spec: [math::vector_ptr_op] of the missing [math/vector_op.h]:
    [for (i = 0; i < n; ++i) op(result + i, arg1[i], arg2[i])], the result buffer
    being uninitialised before the call. *)
Fixpoint vector_ptr_op {A B R} (op : A -> B -> R) (n : nat) (arg1 : list A)
    (arg2 : list B) : result (list R) :=
  match n with
  | O => Ok []
  | S n' =>
      match arg1, arg2 with
      | x :: arg1', y :: arg2' =>
          rest ← vector_ptr_op op n' arg1' arg2'; Ok (op x y :: rest)
      | _, _ => Fail OutOfBounds
      end
  end.

(** Modelled from the spec: [math::vector_op] of the missing [math/vector_op.h]:
    [for (i = 0; i < n; ++i) op(result[i], arg[i])], updating [result] in place;
    the elements of [result] past [n] are left as they are. *)
Fixpoint vector_op {A B} (op : A -> B -> A) (n : nat) (res : list A)
    (arg : list B) : result (list A) :=
  match n with
  | O => Ok res
  | S n' =>
      match res, arg with
      | x :: res', y :: arg' =>
          rest ← vector_op op n' res' arg'; Ok (op x y :: rest)
      | _, _ => Fail OutOfBounds
      end
  end.

(** Modelled from the spec: [math::reduce_op] of the missing [math/vector_op.h]:
    [for (i = 0; i < n; ++i) op(result, arg[i])]. *)
Fixpoint reduce_op_loop {S T} (op : S -> T -> S) (n : nat) (acc : S)
    (arg : list T) : result S :=
  match n with
  | O => Ok acc
  | S n' =>
      match arg with
      | x :: arg' => reduce_op_loop op n' (op acc x) arg'
      | [] => Fail OutOfBounds
      end
  end.

(** [tensor_init] for contiguous tensors, with one tensor in the parameter pack
    besides [tensor1].  [result] is allocated over [result_range] and not yet
    initialised. *)
Definition tensor_init {A B R} (cfg : BuildConfig) (op : A -> B -> R)
    (result_range : Range) (tensor1 : Tensor A) (tensor2 : Tensor B)
    : result (Tensor R) :=
  TA_ASSERT cfg (negb (empty tensor1 || empty tensor2));;
  TA_ASSERT cfg (bool_decide (result_range = range tensor1)
                 && is_range_set_congruent tensor1 tensor2);;
  let volume := range_volume result_range in
  d ← vector_ptr_op op volume (data tensor1) (data tensor2);
  Ok (MkTensor result_range d).

(** [tensor_op<TR>(op, tensor1, tensor2)], that is [TR(tensor1, tensor2, op)].
    Modelled from the spec: the constructor of the missing [tensor/tensor.h]
    allocates a buffer over the range of [tensor1] and fills it with
    [tensor_init]. *)
Definition tensor_op {A B R} (cfg : BuildConfig) (op : A -> B -> R)
    (tensor1 : Tensor A) (tensor2 : Tensor B) : result (Tensor R) :=
  tensor_init cfg op (range tensor1) tensor1 tensor2.

(** [inplace_tensor_op] for contiguous tensors, with one tensor in the parameter
    pack; the value returned is the new state of [result].  The function writes
    to the buffer of [result] and allocates nothing: a [result] without storage
    is still without storage afterwards. *)
Definition inplace_tensor_op {A B} (cfg : BuildConfig) (op : A -> B -> A)
    (result_ : Tensor A) (tensor2 : Tensor B) : result (Tensor A) :=
  TA_ASSERT cfg (negb (empty result_ || empty tensor2));;
  TA_ASSERT cfg (is_range_set_congruent result_ tensor2);;
  let volume := range_volume (range result_) in
  d ← vector_op op volume (data result_) (data tensor2);
  Ok match result_ with
     | EmptyTensor => EmptyTensor
     | MkTensor r _ => MkTensor r d
     end.

(** *** Reductions.  The parameter pack [tensors...] is taken empty. *)

Section Reduce.
Context {S T : Type}.
Variable cfg : BuildConfig.
Variable reduce_op : S -> T -> S.
Variable join_op : S -> S -> S.

(** Tensor reduction operation for contiguous tensors.  With an empty parameter
    pack, [is_range_set_congruent(tensor1)] holds. *)
Definition tensor_reduce (identity : S) (tensor1 : Tensor T) : result S :=
  TA_ASSERT cfg (negb (empty tensor1));;
  TA_ASSERT cfg true;;
  let volume := range_volume (range tensor1) in
  reduce_op_loop reduce_op volume identity (data tensor1).

(** The loop of the tensor-of-tensors overload:
    [for (i = 0; i < volume; ++i) {
       auto temp = tensor_reduce(reduce_op, join_op, identity, tensor1[i]);
       join_op(result, temp); }] *)
Fixpoint tensor_reduce_tot_loop (identity : S) (n : nat) (result_ : S)
    (elems : list (Tensor T)) : result S :=
  match n with
  | O => Ok result_
  | Datatypes.S n' =>
      match elems with
      | e :: elems' =>
          temp ← tensor_reduce identity e;
          tensor_reduce_tot_loop identity n' (join_op result_ temp) elems'
      | [] => Fail OutOfBounds
      end
  end.

(** Tensor of tensor reduction operation for contiguous tensors. *)
Definition tensor_reduce_tot (identity : S) (tensor1 : Tensor (Tensor T))
    : result S :=
  TA_ASSERT cfg (negb (empty tensor1));;
  TA_ASSERT cfg true;;
  let volume := range_volume (range tensor1) in
  tensor_reduce_tot_loop identity volume identity (data tensor1).

End Reduce.

(** Modelled from the spec: a non-contiguous tensor ([TensorInterface] over a
    [BlockRange], neither part of the sources) is a view of a parent buffer.  The
    range of the view gives its [volume], the number [inner_size] of consecutive
    elements that are contiguous in the parent, and [ord i], the offset in the
    parent buffer of the element with ordinal [i] of the view. *)
Record BlockRange : Type := {
  br_volume : nat;
  br_inner_size : nat;
  br_ord : nat -> nat
}.

Inductive TensorView (T : Type) : Type :=
| EmptyView
| MkView (r : BlockRange) (parent : list T).

Arguments EmptyView {T}.
Arguments MkView {T} r parent.

Definition view_empty {T} (t : TensorView T) : bool :=
  match t with EmptyView => true | MkView _ _ => false end.

Definition view_range {T} (t : TensorView T) : BlockRange :=
  match t with
  | EmptyView => {| br_volume := 0; br_inner_size := 0; br_ord := fun i => i |}
  | MkView r _ => r
  end.

Definition view_data {T} (t : TensorView T) : list T :=
  match t with EmptyView => [] | MkView _ d => d end.

Section ReduceNonContiguous.
Context {S T : Type}.
Variable cfg : BuildConfig.
Variable reduce_op : S -> T -> S.
Variable join_op : S -> S -> S.

(** The loop shared by the two overloads for non-contiguous arguments:
    [for (i = 0; i < volume; i += stride) {
       Scalar temp = identity;
       math::reduce_op(reduce_op, stride, temp, tensor1.data() + tensor1.range().ord(i));
       join_op(result, temp); }]
    [fuel] bounds the number of iterations; with [stride = 0] and [volume > 0] the
    source does not terminate. *)
Fixpoint strided_reduce_loop {E} (elem_op : S -> E -> S) (identity : S)
    (ord : nat -> nat) (parent : list E) (stride volume : nat)
    (fuel i : nat) (result_ : S) : result S :=
  if (i <? volume)%nat then
    match fuel with
    | O => Fail OutOfFuel
    | Datatypes.S fuel' =>
        temp ← reduce_op_loop elem_op stride identity (drop (ord i) parent);
        strided_reduce_loop elem_op identity ord parent stride volume fuel'
          (i + stride)%nat (join_op result_ temp)
    end
  else Ok result_.

(** Tensor reduction operation for non-contiguous tensors. *)
Definition tensor_reduce_noncontiguous (identity : S) (tensor1 : TensorView T)
    : result S :=
  TA_ASSERT cfg (negb (view_empty tensor1));;
  TA_ASSERT cfg true;;
  let stride := br_inner_size (view_range tensor1) in
  let volume := br_volume (view_range tensor1) in
  strided_reduce_loop reduce_op identity (br_ord (view_range tensor1))
    (view_data tensor1) stride volume volume 0 identity.

(** Tensor of tensors reduction operation for non-contiguous tensors.  The lambda
    [wrapper_op] of the source is never called; the loop applies the functor
    [reduce_op] to the inner tensors themselves ([reduce_op_at_tensor] is this
    functor at the element type [Tensor<T>]), and the function returns
    [identity]. *)
Definition tensor_reduce_noncontiguous_tot
    (reduce_op_at_tensor : S -> Tensor T -> S)
    (identity : S) (tensor1 : TensorView (Tensor T)) : result S :=
  TA_ASSERT cfg (negb (view_empty tensor1));;
  TA_ASSERT cfg true;;
  let stride := br_inner_size (view_range tensor1) in
  let volume := br_volume (view_range tensor1) in
  _ ← strided_reduce_loop reduce_op_at_tensor identity
        (br_ord (view_range tensor1)) (view_data tensor1) stride volume volume 0
        identity;
  Ok identity.

End ReduceNonContiguous.

(** *** A tensor of tensors, contiguous and strided *)

(** The two inner tensors [[1, 2]] and [[3, 4]], once as a contiguous tensor of
    tensors and once as a view that takes every second slot of a parent buffer. *)
Definition inner_range : Range := {| lobound := [0]; upbound := [2] |}.
Definition inner_a : Tensor Z := MkTensor inner_range [1; 2].
Definition inner_b : Tensor Z := MkTensor inner_range [3; 4].
Definition contiguous_tot : Tensor (Tensor Z) := MkTensor inner_range [inner_a; inner_b].
Definition strided_tot : TensorView (Tensor Z) :=
  MkView {| br_volume := 2; br_inner_size := 1; br_ord := fun i => (2 * i)%nat |}
    [inner_a; EmptyTensor; inner_b; EmptyTensor].

(** The sum functor at the element type [Tensor<int>]. *)
Definition add_tensor (acc : Z) (t : Tensor Z) : Z := fold_left Z.add (data t) acc.

End Kernels.

(** ** [src/TiledArray/tile_op/mult.h] *)

Module Mult.
Import Kernels.

(** Modelled from the spec: [Permutation] ([permutation.h]) is not part of the
    sources; a permutation of rank [d] is a vector of index positions. *)
Abbreviation Permutation := (list nat).

Section MultOp.
(** The element type of the tiles and its product.  [Result], [Left] and [Right]
    are all taken to be [Tensor<T>], so that [left_is_consumable] is
    [LeftConsumable] and [right_is_consumable] is [RightConsumable]. *)
Context {T : Type}.
Variable mul : T -> T -> T.
Variable cfg : BuildConfig.

(** [TiledArray::mult(first, second, perm)]: the permuting product of the missing
    tile interface, taken as a parameter. *)
Variable mult_perm : Tensor T -> Tensor T -> Permutation -> result (Tensor T).

Abbreviation tile := (Tensor T).

(** Modelled from the spec: [TiledArray::mult(first, second)] of the missing tile
    interface is the out-of-place element-wise product, built by [tensor_op]. *)
Definition mult (first second : tile) : result tile :=
  tensor_op cfg mul first second.

(** Modelled from the spec: [TiledArray::mult_to(result, arg)] of the missing tile
    interface multiplies [arg] into [result] in place, with [inplace_tensor_op],
    and returns a reference to [result]. *)
Definition mult_to (result_ arg : tile) : result tile :=
  inplace_tensor_op cfg mul result_ arg.

(** Specification-level value: the element-wise product of two tiles, over the
    range of the first. *)
Definition elementwise_product (first second : tile) : tile :=
  MkTensor (range first) (zip_with mul (data first) (data second)).

(** The argument lists for which [eval] has an overload: two tiles, or the
    [ZeroTensor] placeholder on one side and a tile on the other. *)
Inductive arguments : Type :=
| TileTile (first second : tile)
| ZeroTile (second : tile)
| TileZero (first : tile).

(** The outcome of an evaluation: the value returned, and the state of the
    arguments after the call (a tile that was consumed holds the product). *)
Record evaluation : Type := {
  returned : tile;
  arguments_after : arguments
}.

(** The permuting overloads of [Mult::eval]. *)
Definition eval_perm (args : arguments) (perm : Permutation) : result evaluation :=
  match args with
  | TileTile first second =>
      r ← mult_perm first second perm;
      Ok {| returned := r; arguments_after := args |}
  | ZeroTile second =>
      TA_ASSERT cfg false;;
      Ok {| returned := EmptyTensor; arguments_after := args |}
  | TileZero first =>
      TA_ASSERT cfg false;;
      Ok {| returned := EmptyTensor; arguments_after := args |}
  end.

(** The non-permuting overloads of [Mult::eval<LC, RC>]. *)
Definition eval (LC RC : bool) (args : arguments) : result evaluation :=
  match args with
  | TileTile first second =>
      if negb (LC || RC) then
        r ← mult first second;
        Ok {| returned := r; arguments_after := args |}
      else if LC then
        r ← mult_to first second;
        Ok {| returned := r; arguments_after := TileTile r second |}
      else
        r ← mult_to second first;
        Ok {| returned := r; arguments_after := TileTile first r |}
  | ZeroTile second =>
      TA_ASSERT cfg false;;
      Ok {| returned := EmptyTensor; arguments_after := args |}
  | TileZero first =>
      TA_ASSERT cfg false;;
      Ok {| returned := EmptyTensor; arguments_after := args |}
  end.

(** [Mult::operator()(left, right, perm)]. *)
Definition call_perm (args : arguments) (perm : Permutation) : result evaluation :=
  eval_perm args perm.

(** [Mult::operator()(left, right)], for the template arguments
    [LeftConsumable] and [RightConsumable]; [is_same_result_left] and
    [is_same_result_right] are [std::is_same<result_type, left_type>] and
    [std::is_same<result_type, right_type>], both true here. *)
Definition call (LeftConsumable RightConsumable : bool) (args : arguments)
    : result evaluation :=
  let is_same_result_left := true in
  let is_same_result_right := true in
  let left_is_consumable := LeftConsumable && is_same_result_left in
  let right_is_consumable := RightConsumable && is_same_result_right in
  eval left_is_consumable right_is_consumable args.

End MultOp.

End Mult.


(** ** Process maps: [src/TiledArray/pmap/replicated_pmap.h] *)

Module Pmap.

(** Modelled from the spec: [madness::World] is not part of the sources; a process
    sees the world through its own rank and the number of processes. *)
Record World : Type := { world_rank : nat; world_size : nat }.

(** Modelled from the spec: the base class [Pmap] ([pmap/pmap.h]) is not part of
    the sources.  It keeps [rank_], [procs_], [size_] and the list [local_] of the
    local tiles, and declares the virtual functions [owner], [is_local] and
    [is_replicated]; an object is the record of its members and methods. *)
Record Pmap : Type := {
  rank_ : nat;
  procs_ : nat;
  size_ : nat;
  local_ : list nat;
  owner : nat -> result nat;
  is_local : nat -> result bool;
  is_replicated : bool
}.

(** Modelled from the spec: the contract required of every process map.  For each
    tile [i < size], [owner i] is a rank below [procs], [is_local i] holds exactly
    when [owner i] is the local rank, and in a replicated map every tile is
    local. *)
Definition pmap_contract (p : Pmap) : Prop :=
  forall i, (i < size_ p)%nat ->
    (exists o, owner p i = Ok o /\ (o < procs_ p)%nat /\
               is_local p i = Ok (bool_decide (o = rank_ p))) /\
    (is_replicated p = true -> is_local p i = Ok true).

End Pmap.

Module ReplicatedPmap.
Import Pmap.

(** [ReplicatedPmap::owner]. *)
Definition owner (cfg : BuildConfig) (rank_ size_ : nat) (tile : nat) : result nat :=
  TA_ASSERT cfg (tile <? size_)%nat;;
  Ok rank_.

(** [ReplicatedPmap::is_local]. *)
Definition is_local (cfg : BuildConfig) (size_ : nat) (tile : nat) : result bool :=
  TA_ASSERT cfg (tile <? size_)%nat;;
  Ok true.

(** [ReplicatedPmap::is_replicated]. *)
Definition is_replicated : bool := true.

(** The loop of the constructor:
    [for (size_type i = 0; i < size_; ++i) {
       TA_ASSERT(ReplicatedPmap::owner(i) == rank_);
       local_.push_back(i); }]
    [remaining] is [size_ - i]. *)
Fixpoint constructor_loop (cfg : BuildConfig) (rank_ size_ : nat)
    (remaining i : nat) (local_ : list nat) : result (list nat) :=
  match remaining with
  | O => Ok local_
  | S remaining' =>
      (if ta_assert_enabled cfg then
         o ← owner cfg rank_ size_ i; c_assert (o =? rank_)%nat
       else Ok tt);;
      constructor_loop cfg rank_ size_ remaining' (S i) (local_ ++ [i])
  end.

(** [ReplicatedPmap(world, size)]; the base constructor [Pmap(world, size)] takes
    [rank_] and [procs_] from the world. *)
Definition make (cfg : BuildConfig) (world : World) (size : nat) : result Pmap :=
  let rank_ := world_rank world in
  let procs_ := world_size world in
  let size_ := size in
  local_ ← constructor_loop cfg rank_ size_ size_ 0 [];
  Ok {| Pmap.rank_ := rank_; Pmap.procs_ := procs_; Pmap.size_ := size_;
        Pmap.local_ := local_;
        Pmap.owner := owner cfg rank_ size_;
        Pmap.is_local := is_local cfg size_;
        Pmap.is_replicated := is_replicated |}.

End ReplicatedPmap.

Module BlockedPmap.
Import Pmap.

(** Modelled from the spec: [Policy::default_pmap] and the blocked process map are
    not part of the sources.  A blocked map gives every rank one contiguous range
    of [ceil(size / procs)] tiles. *)
Definition block_size (procs size : nat) : nat :=
  ((size + procs - 1) / procs)%nat.

Definition owner (procs size : nat) (tile : nat) : nat :=
  (tile / block_size procs size)%nat.

Definition make (world : World) (size : nat) : Pmap :=
  let rank := world_rank world in
  let procs := world_size world in
  {| rank_ := rank; procs_ := procs; size_ := size;
     local_ := filter (fun i => owner procs size i = rank) (seq 0 size);
     Pmap.owner := fun i => Ok (owner procs size i);
     is_local := fun i => Ok (bool_decide (owner procs size i = rank));
     is_replicated := false |}.

End BlockedPmap.

(** ** [src/TiledArray/dist_array.h] *)

Module DistArray.
Import Pmap.

(** Modelled from the spec: [TiledRange] is not part of the sources.  Its tile
    range is the box over [[0, n_i)] in every mode; [tiles_range().rank()] is the
    number of modes and [tiles_range().volume()] the number of tiles.
    [elements_range()] is the range of all elements and [make_tile_range(i)] the
    element range of tile [i]. *)
Record TiledRange : Type := {
  tiles_per_mode : list nat;
  elements_range_ : Kernels.Range;
  make_tile_range : nat -> Kernels.Range
}.

Definition tiles_rank (tr : TiledRange) : nat := length (tiles_per_mode tr).

Definition tiles_volume (tr : TiledRange) : nat :=
  match tiles_per_mode tr with
  | [] => 0%nat
  | ns => fold_right Nat.mul 1%nat ns
  end.

(** Modelled from the spec: the shape type of the policy is not part of the
    sources; a shape answers [empty], [validate], [is_zero] and [is_dense]. *)
Record shape_type : Type := {
  shape_empty : bool;
  shape_validate : TiledRange -> bool;
  shape_is_zero : nat -> bool;
  shape_is_dense : bool
}.

Abbreviation value_type := (Kernels.Tensor Z).
Abbreviation uniqueidT := nat.

(** Modelled from the spec: [ArrayImpl] ([array_impl.h]) is not part of the
    sources.  It holds the world, the tiled range, the shape, the process map, a
    globally unique id, and the map from tile index to the tile that was set. *)
Record impl_type : Type := {
  impl_world : World;
  impl_trange : TiledRange;
  impl_shape : shape_type;
  impl_pmap : Pmap;
  impl_id : uniqueidT;
  impl_tiles : gmap nat value_type
}.

Definition impl_size (impl : impl_type) : nat := tiles_volume (impl_trange impl).

(** [range().includes(i)] for an ordinal index: tile access is bounds-checked. *)
Definition impl_range_includes (impl : impl_type) (i : nat) : bool :=
  (i <? tiles_volume (impl_trange impl))%nat.

Definition impl_owner (impl : impl_type) (i : nat) : result nat :=
  owner (impl_pmap impl) i.

Definition impl_is_local (impl : impl_type) (i : nat) : result bool :=
  is_local (impl_pmap impl) i.

Definition impl_is_zero (impl : impl_type) (i : nat) : bool :=
  shape_is_zero (impl_shape impl) i.

(** [get(i)]: the future of tile [i], [None] while it is unset. *)
Definition impl_get (impl : impl_type) (i : nat) : option value_type :=
  impl_tiles impl !! i.

(** [set(i, v)]: asserts ownership; a tile may be set at most once. *)
Definition impl_set (cfg : BuildConfig) (impl : impl_type) (i : nat)
    (v : value_type) : result impl_type :=
  l ← impl_is_local impl i;
  TA_ASSERT cfg l;;
  match impl_tiles impl !! i with
  | Some _ => TA_EXCEPTION "tile set twice"
  | None =>
      Ok {| impl_world := impl_world impl; impl_trange := impl_trange impl;
            impl_shape := impl_shape impl; impl_pmap := impl_pmap impl;
            impl_id := impl_id impl;
            impl_tiles := <[i := v]> (impl_tiles impl) |}
  end.

(** A [DistArray] is its implementation pointer [pimpl_], empty for a
    default-constructed array.  Handles are modelled by value. *)
Abbreviation DistArray := (option impl_type).

(** A tensor expression [TsrExpr(array, vars)]. *)
Record TsrExpr : Type := { expr_array : DistArray; expr_vars : string }.

(** [pimpl_->]: the dereference of the implementation pointer. *)
Definition deref (pimpl_ : DistArray) : result impl_type :=
  match pimpl_ with
  | Some impl => Ok impl
  | None => Fail NullDereference
  end.

Definition check_pimpl_message : string :=
  "The Array has not been initialized, likely reason: it was default constructed and used.".

(** The failure that [check_pimpl] raises. *)
Definition uninitialized_error {A} : result A :=
  Fail (UserError check_pimpl_message).

(** [check_pimpl]. *)
Definition check_pimpl (pimpl_ : DistArray) : result unit :=
  TA_USER_ASSERT (bool_decide (is_Some pimpl_)) check_pimpl_message.

(** [check_index] for an integral index. *)
Definition check_index (pimpl_ : DistArray) (i : nat) : result unit :=
  check_pimpl pimpl_;;
  impl ← deref pimpl_;
  TA_USER_ASSERT (impl_range_includes impl i)
    "The ordinal index used to access an array tile is out of range.".

(** [init]: validation of the constructor arguments and creation of the
    implementation; [id] is the unique id that the world hands out. *)
Definition init (world : World) (trange : TiledRange) (shape : shape_type)
    (pmap : option Pmap) (id : uniqueidT) : result impl_type :=
  pmap ← match pmap with
         | None => Ok (BlockedPmap.make world (tiles_volume trange))
         | Some pmap =>
             TA_USER_ASSERT (size_ pmap =? tiles_volume trange)%nat
               "Array::Array() -- The size of the process map is not equal to the number of tiles in the TiledRange object.";;
             TA_USER_ASSERT (rank_ pmap =? world_rank world)%nat
               "Array::Array() -- The rank of the process map is not equal to that of the world object.";;
             TA_USER_ASSERT (procs_ pmap =? world_size world)%nat
               "Array::Array() -- The number of processes in the process map is not equal to that of the world object.";;
             Ok pmap
         end;
  TA_USER_ASSERT (negb (shape_empty shape))
    "Array::Array() -- The shape is not initialized.";;
  TA_USER_ASSERT (shape_validate shape trange)
    "Array::Array() -- The range of the shape is not equal to the tiles range.";;
  Ok {| impl_world := world; impl_trange := trange; impl_shape := shape;
        impl_pmap := pmap; impl_id := id; impl_tiles := ∅ |}.

(** [DistArray()]. *)
Definition default_constructor : DistArray := None.

(** [DistArray(const DistArray_& other)]. *)
Definition copy_constructor (other : DistArray) : DistArray := other.

(** [DistArray(world, trange, shape, pmap)]. *)
Definition constructor (world : World) (trange : TiledRange) (shape : shape_type)
    (pmap : option Pmap) (id : uniqueidT) : result DistArray :=
  impl ← init world trange shape pmap id; Ok (Some impl).

(** [operator=]. *)
Definition assign (this other : DistArray) : DistArray := other.

(** [swap]: the new states of [this] and [other]. *)
Definition swap (this other : DistArray) : DistArray * DistArray := (other, this).

(** [is_initialized]. *)
Definition is_initialized (pimpl_ : DistArray) : bool := bool_decide (is_Some pimpl_).

(** [id]. *)
Definition id (pimpl_ : DistArray) : result uniqueidT :=
  impl ← deref pimpl_; Ok (impl_id impl).

(** [begin] and [end]: iterators over the local tiles, as positions in the list of
    local tiles. *)
Definition begin (pimpl_ : DistArray) : result nat :=
  check_pimpl pimpl_;;
  impl ← deref pimpl_; Ok 0%nat.

Definition end_ (pimpl_ : DistArray) : result nat :=
  check_pimpl pimpl_;;
  impl ← deref pimpl_; Ok (length (local_ (impl_pmap impl))).

(** [find(i)]. *)
Definition find (pimpl_ : DistArray) (i : nat) : result (option value_type) :=
  check_index pimpl_ i;;
  impl ← deref pimpl_; Ok (impl_get impl i).

(** [set(i, v)]. *)
Definition set (cfg : BuildConfig) (pimpl_ : DistArray) (i : nat) (v : value_type)
    : result DistArray :=
  check_index pimpl_ i;;
  impl ← deref pimpl_;
  impl' ← impl_set cfg impl i v;
  Ok (Some impl').

(** [trange]. *)
Definition trange (pimpl_ : DistArray) : result TiledRange :=
  check_pimpl pimpl_;;
  impl ← deref pimpl_; Ok (impl_trange impl).

(** [range]: the range of the tiles. *)
Definition range (pimpl_ : DistArray) : result (list nat) :=
  check_pimpl pimpl_;;
  impl ← deref pimpl_; Ok (tiles_per_mode (impl_trange impl)).

(** [elements_range] (and the deprecated [elements]). *)
Definition elements_range (pimpl_ : DistArray) : result Kernels.Range :=
  check_pimpl pimpl_;;
  impl ← deref pimpl_; Ok (elements_range_ (impl_trange impl)).

(** The loop of [init_tiles] over the local tiles of the process map:
    [for (; it != end; ++it) {
       const auto index = *it;
       if (! pimpl_->is_zero(index)) {
         if (skip_set) { auto fut = find(index); if (fut.probe()) continue; }
         Future<value_type> tile = pimpl_->world().taskq.add(..., this, index, op);
         set(index, tile); } }]
    The task evaluates [op(array->trange().make_tile_range(index))]; its future is
    taken as already set. *)
Fixpoint init_tiles_loop (cfg : BuildConfig) (op : Kernels.Range -> value_type)
    (skip_set : bool) (local : list nat) (pimpl_ : DistArray) : result DistArray :=
  match local with
  | [] => Ok pimpl_
  | index :: rest =>
      impl ← deref pimpl_;
      if negb (impl_is_zero impl index) then
        fut ← (if skip_set then find pimpl_ index else Ok None);
        if skip_set && bool_decide (is_Some fut) then
          init_tiles_loop cfg op skip_set rest pimpl_
        else
          tr ← trange pimpl_;
          let tile := op (make_tile_range tr index) in
          pimpl' ← set cfg pimpl_ index tile;
          init_tiles_loop cfg op skip_set rest pimpl'
      else init_tiles_loop cfg op skip_set rest pimpl_
  end.

(** [init_tiles(op, skip_set)]. *)
Definition init_tiles (cfg : BuildConfig) (op : Kernels.Range -> value_type)
    (skip_set : bool) (pimpl_ : DistArray) : result DistArray :=
  check_pimpl pimpl_;;
  impl ← deref pimpl_;
  init_tiles_loop cfg op skip_set (local_ (impl_pmap impl)) pimpl_.

(** [fill_local(value, skip_set)] and [fill(value, skip_set)]; the tile
    [value_type(range, value)] holds [value] in every element. *)
Definition fill_local (cfg : BuildConfig) (value : Z) (skip_set : bool)
    (pimpl_ : DistArray) : result DistArray :=
  init_tiles cfg
    (fun range => Kernels.MkTensor range (replicate (Kernels.range_volume range) value))
    skip_set pimpl_.

Definition fill (cfg : BuildConfig) (value : Z) (skip_set : bool)
    (pimpl_ : DistArray) : result DistArray :=
  fill_local cfg value skip_set pimpl_.

(** [size]. *)
Definition size (pimpl_ : DistArray) : result nat :=
  check_pimpl pimpl_;;
  impl ← deref pimpl_; Ok (impl_size impl).

(** The character [','] (ASCII 44). *)
Definition comma : Ascii.ascii := Ascii.ascii_of_nat 44.

(** [std::count_if(vars.begin(), vars.end(), [](char c) { return c == ','; })]. *)
Fixpoint count_commas (vars : string) : Z :=
  match vars with
  | EmptyString => 0
  | String c rest =>
      (if Ascii.eqb c comma then 1 else 0) + count_commas rest
  end.

(** Conversion to [unsigned int], 32 bits wide. *)
Definition to_unsigned_int (z : Z) : Z := z mod 2 ^ 32.

Definition label_mismatch_message : string :=
  "The number of array annotation variables is not equal to the array dimension.".

(** [operator()(const std::string& vars)], const and non-const.  The message that
    rank 0 prints before the exception is thrown is not modelled. *)
Definition call (cfg : BuildConfig) (pimpl_ : DistArray) (vars : string)
    : result TsrExpr :=
  (if NDEBUG cfg then Ok tt
   else
     let n := to_unsigned_int (1 + count_commas vars) in
     match pimpl_ with
     | Some impl =>
         if negb (n =? Z.of_nat (tiles_rank (impl_trange impl)))
         then TA_EXCEPTION label_mismatch_message
         else Ok tt
     | None => Ok tt
     end);;
  Ok {| expr_array := pimpl_; expr_vars := vars |}.

(** [world] (and the deprecated [get_world]). *)
Definition world (pimpl_ : DistArray) : result World :=
  check_pimpl pimpl_;;
  impl ← deref pimpl_; Ok (impl_world impl).

(** [pmap] (and the deprecated [get_pmap]). *)
Definition pmap (pimpl_ : DistArray) : result Pmap :=
  check_pimpl pimpl_;;
  impl ← deref pimpl_; Ok (impl_pmap impl).

(** [is_dense]. *)
Definition is_dense (pimpl_ : DistArray) : result bool :=
  check_pimpl pimpl_;;
  impl ← deref pimpl_; Ok (shape_is_dense (impl_shape impl)).

(** [shape] (and the deprecated [get_shape]). *)
Definition shape (pimpl_ : DistArray) : result shape_type :=
  impl ← deref pimpl_; Ok (impl_shape impl).

(** [owner(i)]. *)
Definition owner (pimpl_ : DistArray) (i : nat) : result nat :=
  check_index pimpl_ i;;
  impl ← deref pimpl_; impl_owner impl i.

(** [is_local(i)]. *)
Definition is_local (pimpl_ : DistArray) (i : nat) : result bool :=
  check_index pimpl_ i;;
  impl ← deref pimpl_; impl_is_local impl i.

(** [is_zero(i)]. *)
Definition is_zero (pimpl_ : DistArray) (i : nat) : result bool :=
  check_index pimpl_ i;;
  impl ← deref pimpl_; Ok (impl_is_zero impl i).

(** Modelled from the spec: [detail::Replicator] ([replicator.h]) is not part of
    the sources.  It broadcasts every non-zero tile, so that the replicated array
    holds the local tiles of the source and the tiles [received] from the other
    ranks. *)
Definition Replicator (source destination : impl_type)
    (received : gmap nat value_type) : impl_type :=
  {| impl_world := impl_world destination; impl_trange := impl_trange destination;
     impl_shape := impl_shape destination; impl_pmap := impl_pmap destination;
     impl_id := impl_id destination;
     impl_tiles := impl_tiles source ∪ received |}.

(** [make_replicated]; [id] is the unique id for the new implementation and
    [received] the tiles that the other ranks send. *)
Definition make_replicated (cfg : BuildConfig) (id : uniqueidT)
    (received : gmap nat value_type) (pimpl_ : DistArray) : result DistArray :=
  check_pimpl pimpl_;;
  impl ← deref pimpl_;
  w ← world pimpl_;
  if negb (is_replicated (impl_pmap impl)) && (1 <? world_size w)%nat then
    sz ← size pimpl_;
    pmap ← ReplicatedPmap.make cfg w sz;
    tr ← trange pimpl_;
    sh ← shape pimpl_;
    result_ ← init w tr sh (Some pmap) id;
    let replicated := Replicator impl result_ received in
    TA_ASSERT cfg true;;
    Ok (assign pimpl_ (Some replicated))
  else Ok pimpl_.

(** The invariant that [init] establishes for an implementation, together with the
    contract of its process map. *)
Definition impl_invariant (impl : impl_type) : Prop :=
  size_ (impl_pmap impl) = tiles_volume (impl_trange impl) /\
  rank_ (impl_pmap impl) = world_rank (impl_world impl) /\
  procs_ (impl_pmap impl) = world_size (impl_world impl) /\
  shape_empty (impl_shape impl) = false /\
  shape_validate (impl_shape impl) (impl_trange impl) = true /\
  (world_rank (impl_world impl) < world_size (impl_world impl))%nat /\
  pmap_contract (impl_pmap impl).

End DistArray.

(** *** The lazy deleter of [DistArray] *)

Module LazyDeleter.
Import Pmap DistArray.

Abbreviation pointer := nat.

(** The exceptions that the handlers of [lazy_deleter] tell apart:
    [madness::MadnessException], any other [std::exception], and anything else. *)
Inductive exception : Type :=
| MadnessException (what : string)
| StdException (what : string)
| UnknownException.

(** The only callback handed to [lazy_sync]:
    [[pimpl]() { delete pimpl; DistArray_::cleanup_counter_--; }]. *)
Inductive callback : Type :=
| DeleteAndDecrement (pimpl : pointer).

(** A message written to [stderr]: its first line, the text of [e.what()] when the
    handler prints it, and the rank printed after [rank=]. *)
Record log_line : Type := {
  line_text : string;
  line_what : option string;
  line_rank : nat
}.

(** The state of a process that the deleter reads and writes: whether the runtime
    is initialised, the static [cleanup_counter_], the implementations that are
    allocated, the pointers that were deleted (in order), the messages on
    [stderr], and the callbacks that [lazy_sync] has registered and not yet run. *)
Record State : Type := {
  madness_initialized : bool;
  cleanup_counter_ : Z;
  heap : gmap pointer impl_type;
  deleted : list pointer;
  stderr : list log_line;
  lazy_sync_registry : list (uniqueidT * callback)
}.

(** How a call ends: it returns, it throws, or its behaviour is undefined (a
    dangling pointer is read or deleted). *)
Inductive outcome (A : Type) : Type :=
| Returned (a : A)
| Thrown (e : exception)
| Undefined.

Arguments Returned {A} a.
Arguments Thrown {A} e.
Arguments Undefined {A}.

(** Computations over the state that may throw. *)
Definition M (A : Type) : Type := State -> outcome A * State.

#[global] Instance M_ret : MRet M := fun A a st => (Returned a, st).
#[global] Instance M_bind : MBind M := fun A B k c st =>
  match c st with
  | (Returned a, st') => k a st'
  | (Thrown e, st') => (Thrown e, st')
  | (Undefined, st') => (Undefined, st')
  end.

(** [try { body } catch (...) { handler }]. *)
Definition try_catch {A} (body : M A) (handler : exception -> M A) : M A :=
  fun st =>
    match body st with
    | (Thrown e, st') => handler e st'
    | other => other
    end.

Definition throw {A} (e : exception) : M A := fun st => (Thrown e, st).

(** [madness::initialized()]. *)
Definition initialized : M bool := fun st => (Returned (madness_initialized st), st).

(** [*pimpl], read through a raw pointer. *)
Definition read (pimpl : pointer) : M impl_type := fun st =>
  match heap st !! pimpl with
  | Some impl => (Returned impl, st)
  | None => (Undefined, st)
  end.

(** [cleanup_counter_++] and [cleanup_counter_--]. *)
Definition add_to_cleanup_counter (d : Z) : M unit := fun st =>
  (Returned tt,
   {| madness_initialized := madness_initialized st;
      cleanup_counter_ := cleanup_counter_ st + d;
      heap := heap st; deleted := deleted st; stderr := stderr st;
      lazy_sync_registry := lazy_sync_registry st |}).

(** [delete pimpl]. *)
Definition delete_ (pimpl : pointer) : M unit := fun st =>
  match heap st !! pimpl with
  | Some _ =>
      (Returned tt,
       {| madness_initialized := madness_initialized st;
          cleanup_counter_ := cleanup_counter_ st;
          heap := delete pimpl (heap st); deleted := deleted st ++ [pimpl];
          stderr := stderr st;
          lazy_sync_registry := lazy_sync_registry st |})
  | None => (Undefined, st)
  end.

(** [fprintf(stderr, ...)]. *)
Definition fprintf_stderr (line : log_line) : M unit := fun st =>
  (Returned tt,
   {| madness_initialized := madness_initialized st;
      cleanup_counter_ := cleanup_counter_ st;
      heap := heap st; deleted := deleted st; stderr := stderr st ++ [line];
      lazy_sync_registry := lazy_sync_registry st |}).

(** Modelled from the spec: [world.gop.lazy_sync(id, fn)] belongs to the runtime,
    which is not part of the sources.  A call either registers [fn], to be run once
    every rank has called [lazy_sync] with the same id, or throws without having
    registered or run [fn]. *)
Inductive lazy_sync_behaviour : Type :=
| Registers
| Throws (e : exception).

Definition lazy_sync (behaviour : lazy_sync_behaviour) (id : uniqueidT)
    (fn : callback) : M unit :=
  match behaviour with
  | Registers => fun st =>
      (Returned tt,
       {| madness_initialized := madness_initialized st;
          cleanup_counter_ := cleanup_counter_ st;
          heap := heap st; deleted := deleted st; stderr := stderr st;
          lazy_sync_registry := lazy_sync_registry st ++ [(id, fn)] |})
  | Throws e => throw e
  end.

(** The body of a registered callback, run by the runtime. *)
Definition run_callback (fn : callback) : M unit :=
  match fn with
  | DeleteAndDecrement pimpl =>
      delete_ pimpl;;
      add_to_cleanup_counter (-1)
  end.

(** [DistArray::lazy_deleter]; [behaviour] is what the runtime does in the call of
    [lazy_sync]. *)
Definition lazy_deleter (behaviour : lazy_sync_behaviour) (pimpl : option pointer)
    : M unit :=
  match pimpl with
  | Some pimpl =>
      init ← initialized;
      if (init : bool) then
        impl ← read pimpl;
        let world := impl_world impl in
        let id := impl_id impl in
        add_to_cleanup_counter 1;;
        try_catch
          (lazy_sync behaviour id (DeleteAndDecrement pimpl))
          (fun e =>
             match e with
             | MadnessException what =>
                 fprintf_stderr
                   {| line_text := "!! ERROR TiledArray: madness::MadnessException thrown in Array::lazy_deleter().";
                      line_what := Some what;
                      line_rank := world_rank world |};;
                 add_to_cleanup_counter (-1);;
                 delete_ pimpl
             | StdException what =>
                 fprintf_stderr
                   {| line_text := "!! ERROR TiledArray: std::exception thrown in Array::lazy_deleter().";
                      line_what := Some what;
                      line_rank := world_rank world |};;
                 add_to_cleanup_counter (-1);;
                 delete_ pimpl
             | UnknownException =>
                 fprintf_stderr
                   {| line_text := "!! ERROR TiledArray: An unknown exception was thrown in Array::lazy_deleter().";
                      line_what := None;
                      line_rank := world_rank world |};;
                 add_to_cleanup_counter (-1);;
                 delete_ pimpl
             end)
      else delete_ pimpl
  | None => mret tt
  end.

(** The text of [e.what()] that a handler can print. *)
Definition what_of (e : exception) : option string :=
  match e with
  | MadnessException what => Some what
  | StdException what => Some what
  | UnknownException => None
  end.

End LazyDeleter.

(** ** The sparse shape of [tests/dist_eval_contraction_eval.cpp] *)

Module SparseShape.

Local Open Scope Q_scope.

(** The sum of [f 0], ..., [f (n - 1)]. *)
Fixpoint sumQ (n : nat) (f : nat -> Q) : Q :=
  match n with
  | O => 0
  | S n' => sumQ n' f + f n'
  end.

(** Modelled from the spec: [SparseShape] ([sparse_shape.h]) is not part of the
    sources.  A sparse shape keeps a non-negative norm for every tile and a
    threshold; after the modes are fused as the gemm helper prescribes, the tiles
    form a matrix of [tile_rows] by [tile_cols] tiles.  A tile is zero when its
    norm is below [threshold * scale]. *)
Record SparseShape : Type := {
  tile_rows : nat;
  tile_cols : nat;
  tile_norms : nat -> nat -> Q;
  threshold : Q;
  scale : Q
}.

(** Modelled from the spec: [is_zero(idx)] holds exactly when
    [norm[idx] < threshold * scale]. *)
Definition is_zero (s : SparseShape) (i j : nat) : bool :=
  negb (Qle_bool (threshold s * scale s) (tile_norms s i j)).

(** Modelled from the spec: [gemm(other, alpha, helper)] bounds the norm of every
    output tile by the products of the norms of the pairs of input tiles, summed
    along the contracted mode and scaled by the magnitude of [alpha]; shapes whose
    contracted modes do not match are rejected. *)
Definition gemm (left right : SparseShape) (alpha : Q) : result SparseShape :=
  c_assert (tile_cols left =? tile_rows right)%nat;;
  Ok {| tile_rows := tile_rows left;
        tile_cols := tile_cols right;
        tile_norms := fun i j =>
          Qabs alpha *
          sumQ (tile_cols left) (fun k => tile_norms left i k * tile_norms right k j);
        threshold := threshold left;
        scale := scale left |}.

(** The elements of a tile, seen as a matrix after the modes are fused. *)
Abbreviation matrix := (nat -> nat -> Q).

(** The square of the Frobenius norm of an [m] by [n] tile. *)
Definition squared_norm (m n : nat) (X : matrix) : Q :=
  sumQ m (fun p => sumQ n (fun q => X p q * X p q)).

(** The inner product of two [m] by [n] tiles. *)
Definition inner_product (m n : nat) (X Y : matrix) : Q :=
  sumQ m (fun p => sumQ n (fun q => X p q * Y p q)).

(** The extents of the tiles: tile row [i] has [row_extent i] rows, the tiles of
    the contracted mode [k] have [inner_extent k] columns (on the left) and rows
    (on the right), tile column [j] has [col_extent j] columns. *)
Record Tiling : Type := {
  row_extent : nat -> nat;
  inner_extent : nat -> nat;
  col_extent : nat -> nat
}.

(** Modelled from the spec: the exact contraction.  Output tile [(i, j)] is
    [alpha] times the sum over the [K] tiles [k] of the contracted mode of the
    matrix products of tile [(i, k)] of the left array and tile [(k, j)] of the
    right array. *)
Definition contraction (t : Tiling) (K : nat) (alpha : Q)
    (A B : nat -> nat -> matrix) (i j : nat) : matrix :=
  fun p q =>
    alpha * sumQ K (fun k => sumQ (inner_extent t k) (fun l => A i k p l * B k j l q)).

(** The tiles [A] of an array agree with the norms of a shape: every norm is
    non-negative and no tile has a Frobenius norm above the norm that the shape
    records for it. *)
Definition norms_cover (s : SparseShape) (ext_rows ext_cols : nat -> nat)
    (A : nat -> nat -> matrix) : Prop :=
  forall i k, (i < tile_rows s)%nat -> (k < tile_cols s)%nat ->
    0 <= tile_norms s i k /\
    squared_norm (ext_rows i) (ext_cols k) (A i k)
      <= tile_norms s i k * tile_norms s i k.

End SparseShape.

(** ** Concrete inputs used by the examples *)

Module Fixtures.
Import Pmap.

(** A build with assertion checking and without [NDEBUG], and a build with
    [NDEBUG] and without assertion checking. *)
Definition debug_build : BuildConfig :=
  {| ta_assert_enabled := true; NDEBUG := false |}.
Definition release_build : BuildConfig :=
  {| ta_assert_enabled := false; NDEBUG := true |}.

(** Rank 1 of a world of two processes. *)
Definition rank1_of_2 : World := {| world_rank := 1; world_size := 2 |}.

(** A dense shape: never empty, valid for every range, no zero tile. *)
Definition dense_shape : DistArray.shape_type :=
  {| DistArray.shape_empty := false;
     DistArray.shape_validate := fun _ => true;
     DistArray.shape_is_zero := fun _ => false;
     DistArray.shape_is_dense := true |}.

(** A matrix of 2 by 1 tiles on rank 1 of 2, with the blocked process map. *)
Definition matrix_trange : DistArray.TiledRange :=
  {| DistArray.tiles_per_mode := [2%nat; 1%nat];
     DistArray.elements_range_ :=
       {| Kernels.lobound := [0; 0]; Kernels.upbound := [4; 2] |};
     DistArray.make_tile_range := fun i =>
       {| Kernels.lobound := [2 * Z.of_nat i; 0];
          Kernels.upbound := [2 * Z.of_nat i + 2; 2] |} |}.

Definition matrix_impl : DistArray.impl_type :=
  {| DistArray.impl_world := rank1_of_2;
     DistArray.impl_trange := matrix_trange;
     DistArray.impl_shape := dense_shape;
     DistArray.impl_pmap := BlockedPmap.make rank1_of_2 2;
     DistArray.impl_id := 0%nat;
     DistArray.impl_tiles := ∅ |}.

(** A process whose only allocated implementation is [matrix_impl], at address 7. *)
Definition one_array_state : LazyDeleter.State :=
  {| LazyDeleter.madness_initialized := true;
     LazyDeleter.cleanup_counter_ := 0;
     LazyDeleter.heap := {[ 7%nat := matrix_impl ]};
     LazyDeleter.deleted := [];
     LazyDeleter.stderr := [];
     LazyDeleter.lazy_sync_registry := [] |}.

(** Two tiles over the range [[0, 3)]. *)
Definition vector_range : Kernels.Range :=
  {| Kernels.lobound := [0]; Kernels.upbound := [3] |}.
Definition tile_123 : Kernels.Tensor Z := Kernels.MkTensor vector_range [1; 2; 3].
Definition tile_456 : Kernels.Tensor Z := Kernels.MkTensor vector_range [4; 5; 6].

(** A permuting product that is never reached by the examples. *)
Definition no_mult_perm (first second : Kernels.Tensor Z) (perm : list nat)
    : result (Kernels.Tensor Z) := Fail OutOfBounds.

(** The box [[5, 7) x [3, 6)]. *)
Definition box_5_3 : Shape.Orthotope := {| Shape.low := [5; 3]; Shape.high := [7; 6] |}.

(** The box [[0, 2) x [0, 65536) x [0, 65536)], of [2^33] elements. *)
Definition box_2_65536_65536 : Shape.Orthotope :=
  {| Shape.low := [0; 0; 0]; Shape.high := [2; 65536; 65536] |}.

(** Sparse shapes and arrays of a single tile with the single element [1/2]. *)
Definition half_shape (tau : Q) : SparseShape.SparseShape :=
  {| SparseShape.tile_rows := 1; SparseShape.tile_cols := 1;
     SparseShape.tile_norms := fun _ _ => (1 # 2)%Q;
     SparseShape.threshold := tau; SparseShape.scale := 1%Q |}.
Definition unit_tiling : SparseShape.Tiling :=
  {| SparseShape.row_extent := fun _ => 1%nat;
     SparseShape.inner_extent := fun _ => 1%nat;
     SparseShape.col_extent := fun _ => 1%nat |}.
Definition half_array : nat -> nat -> nat -> nat -> Q := fun _ _ _ _ => (1 # 2)%Q.

End Fixtures.

(** ** [src/shape.h]: the iterator of a shape *)

Module ShapeIterator.
Import Shape.

(** A [ShapeIterator]: the collection, the current ordinal [m_current] (an [int],
    [-1] at the end) and the current tuple [m_value]. *)
Record ShapeIterator : Type := {
  m_coll : Shape;
  m_current : Z;
  m_value : Tuple
}.

(** Modelled from the spec: [Orthotope::count()] of the missing [orthotope.h] is
    the number of elements of the orthotope. *)
Definition count (o : Orthotope) : Z := nelements o.

(** [ShapeIterator(coll, cur)]: [m_value] is initialised with [coll.coord(cur)],
    which converts the [int] to [size_t]. *)
Definition make (coll : Shape) (cur : Z) : result ShapeIterator :=
  v ← coord coll (static_cast_size_t cur);
  Ok {| m_coll := coll; m_current := cur; m_value := v |}.

(** [advance(n)]; [m_current += n] and [m_value[DIM - 1] += n] are computed in
    [int]. *)
Definition advance (it : ShapeIterator) (n : Z) : result ShapeIterator :=
  c_assert (negb (m_current it =? -1));;
  c_assert (m_current it <? count (m_orthotope (m_coll it)));;
  let current := int_wrap (m_current it + n) in
  let last := (DIM (m_coll it) - 1)%nat in
  let value := <[last := int_wrap (at_ (m_value it) last + n)]> (m_value it) in
  if at_ (high (m_orthotope (m_coll it))) last <=? at_ value last then
    if current <? count (m_orthotope (m_coll it)) then
      v ← coord (m_coll it) (static_cast_size_t current);
      Ok {| m_coll := m_coll it; m_current := current; m_value := v |}
    else Ok {| m_coll := m_coll it; m_current := -1; m_value := value |}
  else Ok {| m_coll := m_coll it; m_current := current; m_value := value |}.

(** Prefix [operator++]. *)
Definition increment (it : ShapeIterator) : result ShapeIterator :=
  c_assert (negb (m_current it =? -1));;
  advance it 1.

(** [operator*]. *)
Definition dereference (it : ShapeIterator) : result Tuple :=
  c_assert (negb (m_current it =? -1));;
  c_assert (m_current it <? count (m_orthotope (m_coll it)));;
  Ok (m_value it).

(** [n] applications of [++it]. *)
Fixpoint increments (n : nat) (it : ShapeIterator) : result ShapeIterator :=
  match n with
  | O => Ok it
  | S n' => it' ← increment it; increments n' it'
  end.

(** Lexicographic order on tuples of the same rank, most significant dimension
    first. *)
Fixpoint lex_lt (a b : Tuple) : Prop :=
  match a, b with
  | x :: a', y :: b' => x < y \/ (x = y /\ lex_lt a' b')
  | _, _ => False
  end.

End ShapeIterator.

(** ** [src/TiledArray/tensor/kernels.h]: the blocks of a view *)

Module KernelsSpec.
Import Kernels.

(** Specification-level view of the loop [for (i = 0; i < volume; i += stride)]
    over a non-contiguous tensor: the blocks of [stride] elements that start at the
    offsets [ord i] of the parent buffer, in the order of the loop. *)
Fixpoint view_blocks {E} (ord : nat -> nat) (parent : list E) (stride volume : nat)
    (fuel i : nat) : list (list E) :=
  if (i <? volume)%nat then
    match fuel with
    | O => []
    | S fuel' =>
        take stride (drop (ord i) parent)
        :: view_blocks ord parent stride volume fuel' (i + stride)%nat
    end
  else [].

(** The elements of a view, gathered block by block. *)
Definition gather {E} (t : TensorView E) : list E :=
  concat (view_blocks (br_ord (view_range t)) (view_data t)
            (br_inner_size (view_range t)) (br_volume (view_range t))
            (br_volume (view_range t)) 0).

(** Every block that the loop reads lies inside the parent buffer. *)
Definition blocks_in_bounds {E} (t : TensorView E) : Prop :=
  forall j, (j * br_inner_size (view_range t) < br_volume (view_range t))%nat ->
    (br_ord (view_range t) (j * br_inner_size (view_range t))
       + br_inner_size (view_range t) <= length (view_data t))%nat.

End KernelsSpec.

(** ** [src/TiledArray/tile_op/mult.h]: [consume_left] and [consume_right] *)

Module MultConsume.
Import Kernels Mult.

Section Consume.
Context {T : Type}.
Variable mul : T -> T -> T.
Variable cfg : BuildConfig.

(** [Mult::consume_left(left, right)].  [is_consumable_tile] is the trait
    [is_consumable_tile<left_type>::value] of the missing [type_traits.h], and
    [right_is_const] is [std::is_const<R>::value]; [right] is [None] for a
    [ZeroTensor]. *)
Definition consume_left (is_consumable_tile RightConsumable right_is_const : bool)
    (left : Tensor T) (right : option (Tensor T)) : result evaluation :=
  let is_same_result_left := true in
  let is_same_result_right := true in
  let right_is_consumable := RightConsumable && is_same_result_right in
  let can_consume_left := is_consumable_tile && is_same_result_left in
  let can_consume_right :=
    right_is_consumable && negb (right_is_const || can_consume_left) in
  eval mul cfg can_consume_left can_consume_right
    match right with
    | Some second => TileTile left second
    | None => TileZero left
    end.

(** [Mult::consume_right(left, right)]; [left] is [None] for a [ZeroTensor]. *)
Definition consume_right (is_consumable_tile LeftConsumable left_is_const : bool)
    (left : option (Tensor T)) (right : Tensor T) : result evaluation :=
  let is_same_result_left := true in
  let is_same_result_right := true in
  let left_is_consumable := LeftConsumable && is_same_result_left in
  let can_consume_right := is_consumable_tile && is_same_result_right in
  let can_consume_left :=
    left_is_consumable && negb (left_is_const || can_consume_right) in
  eval mul cfg can_consume_left can_consume_right
    match left with
    | Some first => TileTile first right
    | None => ZeroTile right
    end.

End Consume.

End MultConsume.

(** ** [src/TiledArray/dist_array.h]: arrays that go out of scope *)

Module LazyCleanup.
Import Pmap DistArray LazyDeleter.

(** The last handles of the implementations [pimpls] go out of scope, one after
    the other; the deleter of the shared pointer is [lazy_deleter], and the
    runtime registers every callback. *)
Fixpoint release_all (pimpls : list pointer) : M unit :=
  match pimpls with
  | [] => mret tt
  | pimpl :: rest =>
      lazy_deleter Registers (Some pimpl);;
      release_all rest
  end.

(** The runtime runs the callbacks [fns], in order. *)
Fixpoint run_callbacks (fns : list callback) : M unit :=
  match fns with
  | [] => mret tt
  | fn :: rest =>
      run_callback fn;;
      run_callbacks rest
  end.

End LazyCleanup.

(** ** [src/TiledArray/dist_array.h]: the tiles of an array *)

Module DistArraySpec.
Import Pmap DistArray.





(** The failure that [check_index] raises for an ordinal index. *)
Definition out_of_range_error {A} : result A :=
  Fail (UserError "The ordinal index used to access an array tile is out of range.").

End DistArraySpec.

(** ** More small inputs *)

Module TileFixtures.

(** The view of the first two columns of a 2 by 4 parent buffer: four elements,
    two of them contiguous at a time. *)
Definition strided_view : Kernels.TensorView Z :=
  Kernels.MkView
    {| Kernels.br_volume := 4; Kernels.br_inner_size := 2;
       Kernels.br_ord := fun i => (i / 2 * 4 + i mod 2)%nat |}
    [1; 2; 0; 0; 3; 4; 0; 0].

(** The same four elements as a contiguous tensor. *)
Definition gathered_view : Kernels.Tensor Z :=
  Kernels.MkTensor {| Kernels.lobound := [0; 0]; Kernels.upbound := [2; 2] |}
    [1; 2; 3; 4].


End TileFixtures.

(** * Theorems *)

(** ** Shape: ordinal and coordinate conversion *)

Section ShapeFacts.
Import Shape.

Lemma int_wrap_small z : - 2 ^ 31 <= z < 2 ^ 31 -> int_wrap z = z.
Proof. intros Hz. unfold int_wrap. rewrite Z.mod_small; lia. Qed.

Lemma static_cast_size_t_small z : 0 <= z < 2 ^ 31 -> static_cast_size_t z = z.
Proof.
  intros Hz. unfold static_cast_size_t, size_t_modulus. rewrite Z.mod_small; lia.
Qed.

Lemma init_linear_step_loop_length h l d step :
  length (init_linear_step_loop h l d step) = length step.
Proof.
  revert step; induction d as [|d IH]; intros step; simpl; [done|].
  by rewrite IH, length_insert.
Qed.

Lemma init_linear_step_loop_ge h l d step i :
  (d <= i)%nat -> at_ (init_linear_step_loop h l d step) i = at_ step i.
Proof.
  revert step; induction d as [|d IH]; intros step Hi; simpl; [done|].
  rewrite IH by lia. unfold at_.
  rewrite !list_lookup_total_alt, list_lookup_insert_ne by lia. done.
Qed.

Lemma init_linear_step_loop_lt h l d step i :
  (i < d)%nat -> (d < length step)%nat ->
  at_ (init_linear_step_loop h l d step) i =
  int_wrap (int_wrap (at_ h (S i) - at_ l (S i))
            * at_ (init_linear_step_loop h l d step) (S i)).
Proof.
  revert step; induction d as [|d IH]; intros step Hi Hd; simpl; [lia|].
  destruct (decide (i = d)) as [->|Hne].
  - rewrite !init_linear_step_loop_ge by lia. unfold at_.
    rewrite !list_lookup_total_alt.
    rewrite list_lookup_insert_eq by lia.
    rewrite list_lookup_insert_ne by lia. done.
  - apply IH; [lia|]. rewrite length_insert. lia.
Qed.

Lemma at_vec_sub (h l : list Z) i :
  (i < length h)%nat -> (i < length l)%nat ->
  at_ (vec_sub h l) i = at_ h i - at_ l i.
Proof.
  intros Hh Hl. unfold at_, vec_sub.
  destruct (lookup_lt_is_Some_2 h i Hh) as [x Hx].
  destruct (lookup_lt_is_Some_2 l i Hl) as [y Hy].
  rewrite !list_lookup_total_alt, lookup_zip_with, Hx, Hy. done.
Qed.

Lemma steps_of_length ext : length (steps_of ext) = length ext.
Proof. induction ext; simpl; congruence. Qed.

Lemma prod_pos_all ext :
  Forall (Z.le 0) ext -> 0 < tuple_product ext -> Forall (Z.lt 0) ext.
Proof.
  induction 1 as [|e es He Hes IH]; intros Hp; simpl in *; [constructor|].
  assert (0 < e /\ 0 < tuple_product es) as [? ?].
  { assert (0 <= tuple_product es).
    { clear -Hes. induction Hes; simpl; [lia|]. nia. }
    nia. }
  constructor; auto.
Qed.

Lemma prod_pos ext : Forall (Z.lt 0) ext -> 0 < tuple_product ext.
Proof. induction 1; simpl; [lia|nia]. Qed.

(** With positive extents, every extent and every linear step is at most the
    number of elements. *)
Lemma ext_le_prod ext :
  Forall (Z.lt 0) ext -> Forall (fun e => 0 < e <= tuple_product ext) ext.
Proof.
  induction 1 as [|e es He Hes IH]; simpl; constructor.
  - pose proof (prod_pos es Hes). nia.
  - eapply Forall_impl; [exact IH|]. intros x [? ?]. simpl. nia.
Qed.

Lemma steps_le_prod ext :
  Forall (Z.lt 0) ext -> Forall (fun s => 0 < s <= tuple_product ext) (steps_of ext).
Proof.
  induction 1 as [|e es He Hes IH]; simpl; constructor.
  - pose proof (prod_pos es Hes). nia.
  - eapply Forall_impl; [exact IH|]. intros x [? ?]. simpl.
    pose proof (prod_pos es Hes). nia.
Qed.

Lemma steps_unique (ext s : list Z) :
  Forall (Z.lt 0) ext -> tuple_product ext < 2 ^ 31 ->
  length s = length ext ->
  (forall i, (S i < length ext)%nat ->
     at_ s i = int_wrap (int_wrap (at_ ext (S i)) * at_ s (S i))) ->
  (ext <> [] -> at_ s (length ext - 1) = 1) ->
  s = steps_of ext.
Proof.
  intros Hext; revert s; induction Hext as [|e es He Hes IH];
    intros s Hprod Hlen Hrec Hlast.
  - by destruct s.
  - destruct s as [|z s]; [done|]. simpl in Hlen, Hprod.
    pose proof (prod_pos es Hes) as HP.
    assert (Hs : s = steps_of es).
    { apply IH; [nia|lia| |].
      - intros i Hi. apply (Hrec (S i)). simpl; lia.
      - intros Hne. destruct es as [|e1 es']; [done|].
        specialize (Hlast ltac:(done)). simpl in Hlast |- *.
        replace (length es' - 0)%nat with (length es') in * by lia.
        exact Hlast. }
    subst s. simpl. f_equal.
    destruct es as [|e1 es'].
    + by specialize (Hlast ltac:(done)).
    + specialize (Hrec O ltac:(simpl; lia)).
      change (at_ (z :: steps_of (e1 :: es')) 0) with z in Hrec.
      change (at_ (e :: e1 :: es') 1) with e1 in Hrec.
      change (at_ (z :: steps_of (e1 :: es')) 1) with (tuple_product es') in Hrec.
      apply Forall_cons in Hes as [He1 Hes'].
      pose proof (prod_pos es' Hes') as HP'.
      simpl in HP, Hprod |- *.
      rewrite (int_wrap_small e1) in Hrec by nia.
      rewrite int_wrap_small in Hrec by nia. exact Hrec.
Qed.

Lemma extents_length o :
  length (high o) = length (low o) -> length (extents o) = length (low o).
Proof. intros H. unfold extents, vec_sub. rewrite length_zip_with. lia. Qed.

Lemma extents_nonneg o :
  Forall2 Z.le (low o) (high o) -> Forall (Z.le 0) (extents o).
Proof.
  unfold extents, vec_sub. induction 1; simpl; constructor; [lia|done].
Qed.

Lemma extents_pos o :
  wf_orthotope o -> 0 < nelements o -> Forall (Z.lt 0) (extents o).
Proof.
  intros (_ & _ & Hle & _) Hn. apply prod_pos_all; [by apply extents_nonneg|done].
Qed.

(** While the number of elements is positive and fits an [int], the loop of
    [init_linear_step_] computes the row-major steps without wrapping around. *)
Lemma init_linear_step_spec o :
  wf_orthotope o -> 0 < nelements o < 2 ^ 31 ->
  init_linear_step_ o = steps_of (extents o).
Proof.
  intros Hwf Hn. pose proof (extents_pos o Hwf ltac:(lia)) as Hext.
  destruct Hwf as (Hpos & Hlen & _). unfold init_linear_step_.
  pose proof (extents_length o Hlen) as Hextlen.
  apply steps_unique; [done|unfold nelements in Hn; lia| | |].
  - rewrite init_linear_step_loop_length, length_insert.
    unfold default_tuple. rewrite length_replicate. lia.
  - intros i Hi. rewrite Hextlen in Hi.
    unfold extents. rewrite at_vec_sub by lia.
    apply init_linear_step_loop_lt; [lia|].
    rewrite length_insert. unfold default_tuple. rewrite length_replicate. lia.
  - intros _. rewrite Hextlen.
    rewrite init_linear_step_loop_ge by lia. unfold at_, default_tuple.
    rewrite list_lookup_total_alt, list_lookup_insert_eq; [done|].
    rewrite length_replicate. lia.
Qed.

(** On steps that are positive values of type [int] and a linear index below
    [2^31], the loop of [coord] neither divides by zero nor wraps around: it
    computes the digits of the linear index. *)
Lemma coord_loop_digits (pre_s suf_s pre_e : Tuple) li :
  Forall (fun s => 0 < s < 2 ^ 31) suf_s ->
  0 <= li < 2 ^ 31 ->
  length pre_e = length pre_s ->
  coord_loop (pre_s ++ suf_s) (length suf_s) (length pre_s) li
    (pre_e ++ replicate (length suf_s) 0)
  = Ok (let '(r, ds) := coord_digits suf_s li in (r, pre_e ++ ds)).
Proof.
  intros Hsuf; revert pre_s pre_e li;
    induction Hsuf as [|s ss Hs Hss IH]; intros pre_s pre_e li Hli Hlen.
  - done.
  - cbn [coord_loop coord_digits length]. destruct (0 <? li) eqn:Hpos; [|done].
    apply Z.ltb_lt in Hpos.
    assert (Hat : at_ (pre_s ++ s :: ss) (length pre_s) = s).
    { unfold at_. by rewrite list_lookup_total_middle. }
    rewrite Hat, (static_cast_size_t_small s) by lia.
    replace (s =? 0) with false by (symmetry; apply Z.eqb_neq; lia).
    assert (Hq : 0 <= li `quot` s <= li).
    { rewrite Z.quot_div_nonneg by lia. split; [apply Z.div_pos; lia|].
      apply Z.div_le_upper_bound; nia. }
    assert (Hqs : 0 <= li `quot` s * s <= li).
    { rewrite Z.quot_div_nonneg by lia.
      assert (Hs0 : 0 < s) by lia.
      pose proof (Z.mul_div_le li s Hs0) as Hm.
      assert (0 <= li `div` s) by (apply Z.div_pos; lia). nia. }
    rewrite (int_wrap_small (li `quot` s)) by lia.
    rewrite (int_wrap_small (li `quot` s * s)) by lia.
    rewrite (static_cast_size_t_small (li `quot` s * s)) by lia.
    rewrite (static_cast_size_t_small (li - li `quot` s * s)) by lia.
    replace (<[length pre_s:=li `quot` s]> (pre_e ++ replicate (S (length ss)) 0))
      with ((pre_e ++ [li `quot` s]) ++ replicate (length ss) 0).
    2:{ rewrite <- Hlen. rewrite insert_app_r_alt by lia.
        rewrite Nat.sub_diag. simpl. by rewrite <- app_assoc. }
    replace (pre_s ++ s :: ss) with ((pre_s ++ [s]) ++ ss) by (by rewrite <- app_assoc).
    replace (S (length pre_s)) with (length (pre_s ++ [s])) by (rewrite length_app; simpl; lia).
    rewrite IH by (rewrite ?length_app; simpl; lia).
    destruct (coord_digits ss _) as [r ds]. by rewrite <- app_assoc.
Qed.

Lemma coord_loop_from_zero (step : Tuple) li :
  Forall (fun s => 0 < s < 2 ^ 31) step ->
  0 <= li < 2 ^ 31 ->
  coord_loop step (length step) 0 li (default_tuple (length step)) =
  Ok (coord_digits step li).
Proof.
  intros Hstep Hli.
  pose proof (coord_loop_digits [] step [] li Hstep Hli eq_refl) as H. simpl in H.
  unfold default_tuple. rewrite H. by destruct (coord_digits step li).
Qed.

Lemma coord_digits_dot step li :
  dot (coord_digits step li).2 step + (coord_digits step li).1 = li /\
  length (coord_digits step li).2 = length step.
Proof.
  revert li; induction step as [|s ss IH]; intros li; simpl; [split; [lia|done]|].
  destruct (0 <? li).
  - specialize (IH (li - li `quot` s * s)).
    destruct (coord_digits ss _) as [r ds]; simpl in *. split; [lia|]. lia.
  - simpl. split; [|by rewrite length_replicate].
    clear IH. assert (H : forall n t, dot (replicate n 0) t = 0).
    { induction n; intros [|? ?]; simpl; try done. rewrite IHn. lia. }
    rewrite H. lia.
Qed.

Lemma coord_digits_range ext li :
  Forall (Z.lt 0) ext -> 0 <= li < tuple_product ext ->
  (coord_digits (steps_of ext) li).1 = 0 /\
  Forall2 digit_ok (coord_digits (steps_of ext) li).2 ext.
Proof.
  intros Hext; revert li; induction Hext as [|e es He Hes IH]; intros li Hli.
  - simpl in *. split; [lia|constructor].
  - cbn [steps_of coord_digits]. pose proof (prod_pos es Hes) as HP.
    simpl in Hli. destruct (0 <? li) eqn:Hpos.
    + apply Z.ltb_lt in Hpos.
      rewrite Z.quot_div_nonneg by lia.
      pose proof (Z.div_mod li (tuple_product es) ltac:(lia)) as Hdm.
      pose proof (Z.mod_pos_bound li (tuple_product es) HP) as Hmb.
      specialize (IH (li - li `div` tuple_product es * tuple_product es) ltac:(lia)).
      destruct (coord_digits (steps_of es) _) as [r ds]; simpl in *.
      destruct IH as [-> Hds]. split; [done|].
      constructor; [|done]. split.
      * apply Z.div_pos; lia.
      * apply Z.div_lt_upper_bound; lia.
    + apply Z.ltb_ge in Hpos. simpl. split; [lia|].
      constructor; [split; lia|].
      rewrite steps_of_length. clear -Hes.
      induction Hes; simpl; constructor; [split; lia|done].
Qed.

Lemma dot_steps_range x ext :
  Forall2 digit_ok x ext -> 0 <= dot x (steps_of ext) < tuple_product ext.
Proof.
  induction 1 as [|d e ds es [Hd0 Hde] Hds IH]; simpl; [lia|]. nia.
Qed.

Lemma digit_ok_ext_pos x ext : Forall2 digit_ok x ext -> Forall (Z.lt 0) ext.
Proof. induction 1 as [|d e ds es [? ?] _ IH]; constructor; [lia|done]. Qed.

Lemma dot_steps_zero x ext :
  Forall2 digit_ok x ext -> dot x (steps_of ext) = 0 ->
  x = replicate (length ext) 0.
Proof.
  induction 1 as [|d e ds es [Hd0 Hde] Hds IH]; simpl; intros Hz; [done|].
  pose proof (dot_steps_range _ _ Hds) as Hr.
  pose proof (prod_pos es (digit_ok_ext_pos _ _ Hds)) as HP.
  assert (d = 0) as -> by nia.
  rewrite IH by lia. done.
Qed.

Lemma coord_digits_of_dot x ext :
  Forall2 digit_ok x ext ->
  coord_digits (steps_of ext) (dot x (steps_of ext)) = (0, x).
Proof.
  induction 1 as [|d e ds es [Hd0 Hde] Hds IH]; [done|].
  cbn [steps_of dot coord_digits].
  pose proof (dot_steps_range _ _ Hds) as Hr.
  pose proof (prod_pos es (digit_ok_ext_pos _ _ Hds)) as HP.
  set (P := tuple_product es) in *. set (t := dot ds (steps_of es)) in *.
  destruct (0 <? d * P + t) eqn:Hpos.
  - apply Z.ltb_lt in Hpos.
    rewrite Z.quot_div_nonneg by lia.
    assert (Hq : (d * P + t) `div` P = d).
    { symmetry. apply (Z.div_unique_pos _ _ d t); lia. }
    rewrite Hq. replace (d * P + t - d * P) with t by lia.
    by rewrite IH.
  - apply Z.ltb_ge in Hpos.
    assert (d = 0) as -> by nia. assert (t = 0) as Ht by nia.
    rewrite Ht. simpl. rewrite steps_of_length.
    f_equal. f_equal. symmetry. by apply dot_steps_zero.
Qed.

Lemma box_includes_digits l h c :
  box_includes l h c = true ->
  Forall2 digit_ok (vec_sub c l) (vec_sub h l) /\
  vec_add (vec_sub c l) l = c.
Proof.
  revert h c; induction l as [|l0 l IH]; intros [|h0 h] [|c0 c]; simpl; try done.
  rewrite !andb_true_iff, Z.leb_le, Z.ltb_lt. intros [[? ?] Hrest].
  destruct (IH _ _ Hrest) as [HF Heq]. split.
  - constructor; [split; lia|done].
  - unfold vec_add, vec_sub in *. rewrite Heq. f_equal. lia.
Qed.

Lemma digits_box_includes l h ds :
  length h = length l ->
  Forall2 digit_ok ds (vec_sub h l) ->
  box_includes l h (vec_add ds l) = true /\
  vec_sub (vec_add ds l) l = ds.
Proof.
  revert h ds; induction l as [|l0 l IH]; intros [|h0 h] ds Hlen HF;
    simpl in *; try done.
  - by inversion HF.
  - inversion HF as [|d e ds' es [? ?] HF']; subst. simpl.
    destruct (IH h ds' ltac:(lia) HF') as [Hinc Heq]. split.
    + rewrite !andb_true_iff, Z.leb_le, Z.ltb_lt. repeat split; [lia|lia|done].
    + unfold vec_add, vec_sub in *. rewrite Heq. f_equal. lia.
Qed.

(** Where the operations on tuples do not wrap around. *)

Lemma tuple_add_exact (l h ds : list Z) :
  Forall is_int l -> Forall is_int h ->
  Forall2 digit_ok ds (vec_sub h l) ->
  tuple_add ds l = vec_add ds l.
Proof.
  intros Hl; revert h ds; induction Hl as [|l0 l Hl0 Hl IH]; intros h ds Hh Hds.
  - by destruct ds.
  - destruct h as [|h0 h]; [by inversion Hds|].
    inversion Hh as [|? ? Hh0 Hh']; subst.
    inversion Hds as [|d e ds' es [? ?] Hds']; subst.
    unfold tuple_add, vec_add in *. simpl. f_equal; [|by eapply IH].
    unfold is_int in *. apply int_wrap_small. lia.
Qed.

Lemma tuple_sub_exact (l h c : list Z) :
  Forall (fun e => e <= 2 ^ 31) (vec_sub h l) ->
  box_includes l h c = true ->
  tuple_sub c l = vec_sub c l.
Proof.
  revert h c; induction l as [|l0 l IH]; intros [|h0 h] [|c0 c]; simpl; try done.
  intros Hext. inversion Hext as [|? ? He Hext']; subst.
  rewrite !andb_true_iff, Z.leb_le, Z.ltb_lt. intros [[? ?] Hrest].
  unfold tuple_sub, vec_sub in *. simpl. f_equal; [|by eapply IH].
  apply int_wrap_small. lia.
Qed.

Lemma dotProduct_exact x ext :
  Forall2 digit_ok x ext -> tuple_product ext <= 2 ^ 31 ->
  dotProduct x (steps_of ext) = dot x (steps_of ext).
Proof.
  induction 1 as [|d e ds es [Hd0 Hde] Hds IH]; intros Hprod; [done|].
  cbn [steps_of dotProduct dot]. simpl in Hprod.
  pose proof (dot_steps_range _ _ Hds) as Hr.
  pose proof (prod_pos es (digit_ok_ext_pos _ _ Hds)) as HP.
  rewrite IH by nia.
  rewrite (int_wrap_small (d * tuple_product es)) by nia.
  apply int_wrap_small. nia.
Qed.

(** The closed forms of [coord] and [ord] on a shape whose number of elements fits
    an [int]. *)

Lemma coord_closed o pred k :
  wf_orthotope o -> nelements o < 2 ^ 31 -> 0 <= k < nelements o ->
  exists ds,
    coord (make o pred) k = Ok (vec_add ds (low o)) /\
    Forall2 digit_ok ds (extents o) /\
    dot ds (steps_of (extents o)) = k.
Proof.
  intros Hwf H31 Hk. pose proof Hwf as (Hpos & Hlen & Hle & Hsz & Hlo & Hhi).
  pose proof (init_linear_step_spec o Hwf ltac:(lia)) as Hstep.
  pose proof (extents_length o Hlen) as Hextlen.
  pose proof (extents_pos o Hwf ltac:(lia)) as Hext.
  unfold coord, make, DIM; cbn [m_orthotope m_linear_step].
  rewrite Hstep.
  replace ((0 <=? k) && (k <? nelements o)) with true
    by (symmetry; apply andb_true_iff; rewrite Z.leb_le, Z.ltb_lt; lia).
  cbn [c_assert mbind result_bind].
  rewrite <- Hextlen, <- (steps_of_length (extents o)), coord_loop_from_zero;
    [|eapply Forall_impl; [apply (steps_le_prod _ Hext)|];
      intros s [? ?]; unfold nelements in H31; simpl; lia
     |lia].
  destruct (coord_digits_range (extents o) k Hext Hk) as [Hr Hds].
  destruct (coord_digits_dot (steps_of (extents o)) k) as [Hdot _].
  destruct (coord_digits (steps_of (extents o)) k) as [r ds]; simpl in *. subst r.
  cbn [c_assert mbind result_bind Z.eqb].
  exists ds. rewrite (tuple_add_exact (low o) (high o)) by done.
  split; [reflexivity|]. split; [exact Hds|lia].
Qed.

Lemma ord_closed o pred c :
  wf_orthotope o -> nelements o < 2 ^ 31 -> ortho_includes o c = true ->
  ord (make o pred) c = Ok (dot (vec_sub c (low o)) (steps_of (extents o))) /\
  Forall2 digit_ok (vec_sub c (low o)) (extents o) /\
  vec_add (vec_sub c (low o)) (low o) = c /\
  0 < nelements o.
Proof.
  intros Hwf H31 Hc. pose proof Hwf as (Hpos & Hlen & Hle & Hsz & Hlo & Hhi).
  destruct (box_includes_digits _ _ _ Hc) as [Hds Hadd].
  fold (extents o) in Hds.
  pose proof (prod_pos _ (digit_ok_ext_pos _ _ Hds)) as Hn. fold (nelements o) in Hn.
  pose proof (init_linear_step_spec o Hwf ltac:(lia)) as Hstep.
  pose proof (dot_steps_range _ _ Hds) as Hr. fold (nelements o) in Hr.
  unfold ord, make; cbn [m_orthotope m_linear_step].
  rewrite Hstep, Hc. cbn [c_assert mbind result_bind].
  rewrite (tuple_sub_exact (low o) (high o)); [|fold (extents o)|done].
  2:{ eapply Forall_impl; [apply (ext_le_prod _ (digit_ok_ext_pos _ _ Hds))|].
      intros e [? ?]. unfold nelements in H31. simpl. lia. }
  rewrite dotProduct_exact by (done || (unfold nelements in H31; lia)).
  rewrite static_cast_size_t_small by lia. done.
Qed.

(** C8. For a shape over a well-formed orthotope whose number of elements fits an
    [int], [ord] and [coord] are mutually inverse: [ord (coord k) = k] for every
    linear index [0 <= k < nelements], and [coord (ord c) = c] for every
    coordinate [c] that the orthotope includes.  The linear steps are the
    row-major ones, with dimension [DIM - 1] the least significant. *)
Theorem shape_ord_coord_inverse (o : Orthotope) (pred : Tuple -> bool) :
  wf_orthotope o -> nelements o < 2 ^ 31 ->
  (0 < nelements o -> m_linear_step (make o pred) = steps_of (extents o)) /\
  (forall k, 0 <= k < nelements o ->
     coord (make o pred) k ≫= ord (make o pred) = Ok k) /\
  (forall c, ortho_includes o c = true ->
     ord (make o pred) c ≫= coord (make o pred) = Ok c).
Proof.
  intros Hwf H31. pose proof Hwf as (Hpos & Hlen & Hle & Hsz & Hlo & Hhi).
  split; [intros Hn; apply init_linear_step_spec; [done|lia]|]. split.
  - intros k Hk.
    destruct (coord_closed o pred k Hwf H31 Hk) as (ds & Hcoord & Hds & Hdot).
    rewrite Hcoord. cbn [mbind result_bind].
    destruct (digits_box_includes (low o) (high o) ds Hlen Hds) as [Hinc Hsub].
    destruct (ord_closed o pred _ Hwf H31 Hinc) as (Hord & _).
    rewrite Hord, Hsub, Hdot. done.
  - intros c Hc.
    destruct (ord_closed o pred c Hwf H31 Hc) as (Hord & Hds & Hadd & Hn).
    rewrite Hord. cbn [mbind result_bind].
    pose proof (dot_steps_range _ _ Hds) as Hr. fold (nelements o) in Hr.
    destruct (coord_closed o pred _ Hwf H31 Hr) as (ds & Hcoord & Hds' & Hdot).
    pose proof (coord_digits_of_dot _ _ Hds) as H1.
    pose proof (coord_digits_of_dot _ _ Hds') as H2.
    rewrite Hdot in H2.
    assert (Heq : ds = vec_sub c (low o)) by congruence.
    rewrite Hcoord, Heq, Hadd. done.
Qed.

End ShapeFacts.

(** ** Kernels: element-wise loops *)

Section KernelFacts.
Import Kernels.

Lemma vector_ptr_op_zip {A B R} (op : A -> B -> R) (a : list A) (b : list B) :
  length a = length b ->
  vector_ptr_op op (length a) a b = Ok (zip_with op a b).
Proof.
  revert b; induction a as [|x a IH]; intros [|y b] Hlen; simpl in *; try done.
  rewrite IH by lia. done.
Qed.

Lemma vector_op_zip {A B} (op : A -> B -> A) (a : list A) (b : list B) :
  length a = length b ->
  vector_op op (length a) a b = Ok (zip_with op a b).
Proof.
  revert b; induction a as [|x a IH]; intros [|y b] Hlen; simpl in *; try done.
  rewrite IH by lia. done.
Qed.

Lemma zip_with_comm {A} (op : A -> A -> A) (a b : list A) :
  (forall x y, op x y = op y x) -> zip_with op a b = zip_with op b a.
Proof.
  intros Hop. revert b; induction a as [|x a IH]; intros [|y b]; simpl; try done.
  by rewrite Hop, IH.
Qed.

Lemma TA_ASSERT_true cfg : TA_ASSERT cfg true = Ok tt.
Proof. unfold TA_ASSERT. by destruct (ta_assert_enabled cfg). Qed.

End KernelFacts.

(** ** Mult: the tile multiplication operation *)

Section MultFacts.
Import Kernels Mult.
Context {T : Type}.
Variable mul : T -> T -> T.
Variable cfg : BuildConfig.
Variable mult_perm : Tensor T -> Tensor T -> Permutation -> result (Tensor T).

Lemma mult_spec (first second : Tensor T) :
  empty first = false -> empty second = false ->
  wf_tensor first -> wf_tensor second ->
  range first = range second ->
  mult mul cfg first second = Ok (elementwise_product mul first second).
Proof.
  intros He1 He2 Hw1 Hw2 Hr.
  unfold mult, tensor_op, tensor_init, is_range_set_congruent.
  rewrite He1, He2. simpl negb.
  rewrite !bool_decide_eq_true_2 by done. simpl andb.
  rewrite TA_ASSERT_true. cbn [mbind result_bind].
  rewrite <- Hw1, vector_ptr_op_zip; [done|].
  unfold wf_tensor in *. congruence.
Qed.

Lemma mult_to_spec (res arg : Tensor T) :
  empty res = false -> empty arg = false ->
  wf_tensor res -> wf_tensor arg ->
  range res = range arg ->
  mult_to mul cfg res arg = Ok (elementwise_product mul res arg).
Proof.
  intros He1 He2 Hw1 Hw2 Hr.
  unfold mult_to, inplace_tensor_op, is_range_set_congruent.
  rewrite He1, He2. simpl negb.
  rewrite !bool_decide_eq_true_2 by done.
  rewrite TA_ASSERT_true. cbn [mbind result_bind].
  rewrite <- Hw1, vector_op_zip; [by destruct res|].
  unfold wf_tensor in *. congruence.
Qed.

(** C5. For two non-empty tiles with congruent ranges, whose buffers hold as many
    elements as their range, and a commutative product of elements, the value
    returned by the operation is the element-wise product in each of the four
    consumability configurations; the in-place paths [mult_to first second] and
    [mult_to second first] return the same tile as [mult first second]. *)
Theorem mult_consumability_agree (first second : Tensor T) :
  (forall x y, mul x y = mul y x) ->
  empty first = false -> empty second = false ->
  wf_tensor first -> wf_tensor second ->
  is_range_set_congruent first second = true ->
  (forall LC RC,
     returned <$> call mul cfg LC RC (TileTile first second)
     = Ok (elementwise_product mul first second)) /\
  mult_to mul cfg first second = mult mul cfg first second /\
  mult_to mul cfg second first = mult mul cfg first second.
Proof.
  intros Hcomm He1 He2 Hw1 Hw2 Hr.
  apply bool_decide_eq_true_1 in Hr.
  assert (Hsym : elementwise_product mul second first
                 = elementwise_product mul first second).
  { unfold elementwise_product. rewrite Hr. f_equal. by apply zip_with_comm. }
  pose proof (mult_spec first second He1 He2 Hw1 Hw2 Hr) as Hm.
  pose proof (mult_to_spec first second He1 He2 Hw1 Hw2 Hr) as Hl.
  pose proof (mult_to_spec second first He2 He1 Hw2 Hw1 (eq_sym Hr)) as Hrt.
  rewrite Hsym in Hrt.
  split; [|by rewrite Hm, Hl, Hrt].
  intros [] []; unfold call, eval; simpl;
    rewrite ?Hm, ?Hl, ?Hrt; reflexivity.
Qed.

(** C4. A [ZeroTensor] argument is an invalid argument of the operation: with or
    without a permutation, every overload that takes one runs into
    [TA_ASSERT(false)]; only a build without assertion checking gets past it, and
    then receives a default-constructed, empty tile. *)
Theorem mult_zero_tensor_invalid (LC RC : bool) (t : Tensor T) (perm : Permutation)
    (args : arguments) :
  args = ZeroTile t \/ args = TileZero t ->
  let outcome :=
    if ta_assert_enabled cfg then Fail AssertFailed
    else Ok {| returned := EmptyTensor; arguments_after := args |} in
  call mul cfg LC RC args = outcome /\
  call_perm cfg mult_perm args perm = outcome.
Proof.
  intros [-> | ->]; unfold call, call_perm, eval, eval_perm, TA_ASSERT;
    destruct (ta_assert_enabled cfg); split; reflexivity.
Qed.

End MultFacts.

(** ** Kernels: reductions *)

Section ReduceFacts.
Import Kernels.

Lemma tensor_reduce_noncontiguous_tot_identity {S T} cfg (join_op : S -> S -> S)
    (reduce_op_at_tensor : S -> Tensor T -> S) (identity : S)
    (tensor1 : TensorView (Tensor T)) (r : S) :
  tensor_reduce_noncontiguous_tot cfg join_op reduce_op_at_tensor identity tensor1
    = Ok r ->
  r = identity.
Proof.
  unfold tensor_reduce_noncontiguous_tot.
  destruct (TA_ASSERT cfg (negb (view_empty tensor1))); [|done].
  destruct (TA_ASSERT cfg true); [|done]. cbn [mbind result_bind].
  destruct (strided_reduce_loop _ _ _ _ _ _ _ _ _); [|done].
  cbn [mbind result_bind]. congruence.
Qed.

(** C10. On the tensor of tensors [[[1, 2], [3, 4]]], with sum as reduction and as
    join and identity [0], the overload for contiguous arguments returns [10], the
    join of the element-wise reductions, while the overload for non-contiguous
    tensors of tensors returns the unmodified identity [0]. *)
Theorem tensor_reduce_noncontiguous_tot_returns_identity :
  tensor_reduce_tot Fixtures.debug_build Z.add Z.add 0 contiguous_tot = Ok 10 /\
  tensor_reduce_noncontiguous_tot Fixtures.debug_build Z.add add_tensor 0 strided_tot
  = Ok 0.
Proof. split; reflexivity. Qed.

End ReduceFacts.

(** ** Process maps *)

Section PmapFacts.
Import Pmap.

Lemma replicated_constructor_loop cfg rank size remaining i local :
  (i + remaining = size)%nat ->
  ReplicatedPmap.constructor_loop cfg rank size remaining i local
  = Ok (local ++ seq i remaining).
Proof.
  revert i local; induction remaining as [|n IH]; intros i local Hsz; simpl.
  - by rewrite app_nil_r.
  - unfold ReplicatedPmap.owner, TA_ASSERT.
    destruct (ta_assert_enabled cfg); cbn [mbind result_bind].
    + replace (i <? size)%nat with true by (symmetry; apply Nat.ltb_lt; lia).
      cbn [c_assert mbind result_bind]. rewrite Nat.eqb_refl.
      cbn [c_assert mbind result_bind].
      rewrite IH by lia. by rewrite <- app_assoc.
    + rewrite IH by lia. by rewrite <- app_assoc.
Qed.

Lemma replicated_make cfg world size :
  ReplicatedPmap.make cfg world size
  = Ok {| rank_ := world_rank world; procs_ := world_size world; size_ := size;
          local_ := seq 0 size;
          owner := ReplicatedPmap.owner cfg (world_rank world) size;
          is_local := ReplicatedPmap.is_local cfg size;
          is_replicated := true |}.
Proof.
  unfold ReplicatedPmap.make.
  rewrite replicated_constructor_loop by lia. reflexivity.
Qed.

Lemma replicated_owner_in_range cfg rank size i :
  (i < size)%nat -> ReplicatedPmap.owner cfg rank size i = Ok rank.
Proof.
  intros Hi. unfold ReplicatedPmap.owner, TA_ASSERT.
  replace (i <? size)%nat with true by (symmetry; apply Nat.ltb_lt; lia).
  by destruct (ta_assert_enabled cfg).
Qed.

Lemma replicated_is_local_in_range cfg size i :
  (i < size)%nat -> ReplicatedPmap.is_local cfg size i = Ok true.
Proof.
  intros Hi. unfold ReplicatedPmap.is_local, TA_ASSERT.
  replace (i <? size)%nat with true by (symmetry; apply Nat.ltb_lt; lia).
  by destruct (ta_assert_enabled cfg).
Qed.

Lemma blocked_owner_below_procs procs size i :
  (0 < procs)%nat -> (i < size)%nat -> (BlockedPmap.owner procs size i < procs)%nat.
Proof.
  intros Hp Hi. unfold BlockedPmap.owner, BlockedPmap.block_size.
  set (b := ((size + procs - 1) / procs)%nat).
  pose proof (Nat.div_mod_eq (size + procs - 1) procs) as Hdm.
  pose proof (Nat.mod_upper_bound (size + procs - 1) procs ltac:(lia)) as Hmod.
  fold b in Hdm.
  assert (Hb : (size <= procs * b)%nat) by lia.
  apply Nat.Div0.div_lt_upper_bound. nia.
Qed.

(** The blocked map, which [init] installs by default, honours the contract. *)
Lemma blocked_pmap_contract world size :
  (0 < world_size world)%nat -> pmap_contract (BlockedPmap.make world size).
Proof.
  intros Hp i Hi. cbn in Hi. split.
  - eexists. split; [reflexivity|]. split; [|reflexivity].
    by apply blocked_owner_below_procs.
  - intros Hrep. discriminate Hrep.
Qed.

(** The replicated map honours the contract as well. *)
Lemma replicated_pmap_contract cfg world size p :
  (world_rank world < world_size world)%nat ->
  ReplicatedPmap.make cfg world size = Ok p -> pmap_contract p.
Proof.
  intros Hr. rewrite replicated_make. intros [= <-] i Hi. cbn in Hi. cbn.
  rewrite replicated_owner_in_range, replicated_is_local_in_range by done.
  split; [|done]. eexists. split; [reflexivity|]. split; [done|].
  by rewrite bool_decide_eq_true_2.
Qed.

(** C7. In a replicated process map, [owner i] of a tile [i < size] is the local
    rank of the instance: it is a function of the rank and of [i] alone, every
    rank finds the tile local, and two instances built with the same size over the
    same number of processes return the same owner exactly when their ranks are
    equal. *)
Theorem replicated_owner_is_local_rank cfg (w1 w2 : World) (size i : nat) :
  world_size w1 = world_size w2 ->
  (i < size)%nat ->
  exists p1 p2,
    ReplicatedPmap.make cfg w1 size = Ok p1 /\
    ReplicatedPmap.make cfg w2 size = Ok p2 /\
    procs_ p1 = procs_ p2 /\
    owner p1 i = Ok (world_rank w1) /\
    owner p2 i = Ok (world_rank w2) /\
    is_local p1 i = Ok true /\
    is_local p2 i = Ok true /\
    (owner p1 i = owner p2 i <-> world_rank w1 = world_rank w2).
Proof.
  intros Hprocs Hi. eexists _, _.
  split; [apply replicated_make|]. split; [apply replicated_make|].
  split; [exact Hprocs|].
  cbn [owner is_local].
  rewrite !replicated_owner_in_range, !replicated_is_local_in_range by done.
  repeat split; congruence.
Qed.

(** C7, counterexample.  Over two processes, the replicated maps of size [1] of
    rank [0] and of rank [1] disagree on the owner of tile [0]. *)
Lemma replicated_owner_differs_across_ranks :
  let cfg := Fixtures.debug_build in
  exists p0 p1,
    ReplicatedPmap.make cfg {| world_rank := 0; world_size := 2 |} 1 = Ok p0 /\
    ReplicatedPmap.make cfg {| world_rank := 1; world_size := 2 |} 1 = Ok p1 /\
    procs_ p0 = procs_ p1 /\ size_ p0 = size_ p1 /\
    owner p0 0%nat = Ok 0%nat /\ owner p1 0%nat = Ok 1%nat /\
    owner p0 0%nat <> owner p1 0%nat.
Proof.
  eexists _, _. split; [reflexivity|]. split; [reflexivity|].
  repeat split; try reflexivity. discriminate.
Qed.

End PmapFacts.

(** ** DistArray *)

Section DistArrayFacts.
Import Pmap DistArray.

(** C3. On a default-constructed array, every operation that starts with
    [check_pimpl] (directly, or through [check_index], [init_tiles], [world],
    [size] and the like) raises the fatal user error; [is_initialized] answers
    [false] and the call operator builds a tensor expression, both without an
    error. *)
Theorem uninitialized_array_operations (cfg : BuildConfig) (i : nat)
    (v : value_type) (vars : string) (id : uniqueidT)
    (received : gmap nat value_type) (op : Kernels.Range -> value_type)
    (value : Z) (skip_set : bool) :
  let a := default_constructor in
  begin a = uninitialized_error /\
  end_ a = uninitialized_error /\
  find a i = uninitialized_error /\
  set cfg a i v = uninitialized_error /\
  init_tiles cfg op skip_set a = uninitialized_error /\
  fill_local cfg value skip_set a = uninitialized_error /\
  fill cfg value skip_set a = uninitialized_error /\
  trange a = uninitialized_error /\
  range a = uninitialized_error /\
  elements_range a = uninitialized_error /\
  size a = uninitialized_error /\
  world a = uninitialized_error /\
  pmap a = uninitialized_error /\
  is_dense a = uninitialized_error /\
  owner a i = uninitialized_error /\
  is_local a i = uninitialized_error /\
  is_zero a i = uninitialized_error /\
  make_replicated cfg id received a = uninitialized_error /\
  is_initialized a = false /\
  call cfg a vars = Ok {| expr_array := a; expr_vars := vars |}.
Proof.
  cbn zeta. repeat split; try reflexivity.
  unfold call. by destruct (NDEBUG cfg).
Qed.

(** C3, counterexample.  On a default-constructed array, [is_initialized] and the
    call operator return normally. *)
Lemma uninitialized_array_call_returns :
  is_initialized default_constructor = false /\
  call Fixtures.debug_build default_constructor "i,j"
  = Ok {| expr_array := default_constructor; expr_vars := "i,j" |}.
Proof. split; reflexivity. Qed.

(** The accessors that do not call [check_pimpl] dereference the empty pointer. *)
Remark uninitialized_array_unchecked_accessors :
  shape default_constructor = Fail NullDereference /\
  id default_constructor = Fail NullDereference.
Proof. split; reflexivity. Qed.

Lemma check_index_in_range impl i :
  (i < impl_size impl)%nat -> check_index (Some impl) i = Ok tt.
Proof.
  intros Hi. unfold check_index, check_pimpl, TA_USER_ASSERT, impl_range_includes.
  rewrite bool_decide_eq_true_2 by (by eexists). cbn [mbind result_bind deref].
  replace (i <? _)%nat with true by (symmetry; apply Nat.ltb_lt; exact Hi). done.
Qed.

(** The constructor establishes the invariant, for the default process map and for
    every process map that honours the contract. *)
Lemma init_establishes_invariant world trange shape pmap id impl :
  (world_rank world < world_size world)%nat ->
  (forall p, pmap = Some p -> pmap_contract p) ->
  init world trange shape pmap id = Ok impl ->
  impl_invariant impl.
Proof.
  intros Hr Hp. unfold init, TA_USER_ASSERT.
  destruct pmap as [p|].
  - destruct (size_ p =? tiles_volume trange)%nat eqn:H1; [|done].
    destruct (rank_ p =? world_rank world)%nat eqn:H2; [|done].
    destruct (procs_ p =? world_size world)%nat eqn:H3; [|done].
    cbn [mbind result_bind].
    destruct (shape_empty shape) eqn:H4; [done|].
    destruct (shape_validate shape trange) eqn:H5; [|done].
    cbn [negb mbind result_bind]. intros [= <-].
    apply Nat.eqb_eq in H1, H2, H3.
    unfold impl_invariant; cbn. repeat split; try done. all: by apply Hp.
  - cbn [mbind result_bind].
    destruct (shape_empty shape) eqn:H4; [done|].
    destruct (shape_validate shape trange) eqn:H5; [|done].
    cbn [negb mbind result_bind]. intros [= <-].
    unfold impl_invariant; cbn. repeat split; try done.
    all: apply blocked_pmap_contract; [lia|done].
Qed.

(** C6. For an initialised array whose implementation satisfies the invariant of
    [init] and whose process map honours the contract of process maps,
    [make_replicated] returns, the array keeps its size, and afterwards [is_local i]
    is true for every tile [i < size], on whichever rank the call is made and
    whether or not the array was replicated before. *)
Theorem make_replicated_all_local (cfg : BuildConfig) (id : uniqueidT)
    (received : gmap nat value_type) (impl : impl_type) :
  impl_invariant impl ->
  exists a',
    make_replicated cfg id received (Some impl) = Ok a' /\
    size a' = Ok (impl_size impl) /\
    forall i, (i < impl_size impl)%nat -> is_local a' i = Ok true.
Proof.
  intros (Hsize & Hrank & Hprocs & Hempty & Hvalid & Hlt & Hcontract).
  assert (Hcp : check_pimpl (Some impl) = Ok tt).
  { unfold check_pimpl, TA_USER_ASSERT.
    by rewrite bool_decide_eq_true_2 by (by eexists). }
  unfold make_replicated, world, size, trange, shape.
  rewrite !Hcp. cbn [mbind result_bind deref].
  destruct (is_replicated (impl_pmap impl)) eqn:Hrep; cbn [negb andb].
  - exists (Some impl). split; [done|]. split; [done|].
    intros i Hi. unfold is_local. rewrite check_index_in_range by done.
    cbn [mbind result_bind deref]. unfold impl_is_local.
    apply Hcontract; [|done]. unfold impl_size in Hi. lia.
  - destruct (1 <? world_size (impl_world impl))%nat eqn:Hws.
    + rewrite replicated_make. cbn [mbind result_bind].
      unfold init, TA_USER_ASSERT. cbn [size_ rank_ procs_].
      unfold impl_size. rewrite !Nat.eqb_refl, Hempty, Hvalid.
      cbn [negb mbind result_bind]. rewrite TA_ASSERT_true.
      cbn [mbind result_bind]. eexists. split; [reflexivity|].
      split; [reflexivity|].
      intros i Hi. unfold is_local, assign. rewrite check_index_in_range by done.
      cbn [mbind result_bind deref]. unfold impl_is_local, Replicator.
      cbn [impl_pmap Pmap.is_local].
      by apply replicated_is_local_in_range.
    + apply Nat.ltb_ge in Hws.
      exists (Some impl). split; [done|]. split; [done|].
      intros i Hi. unfold is_local. rewrite check_index_in_range by done.
      cbn [mbind result_bind deref]. unfold impl_is_local.
      unfold impl_size in Hi.
      destruct (Hcontract i ltac:(lia)) as [(o & Ho & Hop & Hl) _].
      rewrite Hl. f_equal. apply bool_decide_eq_true_2. lia.
Qed.

Lemma count_commas_bounds vars :
  0 <= count_commas vars <= Z.of_nat (String.length vars).
Proof.
  induction vars as [|c rest IH]; simpl count_commas;
    cbn [String.length]; [lia|].
  destruct (Ascii.eqb c comma); lia.
Qed.

(** C9. For an initialised array and an index string of fewer than [2^32 - 1]
    characters: in a build without [NDEBUG], the call raises the exception when the
    number of labels (one plus the number of commas) differs from the rank of the
    array, and returns the tensor expression when they are equal; in a build with
    [NDEBUG] the labels are not counted and the tensor expression is returned. *)
Theorem call_checks_label_count (cfg : BuildConfig) (impl : impl_type)
    (vars : string) :
  Z.of_nat (String.length vars) < 2 ^ 32 - 1 ->
  let labels := 1 + count_commas vars in
  let rank := Z.of_nat (tiles_rank (impl_trange impl)) in
  let expr := {| expr_array := Some impl; expr_vars := vars |} in
  (NDEBUG cfg = false ->
     (labels <> rank ->
        call cfg (Some impl) vars = Fail (Exception label_mismatch_message)) /\
     (labels = rank -> call cfg (Some impl) vars = Ok expr)) /\
  (NDEBUG cfg = true -> call cfg (Some impl) vars = Ok expr).
Proof.
  intros Hlen labels rank expr.
  pose proof (count_commas_bounds vars) as Hc.
  assert (Hn : to_unsigned_int (1 + count_commas vars) = labels).
  { unfold to_unsigned_int. apply Z.mod_small. lia. }
  unfold call. rewrite Hn. fold rank. split.
  - intros ->. split; intros Hl.
    + replace (labels =? rank) with false by (symmetry; apply Z.eqb_neq; done).
      reflexivity.
    + replace (labels =? rank) with true by (symmetry; apply Z.eqb_eq; done).
      reflexivity.
  - intros ->. reflexivity.
Qed.

End DistArrayFacts.

(** ** The lazy deleter *)

Section LazyDeleterFacts.
Import Pmap DistArray LazyDeleter.

(** C2. Let the runtime be initialised and [pimpl] point to an allocated
    implementation.  If [lazy_sync] throws, whatever the exception, the deleter
    returns normally, writes one message that carries the rank of the process (and
    the text of the exception when it has one), leaves the cleanup counter at the
    value it had before the call (it was incremented, then decremented), and
    deletes the implementation, once.  If [lazy_sync] registers the callback, the
    counter is one higher until the callback runs; the callback deletes the
    implementation and decrements the counter. *)
Theorem lazy_deleter_absorbs_exceptions (st : State) (pimpl : pointer)
    (impl : impl_type) :
  madness_initialized st = true ->
  heap st !! pimpl = Some impl ->
  (forall e : exception,
     exists st' line,
       lazy_deleter (Throws e) (Some pimpl) st = (Returned tt, st') /\
       stderr st' = stderr st ++ [line] /\
       line_rank line = world_rank (impl_world impl) /\
       line_what line = what_of e /\
       cleanup_counter_ st' = cleanup_counter_ st /\
       heap st' = delete pimpl (heap st) /\
       deleted st' = deleted st ++ [pimpl] /\
       lazy_sync_registry st' = lazy_sync_registry st) /\
  (exists st1 st2,
     lazy_deleter Registers (Some pimpl) st = (Returned tt, st1) /\
     cleanup_counter_ st1 = cleanup_counter_ st + 1 /\
     deleted st1 = deleted st /\
     lazy_sync_registry st1
       = lazy_sync_registry st ++ [(impl_id impl, DeleteAndDecrement pimpl)] /\
     run_callback (DeleteAndDecrement pimpl) st1 = (Returned tt, st2) /\
     cleanup_counter_ st2 = cleanup_counter_ st /\
     heap st2 = delete pimpl (heap st) /\
     deleted st2 = deleted st ++ [pimpl]).
Proof.
  intros Hinit Hheap. split.
  - intros e. destruct e; eexists _, _;
      unfold lazy_deleter, mbind, M_bind, initialized, read;
      rewrite Hinit, Hheap;
      unfold try_catch, lazy_sync, throw, add_to_cleanup_counter;
      unfold fprintf_stderr, delete_, mbind, M_bind;
      cbn [heap]; rewrite Hheap;
      (split; [reflexivity|]);
      cbn [stderr cleanup_counter_ heap deleted lazy_sync_registry line_rank
           line_what what_of];
      (repeat split; try reflexivity; lia).
  - eexists _, _. split.
    { unfold lazy_deleter, mbind, M_bind, initialized, read.
      rewrite Hinit, Hheap. reflexivity. }
    unfold run_callback, delete_, add_to_cleanup_counter, mbind, M_bind.
    cbn [stderr cleanup_counter_ heap deleted lazy_sync_registry].
    rewrite Hheap.
    cbn [stderr cleanup_counter_ heap deleted lazy_sync_registry].
    repeat split; try reflexivity;
      cbn [stderr cleanup_counter_ heap deleted lazy_sync_registry]; lia.
Qed.

End LazyDeleterFacts.

(** ** Sparse shape: the norm bound of a contraction *)

Section SparseShapeFacts.
Import SparseShape.
Local Open Scope Q_scope.

Lemma sumQ_ext n f g :
  (forall i, (i < n)%nat -> f i == g i) -> sumQ n f == sumQ n g.
Proof.
  induction n as [|n IH]; intros H; simpl; [reflexivity|].
  rewrite IH by (intros; apply H; lia). rewrite (H n) by lia. reflexivity.
Qed.

Lemma sumQ_le n f g :
  (forall i, (i < n)%nat -> f i <= g i) -> sumQ n f <= sumQ n g.
Proof.
  induction n as [|n IH]; intros H; simpl; [lra|].
  specialize (IH ltac:(intros; apply H; lia)). specialize (H n ltac:(lia)). lra.
Qed.

Lemma sumQ_nonneg n f :
  (forall i, (i < n)%nat -> 0 <= f i) -> 0 <= sumQ n f.
Proof.
  induction n as [|n IH]; intros H; simpl; [lra|].
  specialize (IH ltac:(intros; apply H; lia)). specialize (H n ltac:(lia)). lra.
Qed.

Lemma sumQ_plus n f g :
  sumQ n (fun i => f i + g i) == sumQ n f + sumQ n g.
Proof. induction n as [|n IH]; simpl; [lra|]. rewrite IH. lra. Qed.

Lemma sumQ_scale n c f :
  sumQ n (fun i => c * f i) == c * sumQ n f.
Proof. induction n as [|n IH]; simpl; [lra|]. rewrite IH. lra. Qed.

Lemma sumQ_scale_r n c f :
  sumQ n (fun i => f i * c) == sumQ n f * c.
Proof. induction n as [|n IH]; simpl; [lra|]. rewrite IH. lra. Qed.

Lemma sumQ_swap m n (f : nat -> nat -> Q) :
  sumQ m (fun p => sumQ n (fun q => f p q))
  == sumQ n (fun q => sumQ m (fun p => f p q)).
Proof.
  induction m as [|m IH]; simpl.
  - induction n as [|n IHn]; simpl; [reflexivity|]. rewrite <- IHn. lra.
  - rewrite IH, <- sumQ_plus. reflexivity.
Qed.

Lemma discriminant (a b s : Q) :
  (forall x y, 0 <= x * x * a + 2 * x * y * s + y * y * b) -> s * s <= a * b.
Proof.
  intros H.
  pose proof (H 1 0) as Ha. pose proof (H 0 1) as Hb.
  destruct (Qlt_le_dec 0 b) as [Hpos|Hle].
  - pose proof (H b (- s)) as Hq. nra.
  - destruct (Qeq_dec s 0) as [Hs|Hs].
    + rewrite Hs. nra.
    + exfalso. pose (y := - (a + 1) / (2 * s)).
      assert (Hy : 2 * y * s == - (a + 1)) by (unfold y; field; exact Hs).
      pose proof (H 1 y) as Hq. nra.
Qed.

Lemma quadratic_single n (u v : nat -> Q) x y :
  x * x * sumQ n (fun i => u i * u i) + 2 * x * y * sumQ n (fun i => u i * v i)
    + y * y * sumQ n (fun i => v i * v i)
  == sumQ n (fun i => (x * u i + y * v i) * (x * u i + y * v i)).
Proof. induction n as [|n IH]; simpl; [ring|]. rewrite <- IH. ring. Qed.

Lemma quadratic_double m n (X Y : matrix) x y :
  x * x * squared_norm m n X + 2 * x * y * inner_product m n X Y
    + y * y * squared_norm m n Y
  == sumQ m (fun p => sumQ n (fun q =>
       (x * X p q + y * Y p q) * (x * X p q + y * Y p q))).
Proof.
  unfold squared_norm, inner_product.
  induction m as [|m IH]; simpl; [ring|].
  rewrite <- IH, <- (quadratic_single n (X m) (Y m) x y). ring.
Qed.

Lemma square_nonneg (z : Q) : 0 <= z * z.
Proof. nra. Qed.

Lemma cauchy_schwarz_single n (u v : nat -> Q) :
  sumQ n (fun i => u i * v i) * sumQ n (fun i => u i * v i)
  <= sumQ n (fun i => u i * u i) * sumQ n (fun i => v i * v i).
Proof.
  apply discriminant. intros x y. rewrite quadratic_single.
  apply sumQ_nonneg. intros; apply square_nonneg.
Qed.

Lemma cauchy_schwarz_double m n (X Y : matrix) :
  inner_product m n X Y * inner_product m n X Y
  <= squared_norm m n X * squared_norm m n Y.
Proof.
  apply discriminant. intros x y. rewrite quadratic_double.
  apply sumQ_nonneg. intros. apply sumQ_nonneg. intros; apply square_nonneg.
Qed.

Lemma squared_norm_nonneg m n X : 0 <= squared_norm m n X.
Proof.
  apply sumQ_nonneg. intros. apply sumQ_nonneg. intros; apply square_nonneg.
Qed.

Lemma squared_norm_ext m n (X Y : matrix) :
  (forall p q, X p q == Y p q) -> squared_norm m n X == squared_norm m n Y.
Proof.
  intros H. unfold squared_norm.
  apply sumQ_ext; intros p _. apply sumQ_ext; intros q _. by rewrite H.
Qed.

Lemma squared_norm_zero m n : squared_norm m n (fun _ _ => 0) == 0.
Proof.
  unfold squared_norm. induction m as [|m IH]; simpl; [reflexivity|].
  rewrite IH. assert (H : sumQ n (fun _ => 0 * 0) == 0).
  { clear. induction n as [|n IH]; simpl; [reflexivity|]. rewrite IH. ring. }
  rewrite H. ring.
Qed.

Lemma squared_norm_scale m n c (X : matrix) :
  squared_norm m n (fun p q => c * X p q) == c * c * squared_norm m n X.
Proof.
  unfold squared_norm. rewrite <- sumQ_scale.
  apply sumQ_ext; intros p _. rewrite <- sumQ_scale.
  apply sumQ_ext; intros q _. ring.
Qed.

Lemma le_of_squares (z c : Q) : 0 <= c -> z * z <= c * c -> z <= c.
Proof. intros Hc Hz. destruct (Qlt_le_dec c z) as [Hlt|Hle]; [nra|exact Hle]. Qed.

(** The triangle inequality, on squares. *)
Lemma squared_norm_plus m n (X Y : matrix) a b :
  0 <= a -> 0 <= b ->
  squared_norm m n X <= a * a -> squared_norm m n Y <= b * b ->
  squared_norm m n (fun p q => X p q + Y p q) <= (a + b) * (a + b).
Proof.
  intros Ha Hb HX HY.
  assert (Hexp : squared_norm m n (fun p q => X p q + Y p q)
                 == squared_norm m n X + 2 * inner_product m n X Y
                    + squared_norm m n Y).
  { pose proof (quadratic_double m n X Y 1 1) as Hq.
    transitivity (sumQ m (fun p => sumQ n (fun q =>
       (1 * X p q + 1 * Y p q) * (1 * X p q + 1 * Y p q)))).
    - unfold squared_norm. apply sumQ_ext; intros p _.
      apply sumQ_ext; intros q _. ring.
    - rewrite <- Hq. ring. }
  pose proof (cauchy_schwarz_double m n X Y) as Hcs.
  pose proof (squared_norm_nonneg m n X) as HX0.
  pose proof (squared_norm_nonneg m n Y) as HY0.
  assert (Hdot : inner_product m n X Y <= a * b).
  { apply le_of_squares; [nra|].
    eapply Qle_trans; [exact Hcs|]. nra. }
  rewrite Hexp. nra.
Qed.

(** The Frobenius norm is submultiplicative, on squares. *)
Lemma squared_norm_product m l n (X Y : matrix) :
  squared_norm m n (fun p q => sumQ l (fun k => X p k * Y k q))
  <= squared_norm m l X * squared_norm l n Y.
Proof.
  unfold squared_norm.
  eapply Qle_trans.
  { apply sumQ_le; intros p _. apply sumQ_le; intros q _.
    apply (cauchy_schwarz_single l (X p) (fun k => Y k q)). }
  assert (Hswap : sumQ l (fun p => sumQ n (fun q => Y p q * Y p q))
                  == sumQ n (fun q => sumQ l (fun k => Y k q * Y k q))).
  { apply (sumQ_swap l n (fun p q => Y p q * Y p q)). }
  rewrite Hswap, <- sumQ_scale_r.
  apply Qle_lteq; right.
  apply sumQ_ext; intros p _. by rewrite sumQ_scale.
Qed.

(** The sum over the first [K] tiles of the contracted mode, before scaling. *)
Lemma partial_contraction_bound (t : Tiling) (left right : SparseShape)
    (A B : nat -> nat -> matrix) (i j K : nat) :
  norms_cover left (row_extent t) (inner_extent t) A ->
  norms_cover right (inner_extent t) (col_extent t) B ->
  (i < tile_rows left)%nat -> (j < tile_cols right)%nat ->
  (K <= tile_cols left)%nat -> (K <= tile_rows right)%nat ->
  let bound := sumQ K (fun k => tile_norms left i k * tile_norms right k j) in
  0 <= bound /\
  squared_norm (row_extent t i) (col_extent t j)
    (fun p q => sumQ K (fun k =>
       sumQ (inner_extent t k) (fun l => A i k p l * B k j l q)))
  <= bound * bound.
Proof.
  intros HA HB Hi Hj. induction K as [|K IH]; intros HKl HKr; cbn zeta.
  - simpl. split; [lra|]. rewrite squared_norm_zero. lra.
  - destruct (IH ltac:(lia) ltac:(lia)) as [Hb0 Hsq]. cbn zeta in *.
    destruct (HA i K Hi ltac:(lia)) as [HnA HsA].
    destruct (HB K j ltac:(lia) Hj) as [HnB HsB].
    simpl sumQ. split; [nra|].
    apply squared_norm_plus; [exact Hb0|nra|exact Hsq|].
    eapply Qle_trans; [apply squared_norm_product|].
    pose proof (squared_norm_nonneg (row_extent t i) (inner_extent t K) (A i K)).
    pose proof (squared_norm_nonneg (inner_extent t K) (col_extent t j) (B K j)).
    nra.
Qed.

Lemma Qabs_square (a : Q) : Qabs a * Qabs a == a * a.
Proof. apply Qabs_case; intros; ring. Qed.

(** C1. Let the tiles of two arrays agree with the norms of their sparse shapes.
    For the shape that [gemm] predicts for their contraction with factor [alpha],
    the norm of every output tile is at least the Frobenius norm of that tile of
    the exact contraction (both are non-negative and the inequality is stated on
    their squares); hence a tile that is declared zero has a Frobenius norm below
    [threshold * scale], and a tile whose bound equals [threshold * scale] is not
    declared zero. *)
Theorem gemm_norm_bound_safe (t : Tiling) (left right out : SparseShape)
    (alpha : Q) (A B : nat -> nat -> matrix) (i j : nat) :
  gemm left right alpha = Ok out ->
  norms_cover left (row_extent t) (inner_extent t) A ->
  norms_cover right (inner_extent t) (col_extent t) B ->
  (i < tile_rows out)%nat -> (j < tile_cols out)%nat ->
  let C := contraction t (tile_cols left) alpha A B i j in
  let actual := squared_norm (row_extent t i) (col_extent t j) C in
  let cutoff := threshold out * scale out in
  0 <= tile_norms out i j /\
  actual <= tile_norms out i j * tile_norms out i j /\
  (is_zero out i j = true -> actual < cutoff * cutoff) /\
  (tile_norms out i j == cutoff -> is_zero out i j = false).
Proof.
  unfold gemm. destruct (tile_cols left =? tile_rows right)%nat eqn:Hdim; [|done].
  apply Nat.eqb_eq in Hdim. cbn [c_assert mbind result_bind].
  intros [= <-] HA HB Hi Hj. cbn [tile_rows tile_cols] in Hi, Hj.
  cbn [tile_norms threshold scale]. cbn zeta.
  destruct (partial_contraction_bound t left right A B i j (tile_cols left)
              HA HB Hi Hj ltac:(lia) ltac:(lia)) as [Hb0 Hsq].
  cbn zeta in Hb0, Hsq.
  set (bound := sumQ (tile_cols left)
                  (fun k => tile_norms left i k * tile_norms right k j)) in *.
  pose proof (Qabs_nonneg alpha) as Habs.
  pose proof (Qabs_square alpha) as Habs2.
  assert (Hact : squared_norm (row_extent t i) (col_extent t j)
                   (contraction t (tile_cols left) alpha A B i j)
                 <= Qabs alpha * bound * (Qabs alpha * bound)).
  { unfold contraction. rewrite squared_norm_scale.
    pose proof (square_nonneg alpha).
    assert (Heq : Qabs alpha * bound * (Qabs alpha * bound)
                  == alpha * alpha * (bound * bound))
      by (rewrite <- Habs2; ring).
    rewrite Heq. nra. }
  assert (Hn0 : 0 <= Qabs alpha * bound) by nra.
  split; [exact Hn0|]. split; [exact Hact|].
  unfold is_zero; cbn [tile_norms threshold scale]. split.
  - intros Hz. apply negb_true_iff in Hz.
    assert (Hlt : Qabs alpha * bound < threshold left * scale left).
    { destruct (Qlt_le_dec (Qabs alpha * bound) (threshold left * scale left))
        as [Hlt|Hle]; [exact Hlt|].
      apply Qle_bool_iff in Hle. fold bound in Hz. rewrite Hz in Hle.
      discriminate. }
    eapply Qle_lt_trans; [exact Hact|]. nra.
  - intros Heq. apply negb_false_iff, Qle_bool_iff.
    apply Qle_lteq; right. symmetry. exact Heq.
Qed.

(** C1, counterexample.  Two arrays of one tile with the single element [1/2], with
    norm [1/2], threshold [1/2] and scale [1]: neither input tile is zero, the
    exact contraction with factor [1] has the element [1/4], which is not zero, and
    the predicted shape declares the tile zero. *)
Lemma gemm_declares_nonzero_tile_zero :
  let s := Fixtures.half_shape (1 # 2) in
  let t := Fixtures.unit_tiling in
  let A := Fixtures.half_array in
  norms_cover s (row_extent t) (inner_extent t) A /\
  norms_cover s (inner_extent t) (col_extent t) A /\
  is_zero s 0 0 = false /\
  exists out,
    gemm s s 1 = Ok out /\
    ~ contraction t 1 1 A A 0 0 0%nat 0%nat == 0 /\
    is_zero out 0 0 = true.
Proof.
  cbn zeta. split; [|split; [|split; [reflexivity|]]].
  - intros i k _ _. cbn. split; [discriminate|]. unfold squared_norm. cbn.
    discriminate.
  - intros i k _ _. cbn. split; [discriminate|]. unfold squared_norm. cbn.
    discriminate.
  - eexists. split; [reflexivity|]. split; [|reflexivity].
    unfold contraction. cbn. discriminate.
Qed.

End SparseShapeFacts.

(** * The theorems at concrete inputs *)

Lemma box_5_3_wf : Shape.wf_orthotope Fixtures.box_5_3.
Proof.
  unfold Shape.wf_orthotope.
  split; [simpl; lia|]. split; [reflexivity|].
  split; [repeat constructor; lia|]. split; [vm_compute; discriminate|].
  split; repeat constructor; unfold Shape.is_int; lia.
Qed.

(** C8 at the box [[5, 7) x [3, 6)]: linear index 4 and coordinate (6, 4). *)
Lemma shape_ord_coord_inverse_witness :
  let s := Shape.make Fixtures.box_5_3 (fun _ => true) in
  Shape.wf_orthotope Fixtures.box_5_3 /\
  Shape.nelements Fixtures.box_5_3 < 2 ^ 31 /\
  Shape.coord s 4 ≫= Shape.ord s = Ok 4 /\
  Shape.ord s [6; 4] ≫= Shape.coord s = Ok [6; 4].
Proof.
  cbn zeta.
  assert (H31 : Shape.nelements Fixtures.box_5_3 < 2 ^ 31) by reflexivity.
  split; [exact box_5_3_wf|]. split; [exact H31|].
  destruct (shape_ord_coord_inverse Fixtures.box_5_3 (fun _ => true) box_5_3_wf H31)
    as (_ & Hk & Hc).
  split; [apply Hk; vm_compute; split; [discriminate|reflexivity]
         |apply Hc; reflexivity].
Defined.

(** C8, counterexample.  The box [[0, 2) x [0, 65536) x [0, 65536)] has bounds
    that are values of type [int] and [2^33] elements.  Its most significant
    step, [65536 * 65536], wraps around to [0]: the coordinate [(1, 0, 0)] gets
    the ordinal [0] of [(0, 0, 0)], so that [coord (ord c)] is not [c] there, and
    [coord 1] divides by zero, so that [ord (coord 1)] is not [1]. *)
Lemma ord_coord_not_inverse_beyond_int :
  let o := Fixtures.box_2_65536_65536 in
  let s := Shape.make o (fun _ => true) in
  Shape.wf_orthotope o /\
  Shape.ortho_includes o [1; 0; 0] = true /\
  Shape.ord s [1; 0; 0] ≫= Shape.coord s = Ok [0; 0; 0] /\
  Shape.ord s [1; 0; 0] ≫= Shape.coord s <> Ok [1; 0; 0] /\
  0 <= 1 < Shape.nelements o /\
  Shape.coord s 1 ≫= Shape.ord s = Fail DivisionByZero /\
  Shape.coord s 1 ≫= Shape.ord s <> Ok 1.
Proof.
  cbn zeta. split.
  { unfold Shape.wf_orthotope.
    split; [simpl; lia|]. split; [reflexivity|].
    split; [repeat constructor; lia|]. split; [vm_compute; discriminate|].
    split; repeat constructor; unfold Shape.is_int; lia. }
  split; [reflexivity|].
  assert (Hord : Shape.ord (Shape.make Fixtures.box_2_65536_65536 (fun _ => true))
                   [1; 0; 0]
                 ≫= Shape.coord (Shape.make Fixtures.box_2_65536_65536 (fun _ => true))
                 = Ok [0; 0; 0]) by reflexivity.
  assert (Hcoord : Shape.coord (Shape.make Fixtures.box_2_65536_65536 (fun _ => true)) 1
                   ≫= Shape.ord (Shape.make Fixtures.box_2_65536_65536 (fun _ => true))
                   = Fail DivisionByZero) by reflexivity.
  split; [exact Hord|]. split; [rewrite Hord; discriminate|].
  split; [vm_compute; split; [discriminate|reflexivity]|].
  split; [exact Hcoord|]. rewrite Hcoord. discriminate.
Qed.

(** C5 at the tiles [[1, 2, 3]] and [[4, 5, 6]]. *)
Lemma mult_consumability_agree_witness :
  let first := Fixtures.tile_123 in
  let second := Fixtures.tile_456 in
  let cfg := Fixtures.debug_build in
  Kernels.is_range_set_congruent first second = true /\
  (forall LC RC,
     Mult.returned <$> Mult.call Z.mul cfg LC RC (Mult.TileTile first second)
     = Ok (Mult.elementwise_product Z.mul first second)) /\
  Mult.mult_to Z.mul cfg first second = Mult.mult Z.mul cfg first second /\
  Mult.mult_to Z.mul cfg second first = Mult.mult Z.mul cfg first second.
Proof.
  cbn zeta. split; [reflexivity|].
  apply (mult_consumability_agree Z.mul Fixtures.debug_build
           Fixtures.tile_123 Fixtures.tile_456);
    [intros; lia | reflexivity | reflexivity | reflexivity | reflexivity
    | reflexivity].
Defined.

(** C4 at a [ZeroTensor] on the left of the tile [[1, 2, 3]], in a build with
    assertion checking. *)
Lemma mult_zero_tensor_invalid_witness :
  let args := Mult.ZeroTile Fixtures.tile_123 in
  Mult.call Z.mul Fixtures.debug_build true false args = Fail AssertFailed /\
  Mult.call_perm Fixtures.debug_build Fixtures.no_mult_perm args [0%nat]
  = Fail AssertFailed.
Proof.
  cbn zeta.
  exact (mult_zero_tensor_invalid Z.mul Fixtures.debug_build Fixtures.no_mult_perm
           true false Fixtures.tile_123 [0%nat] (Mult.ZeroTile Fixtures.tile_123)
           (or_introl eq_refl)).
Defined.

(** C4, counterexample.  With assertion checking, the product of a [ZeroTensor] and
    the tile [[1, 2, 3]] ends in the failed assertion, with and without a
    permutation; no value is returned. *)
Lemma mult_zero_tensor_asserts :
  let args := Mult.ZeroTile Fixtures.tile_123 in
  Mult.call Z.mul Fixtures.debug_build false false args = Fail AssertFailed /\
  Mult.call_perm Fixtures.debug_build Fixtures.no_mult_perm args [0%nat]
  = Fail AssertFailed /\
  ~ (exists e, Mult.call Z.mul Fixtures.debug_build false false args = Ok e).
Proof.
  cbn zeta. split; [reflexivity|]. split; [reflexivity|].
  intros [e He]. discriminate He.
Qed.

(** C7 at tile 2 of replicated maps of size 3 on ranks 0 and 1 of 2. *)
Lemma replicated_owner_is_local_rank_witness :
  let w0 := {| Pmap.world_rank := 0; Pmap.world_size := 2 |} in
  exists p1 p2,
    ReplicatedPmap.make Fixtures.debug_build w0 3 = Ok p1 /\
    ReplicatedPmap.make Fixtures.debug_build Fixtures.rank1_of_2 3 = Ok p2 /\
    Pmap.procs_ p1 = Pmap.procs_ p2 /\
    Pmap.owner p1 2%nat = Ok 0%nat /\
    Pmap.owner p2 2%nat = Ok 1%nat /\
    Pmap.is_local p1 2%nat = Ok true /\
    Pmap.is_local p2 2%nat = Ok true /\
    (Pmap.owner p1 2%nat = Pmap.owner p2 2%nat <-> 0%nat = 1%nat).
Proof.
  cbn zeta.
  exact (replicated_owner_is_local_rank Fixtures.debug_build
           {| Pmap.world_rank := 0; Pmap.world_size := 2 |} Fixtures.rank1_of_2
           3 2 eq_refl ltac:(lia)).
Defined.

Lemma matrix_impl_invariant : DistArray.impl_invariant Fixtures.matrix_impl.
Proof.
  unfold DistArray.impl_invariant.
  do 5 (split; [reflexivity|]). split; [simpl; lia|].
  intros i Hi. split; [|intros Hrep; discriminate Hrep].
  destruct i as [|[|i]]; [| |simpl in Hi; lia]; eexists;
    (split; [reflexivity|]); (split; [vm_compute; lia|reflexivity]).
Qed.

(** C6 at a blocked matrix of two tiles, on rank 1 of 2. *)
Lemma make_replicated_all_local_witness :
  DistArray.impl_invariant Fixtures.matrix_impl /\
  exists a',
    DistArray.make_replicated Fixtures.debug_build 1%nat ∅
      (Some Fixtures.matrix_impl) = Ok a' /\
    DistArray.size a' = Ok 2%nat /\
    forall i, (i < 2)%nat -> DistArray.is_local a' i = Ok true.
Proof.
  split; [exact matrix_impl_invariant|].
  exact (make_replicated_all_local Fixtures.debug_build 1%nat ∅
           Fixtures.matrix_impl matrix_impl_invariant).
Defined.

(** C9 at the matrix and the index string ["i,j"]. *)
Lemma call_checks_label_count_witness :
  Z.of_nat (String.length "i,j") < 2 ^ 32 - 1 /\
  DistArray.call Fixtures.debug_build (Some Fixtures.matrix_impl) "i,j"
  = Ok {| DistArray.expr_array := Some Fixtures.matrix_impl;
          DistArray.expr_vars := "i,j" |}.
Proof.
  assert (Hlen : Z.of_nat (String.length "i,j") < 2 ^ 32 - 1) by reflexivity.
  split; [exact Hlen|].
  destruct (call_checks_label_count Fixtures.debug_build Fixtures.matrix_impl
              "i,j" Hlen) as [Hdebug _].
  destruct (Hdebug eq_refl) as [_ Hsame].
  apply Hsame. reflexivity.
Defined.

(** C9, counterexample.  In a build with [NDEBUG], the matrix accepts the index
    string ["i"], which has one label. *)
Lemma call_unchecked_with_NDEBUG :
  1 + DistArray.count_commas "i"
    <> Z.of_nat (DistArray.tiles_rank (DistArray.impl_trange Fixtures.matrix_impl)) /\
  DistArray.call Fixtures.release_build (Some Fixtures.matrix_impl) "i"
  = Ok {| DistArray.expr_array := Some Fixtures.matrix_impl;
          DistArray.expr_vars := "i" |}.
Proof. split; [discriminate|reflexivity]. Qed.

(** C2 at a process with one array, for an exception of the runtime. *)
Lemma lazy_deleter_absorbs_exceptions_witness :
  let st := Fixtures.one_array_state in
  LazyDeleter.madness_initialized st = true /\
  LazyDeleter.heap st !! 7%nat = Some Fixtures.matrix_impl /\
  exists st' line,
    LazyDeleter.lazy_deleter
      (LazyDeleter.Throws (LazyDeleter.MadnessException "lazy_sync failed"))
      (Some 7%nat) st = (LazyDeleter.Returned tt, st') /\
    LazyDeleter.stderr st' = [line] /\
    LazyDeleter.line_rank line = 1%nat /\
    LazyDeleter.cleanup_counter_ st' = 0 /\
    LazyDeleter.deleted st' = [7%nat].
Proof.
  cbn zeta.
  assert (Hheap : LazyDeleter.heap Fixtures.one_array_state !! 7%nat
                  = Some Fixtures.matrix_impl) by apply lookup_singleton_eq.
  split; [reflexivity|]. split; [exact Hheap|].
  destruct (lazy_deleter_absorbs_exceptions Fixtures.one_array_state 7%nat
              Fixtures.matrix_impl eq_refl Hheap) as [Hthrow _].
  destruct (Hthrow (LazyDeleter.MadnessException "lazy_sync failed"))
    as (st' & line & Hrun & Hlog & Hrank & _ & Hcount & _ & Hdel & _).
  exists st', line. repeat split; assumption.
Defined.

(** C1 at two arrays of one tile with the single element [1/2] and threshold
    [1/8]: the bound [1/4] covers the tile [1/4] of the exact contraction. *)
Lemma gemm_norm_bound_safe_witness :
  let s := Fixtures.half_shape (1 # 8) in
  let t := Fixtures.unit_tiling in
  let A := Fixtures.half_array in
  exists out,
    SparseShape.gemm s s 1 = Ok out /\
    SparseShape.norms_cover s (SparseShape.row_extent t) (SparseShape.inner_extent t) A /\
    (0 <= SparseShape.tile_norms out 0 0)%Q /\
    (SparseShape.squared_norm 1 1 (SparseShape.contraction t 1 1 A A 0 0)
     <= SparseShape.tile_norms out 0 0 * SparseShape.tile_norms out 0 0)%Q.
Proof.
  cbn zeta.
  assert (Hcover : SparseShape.norms_cover (Fixtures.half_shape (1 # 8))
                     (fun _ => 1%nat) (fun _ => 1%nat) Fixtures.half_array).
  { intros i k _ _. split; vm_compute; discriminate. }
  eexists. split; [reflexivity|]. split; [exact Hcover|].
  destruct (gemm_norm_bound_safe Fixtures.unit_tiling
              (Fixtures.half_shape (1 # 8)) (Fixtures.half_shape (1 # 8)) _ 1
              Fixtures.half_array Fixtures.half_array 0 0 eq_refl Hcover Hcover
              ltac:(simpl; lia) ltac:(simpl; lia)) as (H0 & Hact & _).
  split; [exact H0|exact Hact].
Defined.

(** * The definitions on small inputs *)

(** The linear steps of the box [[5, 7) x [3, 6)] are [(3, 1)]. *)
Example init_linear_step_example :
  Shape.init_linear_step_ Fixtures.box_5_3 = [3; 1].
Proof. reflexivity. Qed.

Example coord_example :
  Shape.coord (Shape.make Fixtures.box_5_3 (fun _ => true)) 4 = Ok [6; 4].
Proof. reflexivity. Qed.

Example coord_out_of_range_example :
  Shape.coord (Shape.make Fixtures.box_5_3 (fun _ => true)) 6 = Fail AssertFailed.
Proof. reflexivity. Qed.

Example ord_example :
  Shape.ord (Shape.make Fixtures.box_5_3 (fun _ => true)) [5; 4] = Ok 1.
Proof. reflexivity. Qed.

Example ord_outside_example :
  Shape.ord (Shape.make Fixtures.box_5_3 (fun _ => true)) [7; 3] = Fail AssertFailed.
Proof. reflexivity. Qed.

(** Beyond the range of [int] the arithmetic on the entries wraps around: on the
    box [[0, 2) x [0, 65536) x [0, 65536)] the most significant step,
    [65536 * 65536], is stored as [0], so that [ord] does not tell [(1, 0, 0)] from
    [(0, 0, 0)] and [coord] divides by zero. *)
Example init_linear_step_wraps_example :
  Shape.init_linear_step_ Fixtures.box_2_65536_65536 = [0; 65536; 1].
Proof. reflexivity. Qed.

Example ord_wraps_example :
  Shape.ord (Shape.make Fixtures.box_2_65536_65536 (fun _ => true)) [1; 0; 0] = Ok 0.
Proof. reflexivity. Qed.

Example coord_wraps_example :
  Shape.coord (Shape.make Fixtures.box_2_65536_65536 (fun _ => true)) 1
  = Fail DivisionByZero.
Proof. reflexivity. Qed.

Example mult_example :
  Mult.mult Z.mul Fixtures.debug_build Fixtures.tile_123 Fixtures.tile_456
  = Ok (Kernels.MkTensor Fixtures.vector_range [4; 10; 18]).
Proof. reflexivity. Qed.

(** A consumed left tile holds the product after the call. *)
Example mult_consumes_left_example :
  Mult.call Z.mul Fixtures.debug_build true false
    (Mult.TileTile Fixtures.tile_123 Fixtures.tile_456)
  = Ok {| Mult.returned := Kernels.MkTensor Fixtures.vector_range [4; 10; 18];
          Mult.arguments_after :=
            Mult.TileTile (Kernels.MkTensor Fixtures.vector_range [4; 10; 18])
              Fixtures.tile_456 |}.
Proof. reflexivity. Qed.

(** Tiles over different ranges are rejected. *)
Example mult_range_mismatch_example :
  Mult.mult Z.mul Fixtures.debug_build Fixtures.tile_123 Kernels.inner_a
  = Fail AssertFailed.
Proof. reflexivity. Qed.

Example tensor_reduce_example :
  Kernels.tensor_reduce Fixtures.debug_build Z.add 0 Kernels.inner_b = Ok 7.
Proof. reflexivity. Qed.

(** The strided overload for tensors of numbers joins the reductions of the
    blocks. *)
Example tensor_reduce_noncontiguous_example :
  Kernels.tensor_reduce_noncontiguous Fixtures.debug_build Z.add Z.add 0
    (Kernels.MkView
       {| Kernels.br_volume := 4; Kernels.br_inner_size := 2;
          Kernels.br_ord := fun i => (2 * i)%nat |}
       [1; 2; 0; 0; 3; 4; 0; 0])
  = Ok 10.
Proof. reflexivity. Qed.

Example replicated_pmap_local_example :
  Pmap.local_ <$> ReplicatedPmap.make Fixtures.debug_build Fixtures.rank1_of_2 3
  = Ok [0; 1; 2]%nat.
Proof. reflexivity. Qed.

Example replicated_owner_out_of_range_example :
  ReplicatedPmap.owner Fixtures.debug_build 1 3 3 = Fail AssertFailed.
Proof. reflexivity. Qed.

Example count_commas_example : DistArray.count_commas "i,j,k" = 2.
Proof. reflexivity. Qed.

Example call_label_mismatch_example :
  DistArray.call Fixtures.debug_build (Some Fixtures.matrix_impl) "i"
  = Fail (Exception DistArray.label_mismatch_message).
Proof. reflexivity. Qed.

(** On rank 1 of 2 the blocked matrix owns tile 1 only; after [make_replicated] it
    owns tile 0 as well. *)
Example is_local_before_replication_example :
  DistArray.is_local (Some Fixtures.matrix_impl) 0 = Ok false /\
  DistArray.is_local (Some Fixtures.matrix_impl) 1 = Ok true.
Proof. split; reflexivity. Qed.

Example is_local_out_of_range_example :
  DistArray.is_local (Some Fixtures.matrix_impl) 2
  = Fail (UserError "The ordinal index used to access an array tile is out of range.").
Proof. reflexivity. Qed.

(** With the runtime torn down the deleter deletes at once, and a null pointer is
    left alone. *)
Example lazy_deleter_uninitialized_runtime_example :
  let st := {| LazyDeleter.madness_initialized := false;
               LazyDeleter.cleanup_counter_ := 0;
               LazyDeleter.heap := LazyDeleter.heap Fixtures.one_array_state;
               LazyDeleter.deleted := [];
               LazyDeleter.stderr := [];
               LazyDeleter.lazy_sync_registry := [] |} in
  LazyDeleter.deleted
    (LazyDeleter.lazy_deleter LazyDeleter.Registers (Some 7%nat) st).2 = [7%nat] /\
  LazyDeleter.lazy_deleter LazyDeleter.Registers None st = (LazyDeleter.Returned tt, st).
Proof. split; reflexivity. Qed.

Example gemm_norm_example :
  (SparseShape.tile_norms <$>
     SparseShape.gemm (Fixtures.half_shape (1 # 8)) (Fixtures.half_shape (1 # 8)) (-2))
  = Ok (fun i j => Qabs (-2) * SparseShape.sumQ 1 (fun k => (1 # 2) * (1 # 2)))%Q.
Proof. reflexivity. Qed.

(** * Further properties of the code *)

(** ** Shape: ordinals and coordinates *)

Section ShapeMore.
Import Shape ShapeIterator.

Lemma digits_unique x y ext :
  Forall2 digit_ok x ext -> Forall2 digit_ok y ext ->
  dot x (steps_of ext) = dot y (steps_of ext) -> x = y.
Proof.
  intros Hx Hy Heq.
  pose proof (coord_digits_of_dot x ext Hx) as H1.
  pose proof (coord_digits_of_dot y ext Hy) as H2.
  rewrite Heq in H1. congruence.
Qed.

(** X1. For a shape over a well-formed orthotope whose number of elements fits an
    [int], [coord] returns, for every linear index below the number of elements,
    a coordinate that the orthotope includes. *)
Theorem coord_lands_in_orthotope (o : Orthotope) (pred : Tuple -> bool) (k : Z) :
  wf_orthotope o -> nelements o < 2 ^ 31 -> 0 <= k < nelements o ->
  exists c, coord (Shape.make o pred) k = Ok c /\
            ortho_includes o c = true /\ length c = length (low o).
Proof.
  intros Hwf H31 Hk.
  destruct (coord_closed o pred k Hwf H31 Hk) as (ds & Hc & Hds & _).
  destruct Hwf as (_ & Hlen & _).
  destruct (digits_box_includes (low o) (high o) ds Hlen Hds) as [Hinc _].
  exists (vec_add ds (low o)). split; [exact Hc|]. split; [exact Hinc|].
  unfold vec_add. rewrite length_zip_with.
  apply Forall2_length in Hds. rewrite extents_length in Hds by done. lia.
Qed.

Lemma dot_zeros n t : dot (replicate n 0) t = 0.
Proof. revert t; induction n; intros [|? ?]; simpl; try done. rewrite IHn. lia. Qed.

Lemma vec_sub_diag l : vec_sub l l = replicate (length l) 0.
Proof.
  unfold vec_sub. induction l as [|x l IH]; simpl; [done|].
  rewrite IH. f_equal. lia.
Qed.

(** X2. For such a shape, the ordinal of every coordinate that the orthotope
    includes is at least 0 and below the number of elements, and the ordinal of
    the corner [low] is 0. *)
Theorem ord_in_range (o : Orthotope) (pred : Tuple -> bool) (c : Tuple) :
  wf_orthotope o -> nelements o < 2 ^ 31 -> ortho_includes o c = true ->
  (exists k, ord (Shape.make o pred) c = Ok k /\ 0 <= k < nelements o) /\
  ord (Shape.make o pred) (low o) = Ok 0.
Proof.
  intros Hwf H31 Hc. split.
  - destruct (ord_closed o pred c Hwf H31 Hc) as (Hord & Hds & _).
    eexists. split; [exact Hord|]. apply dot_steps_range, Hds.
  - assert (Hlow : ortho_includes o (low o) = true).
    { destruct (box_includes_digits _ _ _ Hc) as [Hds _].
      fold (extents o) in Hds. apply digit_ok_ext_pos in Hds.
      destruct Hwf as (_ & Hlen & _). unfold ortho_includes, extents, vec_sub in *.
      clear -Hds Hlen. revert Hds Hlen. generalize (high o). generalize (low o).
      induction l as [|l0 l IH]; intros [|h0 h] Hds Hlen; simpl in *; try done.
      inversion Hds; subst.
      rewrite !andb_true_iff, Z.leb_le, Z.ltb_lt. repeat split; [lia|lia|].
      apply IH; [done|lia]. }
    destruct (ord_closed o pred (low o) Hwf H31 Hlow) as (Hord & _).
    rewrite Hord, vec_sub_diag, dot_zeros. done.
Qed.

Lemma lex_lt_digits x y ext :
  Forall2 digit_ok x ext -> Forall2 digit_ok y ext -> lex_lt x y ->
  dot x (steps_of ext) < dot y (steps_of ext).
Proof.
  intros Hx; revert y; induction Hx as [|d e ds es [Hd0 Hde] Hds IH];
    intros y Hy Hlt; inversion Hy as [|d' e' ds' es' [Hd0' Hde'] Hds']; subst;
    simpl in Hlt; [done|].
  cbn [steps_of dot].
  pose proof (dot_steps_range _ _ Hds) as Hr.
  pose proof (dot_steps_range _ _ Hds') as Hr'.
  destruct Hlt as [Hlt | [-> Hlt]].
  - nia.
  - specialize (IH _ Hds' Hlt). lia.
Qed.

Lemma lex_lt_sub (c1 c2 l : Tuple) :
  length c1 = length l -> length c2 = length l ->
  lex_lt c1 c2 -> lex_lt (vec_sub c1 l) (vec_sub c2 l).
Proof.
  revert c1 c2; induction l as [|l0 l IH]; intros [|x c1] [|y c2] H1 H2 Hlt;
    simpl in *; try done.
  destruct Hlt as [Hlt | [-> Hlt]]; [left; lia|right].
  split; [done|]. apply IH; [lia|lia|done].
Qed.

Lemma box_includes_length l h c :
  box_includes l h c = true -> length c = length l.
Proof.
  revert h c; induction l as [|l0 l IH]; intros [|h0 h] [|c0 c]; simpl; try done.
  rewrite !andb_true_iff. intros [_ Hrest]. f_equal. by eapply IH.
Qed.

(** X3. Ordinals follow the row-major order on such a shape: of two coordinates
    that the orthotope includes, the one that comes first in the lexicographic
    order (dimension 0 most significant) has the smaller ordinal. *)
Theorem ord_lexicographic (o : Orthotope) (pred : Tuple -> bool) (c1 c2 : Tuple) :
  wf_orthotope o -> nelements o < 2 ^ 31 ->
  ortho_includes o c1 = true -> ortho_includes o c2 = true ->
  lex_lt c1 c2 ->
  exists k1 k2,
    ord (Shape.make o pred) c1 = Ok k1 /\
    ord (Shape.make o pred) c2 = Ok k2 /\
    k1 < k2.
Proof.
  intros Hwf H31 H1 H2 Hlt.
  destruct (ord_closed o pred c1 Hwf H31 H1) as (Ho1 & Hd1 & _).
  destruct (ord_closed o pred c2 Hwf H31 H2) as (Ho2 & Hd2 & _).
  eexists _, _. split; [exact Ho1|]. split; [exact Ho2|].
  apply lex_lt_digits; [done|done|].
  apply lex_lt_sub; [by eapply box_includes_length..|done].
Qed.

(** X4. On such a shape, distinct coordinates of the orthotope have distinct
    ordinals. *)
Theorem ord_injective (o : Orthotope) (pred : Tuple -> bool) (c1 c2 : Tuple) :
  wf_orthotope o -> nelements o < 2 ^ 31 ->
  ortho_includes o c1 = true -> ortho_includes o c2 = true ->
  ord (Shape.make o pred) c1 = ord (Shape.make o pred) c2 ->
  c1 = c2.
Proof.
  intros Hwf H31 H1 H2 Heq.
  destruct (ord_closed o pred c1 Hwf H31 H1) as (Ho1 & Hd1 & Ha1 & _).
  destruct (ord_closed o pred c2 Hwf H31 H2) as (Ho2 & Hd2 & Ha2 & _).
  rewrite Ho1, Ho2 in Heq. injection Heq as Heq.
  rewrite <- Ha1, <- Ha2. f_equal. by eapply digits_unique.
Qed.

End ShapeMore.

(** ** ShapeIterator: iteration in row-major order *)

Section ShapeIteratorFacts.
Import Shape ShapeIterator.

Lemma at_insert_eq (l : Tuple) i x :
  (i < length l)%nat -> at_ (<[i := x]> l) i = x.
Proof.
  intros Hi. unfold at_. by rewrite list_lookup_total_alt, list_lookup_insert_eq.
Qed.

Lemma at_vec_add (a b : list Z) i :
  (i < length a)%nat -> (i < length b)%nat ->
  at_ (vec_add a b) i = at_ a i + at_ b i.
Proof.
  intros Ha Hb. unfold at_, vec_add.
  destruct (lookup_lt_is_Some_2 a i Ha) as [x Hx].
  destruct (lookup_lt_is_Some_2 b i Hb) as [y Hy].
  rewrite !list_lookup_total_alt, lookup_zip_with, Hx, Hy. done.
Qed.

Lemma vec_add_bump (ds l : list Z) i :
  vec_add (<[i := at_ ds i + 1]> ds) l
  = <[i := at_ (vec_add ds l) i + 1]> (vec_add ds l).
Proof.
  revert l i; induction ds as [|d ds IH]; intros [|l0 l] [|i]; try done.
  - unfold vec_add, at_. simpl. f_equal. lia.
  - unfold vec_add in *. simpl. f_equal. apply IH.
Qed.

Lemma digits_bump_last (ds ext : Tuple) :
  Forall2 digit_ok ds ext -> ext <> [] ->
  at_ ds (length ext - 1) + 1 < at_ ext (length ext - 1) ->
  Forall2 digit_ok (<[(length ext - 1)%nat := at_ ds (length ext - 1) + 1]> ds) ext /\
  dot (<[(length ext - 1)%nat := at_ ds (length ext - 1) + 1]> ds) (steps_of ext)
  = dot ds (steps_of ext) + 1.
Proof.
  induction 1 as [|d e ds es [Hd0 Hde] Hds IH]; intros Hne Hlt; [done|].
  destruct es as [|e1 es'].
  - inversion Hds; subst. unfold at_ in *. simpl in *.
    split; [|lia]. constructor; [|done]. unfold digit_ok. lia.
  - replace (length (e :: e1 :: es') - 1)%nat with (S (length (e1 :: es') - 1)) in *
      by (simpl; lia).
    change (at_ (d :: ds) (S (length (e1 :: es') - 1)))
      with (at_ ds (length (e1 :: es') - 1)) in *.
    change (at_ (e :: e1 :: es') (S (length (e1 :: es') - 1)))
      with (at_ (e1 :: es') (length (e1 :: es') - 1)) in *.
    destruct (IH ltac:(done) Hlt) as [IH1 IH2].
    split.
    + simpl. constructor; [done|]. exact IH1.
    + assert (Hins : forall k v, <[S k := v]> (d :: ds) = d :: <[k := v]> ds) by done.
      assert (Hdot : forall x es, dot (d :: x) (steps_of (e :: es))
                = d * tuple_product es + dot x (steps_of es)) by done.
      rewrite Hins, !Hdot, IH2. lia.
Qed.

Lemma at_is_int (l : list Z) i :
  Forall is_int l -> (i < length l)%nat -> is_int (at_ l i).
Proof.
  intros Hl Hi. destruct (lookup_lt_is_Some_2 l i Hi) as [x Hx].
  unfold at_. rewrite list_lookup_total_alt, Hx. simpl.
  by eapply Forall_lookup_1.
Qed.

Lemma digit_at (ds ext : list Z) i :
  Forall2 digit_ok ds ext -> (i < length ext)%nat ->
  digit_ok (at_ ds i) (at_ ext i).
Proof.
  intros Hds; revert i; induction Hds as [|d e ds es Hd Hds IH]; intros [|i] Hi;
    simpl in Hi; try lia; [exact Hd|].
  apply (IH i). lia.
Qed.

Lemma advance_step o pred j c :
  wf_orthotope o -> nelements o < 2 ^ 31 -> 0 <= j < nelements o ->
  coord (Shape.make o pred) j = Ok c ->
  advance {| m_coll := Shape.make o pred; m_current := j; m_value := c |} 1
  = if j + 1 <? nelements o then
      c' ← coord (Shape.make o pred) (j + 1);
      Ok {| m_coll := Shape.make o pred; m_current := j + 1; m_value := c' |}
    else
      Ok {| m_coll := Shape.make o pred; m_current := -1;
            m_value := <[(length (low o) - 1)%nat :=
                           at_ c (length (low o) - 1) + 1]> c |}.
Proof.
  intros Hwf H31 Hj Hc. pose proof Hwf as (Hpos & Hlen & Hle & Hsz & Hlo & Hhi).
  pose proof (extents_length o Hlen) as Hextlen.
  unfold advance, count, DIM. cbn [m_coll m_current m_value].
  change (m_orthotope (Shape.make o pred)) with o.
  replace (j =? -1) with false by (symmetry; apply Z.eqb_neq; lia).
  replace (j <? nelements o) with true by (symmetry; apply Z.ltb_lt; lia).
  cbn [negb c_assert mbind result_bind].
  rewrite (int_wrap_small (j + 1)) by lia.
  rewrite (static_cast_size_t_small (j + 1)) by lia.
  destruct (coord_closed o pred j Hwf H31 Hj) as (ds & Hc' & Hds & Hdot).
  rewrite Hc in Hc'. injection Hc' as ->.
  pose proof (Forall2_length _ _ _ Hds) as Hdslen.
  set (last := (length (low o) - 1)%nat).
  assert (Hlast : (last < length (low o))%nat) by (unfold last; lia).
  assert (Hd : digit_ok (at_ ds last) (at_ (extents o) last))
    by (apply digit_at; [done|lia]).
  unfold extents in Hd. rewrite at_vec_sub in Hd by lia.
  pose proof (at_is_int _ last Hlo ltac:(lia)) as Hl1.
  pose proof (at_is_int _ last Hhi ltac:(lia)) as Hh1.
  assert (Hv : at_ (vec_add ds (low o)) last = at_ ds last + at_ (low o) last)
    by (apply at_vec_add; lia).
  unfold is_int, digit_ok in Hd, Hl1, Hh1.
  rewrite (int_wrap_small (at_ (vec_add ds (low o)) last + 1)) by lia.
  rewrite at_insert_eq
    by (unfold vec_add; rewrite length_zip_with; lia).
  destruct (at_ (high o) last <=? at_ (vec_add ds (low o)) last + 1) eqn:Hcmp.
  - destruct (j + 1 <? nelements o); reflexivity.
  - apply Z.leb_gt in Hcmp. rewrite Hv in Hcmp.
    assert (Hbump : at_ ds (length (extents o) - 1) + 1
                    < at_ (extents o) (length (extents o) - 1)).
    { rewrite Hextlen. fold last. unfold extents.
      rewrite at_vec_sub by lia. lia. }
    assert (Hne : extents o <> []).
    { intros Heq. rewrite Heq in Hextlen. simpl in Hextlen. lia. }
    destruct (digits_bump_last ds (extents o) Hds Hne Hbump) as [Hds' Hdot'].
    rewrite Hextlen in Hds', Hdot'. fold last in Hds', Hdot'.
    pose proof (dot_steps_range _ _ Hds') as Hr. rewrite Hdot', Hdot in Hr.
    fold (nelements o) in Hr.
    replace (j + 1 <? nelements o) with true by (symmetry; apply Z.ltb_lt; lia).
    destruct (coord_closed o pred (j + 1) Hwf H31 ltac:(lia))
      as (ds2 & Hc2 & Hds2 & Hdot2).
    rewrite Hc2. cbn [mbind result_bind]. do 2 f_equal.
    rewrite <- vec_add_bump. f_equal. symmetry.
    apply (digits_unique _ _ (extents o)); [done|done|]. lia.
Qed.

Lemma increments_from o pred (n : nat) : forall j c,
  wf_orthotope o -> nelements o < 2 ^ 31 ->
  0 <= j -> j + Z.of_nat n < nelements o ->
  coord (Shape.make o pred) j = Ok c ->
  exists c',
    coord (Shape.make o pred) (j + Z.of_nat n) = Ok c' /\
    increments n {| m_coll := Shape.make o pred; m_current := j; m_value := c |}
    = Ok {| m_coll := Shape.make o pred; m_current := j + Z.of_nat n; m_value := c' |}.
Proof.
  induction n as [|n IH]; intros j c Hwf H31 Hj Hn Hc.
  - exists c. rewrite Z.add_0_r. done.
  - cbn [increments]. unfold increment. cbn [m_current].
    replace (j =? -1) with false by (symmetry; apply Z.eqb_neq; lia).
    cbn [negb c_assert mbind result_bind].
    rewrite (advance_step o pred j c Hwf H31 ltac:(lia) Hc).
    replace (j + 1 <? nelements o) with true by (symmetry; apply Z.ltb_lt; lia).
    destruct (coord_closed o pred (j + 1) Hwf H31 ltac:(lia)) as (ds & Hc1 & _ & _).
    rewrite Hc1. cbn [mbind result_bind].
    destruct (IH (j + 1) _ Hwf H31 ltac:(lia) ltac:(lia) Hc1) as (c' & Hc' & Hinc).
    exists c'. replace (j + Z.of_nat (S n)) with (j + 1 + Z.of_nat n) by lia.
    done.
Qed.

(** X5. Iteration over a shape with fewer than 2^31 elements: starting from the
    iterator at ordinal 0, [j] increments give the iterator whose ordinal is [j]
    and whose tuple is [coord(j)], for every [j] below the number of elements;
    the increment of the iterator at the last element sets the ordinal to [-1],
    and a further increment fails its assertion. *)
Theorem iterator_visits_in_order (o : Orthotope) (pred : Tuple -> bool) :
  wf_orthotope o -> 0 < nelements o < 2 ^ 31 ->
  let s := Shape.make o pred in
  (forall j : nat, Z.of_nat j < nelements o ->
     exists c,
       coord s (Z.of_nat j) = Ok c /\
       (ShapeIterator.make s 0 ≫= increments j)
       = Ok {| m_coll := s; m_current := Z.of_nat j; m_value := c |} /\
       ((ShapeIterator.make s 0 ≫= increments j) ≫= dereference) = Ok c) /\
  (exists v,
     (ShapeIterator.make s 0 ≫= increments (Z.to_nat (nelements o)))
     = Ok {| m_coll := s; m_current := -1; m_value := v |}) /\
  (ShapeIterator.make s 0 ≫= increments (S (Z.to_nat (nelements o))))
  = Fail AssertFailed.
Proof.
  intros Hwf HN s.
  assert (Hcast : static_cast_size_t 0 = 0) by done.
  destruct (coord_closed o pred 0 Hwf ltac:(lia) ltac:(lia)) as (ds0 & Hc0 & _ & _).
  assert (Hmake : ShapeIterator.make s 0
                  = Ok {| m_coll := s; m_current := 0; m_value := vec_add ds0 (low o) |}).
  { unfold ShapeIterator.make. rewrite Hcast. unfold s. rewrite Hc0. done. }
  assert (Hsteps : forall j : nat, Z.of_nat j < nelements o ->
     exists c, coord s (Z.of_nat j) = Ok c /\
       (ShapeIterator.make s 0 ≫= increments j)
       = Ok {| m_coll := s; m_current := Z.of_nat j; m_value := c |}).
  { intros j Hj. rewrite Hmake. cbn [mbind result_bind].
    destruct (increments_from o pred j 0 _ Hwf ltac:(lia) ltac:(lia) ltac:(lia) Hc0)
      as (c & Hc & Hinc).
    rewrite Z.add_0_l in Hc, Hinc. exists c. done. }
  assert (Hend : exists v,
     (ShapeIterator.make s 0 ≫= increments (Z.to_nat (nelements o)))
     = Ok {| m_coll := s; m_current := -1; m_value := v |}).
  { destruct (Z.to_nat (nelements o)) as [|n] eqn:Hn; [lia|].
    destruct (Hsteps n ltac:(lia)) as (c & Hc & Hinc).
    assert (Hsplit : forall it, increments (S n) it = increments n it ≫= increment).
    { clear. induction n as [|n IH]; intros it.
      - cbn [increments mbind result_bind]. by destruct (increment it).
      - change (increments (S (S n)) it) with (increment it ≫= increments (S n)).
        change (increments (S n) it) with (increment it ≫= increments n).
        destruct (increment it) as [it'|f]; [|done].
        cbn [mbind result_bind]. apply IH. }
    destruct (ShapeIterator.make s 0) as [it0|f] eqn:Hit0; [|done].
    cbn [mbind result_bind] in Hinc |- *.
    rewrite Hsplit, Hinc. cbn [mbind result_bind].
    unfold increment. cbn [m_current].
    replace (Z.of_nat n =? -1) with false by (symmetry; apply Z.eqb_neq; lia).
    cbn [negb c_assert mbind result_bind].
    unfold s in *. rewrite (advance_step o pred (Z.of_nat n) c Hwf ltac:(lia) ltac:(lia) Hc).
    replace (Z.of_nat n + 1 <? nelements o) with false
      by (symmetry; apply Z.ltb_ge; lia).
    eexists. reflexivity. }
  split; [|split].
  - intros j Hj. destruct (Hsteps j Hj) as (c & Hc & Hinc).
    exists c. split; [done|]. split; [done|].
    rewrite Hinc. cbn [mbind result_bind]. unfold dereference, count.
    cbn [m_current m_coll m_value]. change (m_orthotope s) with o.
    replace (Z.of_nat j =? -1) with false by (symmetry; apply Z.eqb_neq; lia).
    replace (Z.of_nat j <? nelements o) with true by (symmetry; apply Z.ltb_lt; lia).
    done.
  - exact Hend.
  - destruct Hend as (v & Hv).
    assert (Hsplit : forall n it, increments (S n) it = increments n it ≫= increment).
    { clear. induction n as [|n IH]; intros it.
      - cbn [increments mbind result_bind]. by destruct (increment it).
      - change (increments (S (S n)) it) with (increment it ≫= increments (S n)).
        change (increments (S n) it) with (increment it ≫= increments n).
        destruct (increment it) as [it'|f]; [|done].
        cbn [mbind result_bind]. apply IH. }
    destruct (ShapeIterator.make s 0) as [it0|f] eqn:Hit0; [|done].
    cbn [mbind result_bind] in Hv |- *.
    rewrite Hsplit, Hv. done.
Qed.

(** X6. The iterator for the past-the-end ordinal [-1], which [Shape::end]
    constructs, cannot be built: the constructor converts [-1] to [size_t] and
    passes it to [coord], whose bound assertion fails for every shape with fewer
    than 2^64 elements. *)
Theorem end_iterator_asserts (s : Shape) :
  nelements (m_orthotope s) < 2 ^ 64 ->
  ShapeIterator.make s (-1) = Fail AssertFailed.
Proof.
  intros HN. unfold ShapeIterator.make, coord.
  change (static_cast_size_t (-1)) with (2 ^ 64 - 1).
  replace (2 ^ 64 - 1 <? nelements (m_orthotope s)) with false
    by (symmetry; apply Z.ltb_ge; lia).
  rewrite andb_false_r. done.
Qed.

End ShapeIteratorFacts.

(** ** ReplicatedPmap: the constructor *)

Section ReplicatedPmapMore.
Import Pmap.

(** X7. The constructor of a replicated process map returns for every world and
    every size, whether assertions are compiled in or not; the list of local
    tiles it builds holds every tile index below [size] exactly once, in
    ascending order, and the map reports itself as replicated. *)
Theorem replicated_constructor_lists_every_tile (cfg : BuildConfig) (world : World)
    (size : nat) :
  exists p,
    ReplicatedPmap.make cfg world size = Ok p /\
    rank_ p = world_rank world /\ procs_ p = world_size world /\ size_ p = size /\
    is_replicated p = true /\
    length (local_ p) = size /\
    NoDup (local_ p) /\
    (forall i, i ∈ local_ p <-> (i < size)%nat) /\
    (forall i, (i < size)%nat -> local_ p !! i = Some i).
Proof.
  eexists. split; [apply replicated_make|]. cbn.
  repeat split; try done.
  - by rewrite length_seq.
  - apply NoDup_seq.
  - rewrite elem_of_seq. lia.
  - rewrite elem_of_seq. lia.
  - intros i Hi. by apply lookup_seq_lt.
Qed.

End ReplicatedPmapMore.

(** ** Kernels: element-wise operations and reductions *)

Section KernelsMore.
Import Kernels KernelsSpec.

Lemma vector_op_ptr_op {A B} (op : A -> B -> A) (n : nat) (a : list A) (b : list B) :
  length a = n -> vector_op op n a b = vector_ptr_op op n a b.
Proof.
  revert n b; induction a as [|x a IH]; intros [|n] [|y b] Hlen; simpl in *;
    try done.
  rewrite IH by lia. done.
Qed.

(** X9. For a non-empty result tile whose buffer holds as many elements as its
    range, the in-place operation [inplace_tensor_op(op, result, arg)] ends in the
    same way as the out-of-place [tensor_op(op, result, arg)], for every argument,
    empty or not, congruent or not, and in every build: with the same failure, or
    with the same tile as the new value of [result].  On a result tile without
    storage the in-place operation fails its assertion, and where assertions are
    compiled out it returns and leaves the tile without storage. *)
Theorem inplace_agrees_with_out_of_place {A B} (cfg : BuildConfig) (op : A -> B -> A)
    (t1 : Tensor A) (t2 : Tensor B) :
  empty t1 = false -> wf_tensor t1 ->
  inplace_tensor_op cfg op t1 t2 = tensor_op cfg op t1 t2 /\
  inplace_tensor_op cfg op EmptyTensor t2
  = (if ta_assert_enabled cfg then Fail AssertFailed else Ok EmptyTensor).
Proof.
  intros He Hw. split.
  - destruct t1 as [|r d]; [done|].
    unfold inplace_tensor_op, tensor_op, tensor_init.
    rewrite (bool_decide_eq_true_2 (range (MkTensor r d) = range (MkTensor r d)))
      by done.
    cbn [andb].
    destruct (TA_ASSERT cfg (negb (empty (MkTensor r d) || empty t2))); [|done].
    destruct (TA_ASSERT cfg (is_range_set_congruent (MkTensor r d) t2)); [|done].
    cbn [mbind result_bind]. rewrite vector_op_ptr_op by done. done.
  - unfold inplace_tensor_op, TA_ASSERT. by destruct (ta_assert_enabled cfg).
Qed.

(** X10. In a build with assertion checking, and for tiles whose buffers hold as
    many elements as their ranges, [tensor_op] returns exactly when both tiles are
    non-empty and have the same range, and fails its assertion otherwise; the tile
    it returns has the range of the first argument and the element-wise image of
    the two buffers, as many elements as the range. *)
Theorem tensor_op_checked {A B R} (cfg : BuildConfig) (op : A -> B -> R)
    (t1 : Tensor A) (t2 : Tensor B) :
  ta_assert_enabled cfg = true ->
  wf_tensor t1 -> wf_tensor t2 ->
  tensor_op cfg op t1 t2
  = (if negb (empty t1 || empty t2) && bool_decide (range t1 = range t2)
     then Ok (MkTensor (range t1) (zip_with op (data t1) (data t2)))
     else Fail AssertFailed) /\
  (forall r, tensor_op cfg op t1 t2 = Ok r ->
     empty r = false /\ range r = range t1 /\ wf_tensor r).
Proof.
  intros Hcfg Hw1 Hw2.
  assert (Heq : tensor_op cfg op t1 t2
    = (if negb (empty t1 || empty t2) && bool_decide (range t1 = range t2)
       then Ok (MkTensor (range t1) (zip_with op (data t1) (data t2)))
       else Fail AssertFailed)).
  { unfold tensor_op, tensor_init, TA_ASSERT, is_range_set_congruent.
    rewrite Hcfg.
    rewrite (bool_decide_eq_true_2 (range t1 = range t1)) by done.
    cbn [andb].
    destruct (negb (empty t1 || empty t2)); [|done].
    cbn [c_assert mbind result_bind andb].
    destruct (bool_decide (range t1 = range t2)) eqn:Hr; [|done].
    apply bool_decide_eq_true_1 in Hr.
    cbn [c_assert mbind result_bind].
    rewrite <- Hw1, vector_ptr_op_zip; [done|].
    unfold wf_tensor in *. congruence. }
  split; [exact Heq|].
  intros r. rewrite Heq.
  destruct (negb (empty t1 || empty t2)); [|done].
  destruct (bool_decide (range t1 = range t2)) eqn:Hr; [|done].
  apply bool_decide_eq_true_1 in Hr.
  cbn [andb]. intros [= <-]. cbn [empty range]. split; [done|]. split; [done|].
  unfold wf_tensor in *. cbn [data range].
  rewrite length_zip_with. rewrite Hw1, Hw2, Hr. lia.
Qed.

Lemma reduce_op_loop_take {S T} (op : S -> T -> S) (n : nat) (acc : S) (l : list T) :
  (n <= length l)%nat ->
  reduce_op_loop op n acc l = Ok (fold_left op (take n l) acc).
Proof.
  revert acc l; induction n as [|n IH]; intros acc [|x l] Hn; simpl in *;
    try done; try lia.
  apply IH. lia.
Qed.

Lemma tensor_reduce_fold {S T} cfg (reduce_op : S -> T -> S) (identity : S)
    (t : Tensor T) :
  empty t = false -> wf_tensor t ->
  tensor_reduce cfg reduce_op identity t = Ok (fold_left reduce_op (data t) identity).
Proof.
  intros He Hw. unfold tensor_reduce. rewrite He. cbn [negb].
  rewrite !TA_ASSERT_true. cbn [mbind result_bind].
  rewrite reduce_op_loop_take by (rewrite Hw; lia).
  rewrite <- Hw, firstn_all. done.
Qed.

Lemma tensor_reduce_tot_loop_fold {S T} cfg (reduce_op : S -> T -> S)
    (join_op : S -> S -> S) (identity : S) (elems : list (Tensor T)) (acc : S) :
  Forall (fun e => empty e = false /\ wf_tensor e) elems ->
  tensor_reduce_tot_loop cfg reduce_op join_op identity (length elems) acc elems
  = Ok (fold_left (fun a e => join_op a (fold_left reduce_op (data e) identity))
          elems acc).
Proof.
  intros Hall; revert acc; induction Hall as [|e elems [He Hw] _ IH]; intros acc;
    simpl; [done|].
  rewrite tensor_reduce_fold by done. cbn [mbind result_bind]. apply IH.
Qed.

Lemma fold_join_flat {S T} (reduce_op : S -> T -> S) (join_op : S -> S -> S)
    (identity : S) (blocks : list (list T)) (acc : S) :
  (forall a l, join_op a (fold_left reduce_op l identity) = fold_left reduce_op l a) ->
  fold_left (fun a b => join_op a (fold_left reduce_op b identity)) blocks acc
  = fold_left reduce_op (concat blocks) acc.
Proof.
  intros Hlaw; revert acc; induction blocks as [|b blocks IH]; intros acc; simpl;
    [done|].
  rewrite IH, Hlaw, fold_left_app. done.
Qed.

Lemma fold_left_fmap {A B C} (f : A -> C -> A) (g : B -> C) (l : list B) (acc : A) :
  fold_left f (g <$> l) acc = fold_left (fun a e => f a (g e)) l acc.
Proof. revert acc; induction l as [|e l IH]; intros acc; simpl; [done|]. apply IH. Qed.

(** X11. The contiguous reduction of a tensor of tensors, all non-empty and with
    buffers as large as their ranges, returns the join, taken from the identity
    and in the order of the buffer, of the reductions of the inner tensors from
    the identity.  When joining a value with the reduction of a list from the
    identity is the same as reducing the list from that value, this is the
    reduction of all the elements of all the inner tensors, in order. *)
Theorem tensor_reduce_tot_flat {S T} (cfg : BuildConfig) (reduce_op : S -> T -> S)
    (join_op : S -> S -> S) (identity : S) (t : Tensor (Tensor T)) :
  empty t = false -> wf_tensor t ->
  Forall (fun e => empty e = false /\ wf_tensor e) (data t) ->
  (forall a l, join_op a (fold_left reduce_op l identity) = fold_left reduce_op l a) ->
  tensor_reduce_tot cfg reduce_op join_op identity t
  = Ok (fold_left (fun a e => join_op a (fold_left reduce_op (data e) identity))
          (data t) identity) /\
  tensor_reduce_tot cfg reduce_op join_op identity t
  = Ok (fold_left reduce_op (concat (data <$> data t)) identity).
Proof.
  intros He Hw Hall Hlaw.
  assert (Heq : tensor_reduce_tot cfg reduce_op join_op identity t
    = Ok (fold_left (fun a e => join_op a (fold_left reduce_op (data e) identity))
            (data t) identity)).
  { unfold tensor_reduce_tot. rewrite He. cbn [negb].
    rewrite !TA_ASSERT_true. cbn [mbind result_bind].
    rewrite <- Hw. by apply tensor_reduce_tot_loop_fold. }
  split; [exact Heq|]. rewrite Heq. f_equal.
  rewrite <- (fold_join_flat reduce_op join_op identity _ identity Hlaw).
  symmetry.
  apply (fold_left_fmap (fun a b => join_op a (fold_left reduce_op b identity)) data).
Qed.

Lemma strided_reduce_loop_spec {S T} (reduce_op : S -> T -> S) (join_op : S -> S -> S)
    (identity : S) (ord : nat -> nat) (parent : list T) (stride volume : nat) :
  (forall a l, join_op a (fold_left reduce_op l identity) = fold_left reduce_op l a) ->
  (0 < stride)%nat ->
  (forall j, (j * stride < volume)%nat -> (ord (j * stride) + stride <= length parent)%nat) ->
  forall fuel j acc,
    (volume <= (j + fuel) * stride)%nat ->
    strided_reduce_loop join_op reduce_op identity ord parent stride volume fuel
      (j * stride) acc
    = Ok (fold_left reduce_op
            (concat (view_blocks ord parent stride volume fuel (j * stride))) acc).
Proof.
  intros Hlaw Hstride Hbounds. induction fuel as [|fuel IH]; intros j acc Hfuel.
  - cbn [strided_reduce_loop view_blocks].
    replace (j * stride <? volume)%nat with false
      by (symmetry; apply Nat.ltb_ge; lia). done.
  - cbn [strided_reduce_loop view_blocks].
    destruct (j * stride <? volume)%nat eqn:Hlt; [|done].
    apply Nat.ltb_lt in Hlt.
    rewrite reduce_op_loop_take
      by (rewrite length_drop; specialize (Hbounds j Hlt); lia).
    cbn [mbind result_bind].
    replace (j * stride + stride)%nat with (Datatypes.S j * stride)%nat by lia.
    rewrite IH by lia. rewrite Hlaw. cbn [concat]. by rewrite fold_left_app.
Qed.

(** X12. The reduction of a non-contiguous tensor walks the view block by block:
    when the blocks lie inside the parent buffer, the inner size is positive, and
    joining a value with the reduction of a list from the identity is the same as
    reducing the list from that value, it returns the reduction, from the
    identity, of the elements of the blocks in order; this is what the contiguous
    reduction returns on every contiguous tensor that holds these elements. *)
Theorem tensor_reduce_noncontiguous_flat {S T} (cfg : BuildConfig)
    (reduce_op : S -> T -> S) (join_op : S -> S -> S) (identity : S)
    (t : TensorView T) :
  view_empty t = false ->
  (0 < br_inner_size (view_range t))%nat ->
  blocks_in_bounds t ->
  (forall a l, join_op a (fold_left reduce_op l identity) = fold_left reduce_op l a) ->
  tensor_reduce_noncontiguous cfg reduce_op join_op identity t
  = Ok (fold_left reduce_op (gather t) identity) /\
  (forall c : Tensor T,
     empty c = false -> wf_tensor c -> data c = gather t ->
     tensor_reduce cfg reduce_op identity c
     = tensor_reduce_noncontiguous cfg reduce_op join_op identity t).
Proof.
  intros He Hstride Hbounds Hlaw.
  assert (Heq : tensor_reduce_noncontiguous cfg reduce_op join_op identity t
                = Ok (fold_left reduce_op (gather t) identity)).
  { unfold tensor_reduce_noncontiguous, gather. rewrite He. cbn [negb].
    rewrite !TA_ASSERT_true. cbn [mbind result_bind].
    apply (strided_reduce_loop_spec reduce_op join_op identity _ _ _ _ Hlaw Hstride
             Hbounds (br_volume (view_range t)) 0%nat identity).
    nia. }
  split; [exact Heq|].
  intros c Hc Hw Hdata. rewrite Heq, tensor_reduce_fold by done. by rewrite Hdata.
Qed.

End KernelsMore.

(** ** Mult: which argument is overwritten *)

Section MultMore.
Import Kernels Mult MultConsume.
Context {T : Type}.
Variable mul : T -> T -> T.
Variable cfg : BuildConfig.

(** X13. The multiplication of two tiles writes to an argument only if that
    argument is declared consumable: whenever the call returns, a tile that is not
    consumable is left as it was, at most one of the two tiles is overwritten, the
    left tile takes precedence when both are consumable, and the tile that is
    overwritten holds the value that is returned. *)
Theorem call_overwrites_only_consumable (LC RC : bool) (first second : Tensor T)
    (ev : evaluation (T := T)) :
  call mul cfg LC RC (TileTile first second) = Ok ev ->
  exists first' second',
    arguments_after ev = TileTile first' second' /\
    (LC = false -> first' = first) /\
    (RC = false -> second' = second) /\
    (first' = first \/ second' = second) /\
    (LC = true -> first' = returned ev /\ second' = second) /\
    (LC = false -> RC = true -> second' = returned ev).
Proof.
  unfold call, eval. destruct LC, RC; cbn [andb orb negb].
  - destruct (mult_to mul cfg first second) as [r|f]; [|done].
    cbn [mbind result_bind]. intros [= <-]. cbn. eexists _, _.
    split; [reflexivity|]. repeat split; try done. by right.
  - destruct (mult_to mul cfg first second) as [r|f]; [|done].
    cbn [mbind result_bind]. intros [= <-]. cbn. eexists _, _.
    split; [reflexivity|]. repeat split; try done. by right.
  - destruct (mult_to mul cfg second first) as [r|f]; [|done].
    cbn [mbind result_bind]. intros [= <-]. cbn. eexists _, _.
    split; [reflexivity|]. repeat split; try done. by left.
  - destruct (mult mul cfg first second) as [r|f]; [|done].
    cbn [mbind result_bind]. intros [= <-]. cbn. eexists _, _.
    split; [reflexivity|]. repeat split; try done. by left.
Qed.

(** X14. [consume_left] and [consume_right] on two non-empty tiles with congruent
    ranges, whose buffers hold as many elements as their range, and a commutative
    product of elements: both return the element-wise product of the two tiles,
    whatever the values of the traits.  [consume_left] never writes to the right
    tile when the left tile is consumable or when the right tile is passed as
    const, and then the left tile that is consumable holds the product;
    [consume_right] mirrors this. *)
Theorem consume_left_right_product (first second : Tensor T) :
  (forall x y, mul x y = mul y x) ->
  empty first = false -> empty second = false ->
  wf_tensor first -> wf_tensor second ->
  is_range_set_congruent first second = true ->
  let product := elementwise_product mul first second in
  (forall ict RC rconst,
     returned <$> consume_left mul cfg ict RC rconst first (Some second)
     = Ok product) /\
  (forall ict LC lconst,
     returned <$> consume_right mul cfg ict LC lconst (Some first) second
     = Ok product) /\
  (forall RC rconst,
     consume_left mul cfg true RC rconst first (Some second)
     = Ok {| returned := product; arguments_after := TileTile product second |}) /\
  (forall ict RC,
     arguments_after <$> consume_left mul cfg ict RC true first (Some second)
     = Ok (TileTile (if ict then product else first) second)) /\
  (forall LC lconst,
     consume_right mul cfg true LC lconst (Some first) second
     = Ok {| returned := product; arguments_after := TileTile first product |}) /\
  (forall ict LC,
     arguments_after <$> consume_right mul cfg ict LC true (Some first) second
     = Ok (TileTile first (if ict then product else second))).
Proof.
  intros Hcomm He1 He2 Hw1 Hw2 Hr product.
  apply bool_decide_eq_true_1 in Hr.
  assert (Hsym : elementwise_product mul second first = product).
  { unfold product, elementwise_product. rewrite Hr. f_equal.
    by apply zip_with_comm. }
  pose proof (mult_spec mul cfg first second He1 He2 Hw1 Hw2 Hr) as Hm.
  pose proof (mult_to_spec mul cfg first second He1 He2 Hw1 Hw2 Hr) as Hl.
  pose proof (mult_to_spec mul cfg second first He2 He1 Hw2 Hw1 (eq_sym Hr)) as Hrt.
  rewrite Hsym in Hrt. fold product in Hm, Hl.
  repeat split.
  - intros [] [] []; unfold consume_left, eval; simpl;
      rewrite ?Hm, ?Hl, ?Hrt; reflexivity.
  - intros [] [] []; unfold consume_right, eval; simpl;
      rewrite ?Hm, ?Hl, ?Hrt; reflexivity.
  - intros [] []; unfold consume_left, eval; simpl;
      rewrite ?Hm, ?Hl, ?Hrt; reflexivity.
  - intros [] []; unfold consume_left, eval; simpl;
      rewrite ?Hm, ?Hl, ?Hrt; reflexivity.
  - intros [] []; unfold consume_right, eval; simpl;
      rewrite ?Hm, ?Hl, ?Hrt; reflexivity.
  - intros [] []; unfold consume_right, eval; simpl;
      rewrite ?Hm, ?Hl, ?Hrt; reflexivity.
Qed.

End MultMore.

(** ** DistArray: construction, replication and tile access *)

Section DistArrayMore.
Import Pmap DistArray DistArraySpec.

Lemma check_pimpl_some impl : check_pimpl (Some impl) = Ok tt.
Proof.
  unfold check_pimpl, TA_USER_ASSERT.
  by rewrite bool_decide_eq_true_2 by (by eexists).
Qed.

Lemma init_some_inv world trange shape pm id impl :
  init world trange shape (Some pm) id = Ok impl ->
  size_ pm = tiles_volume trange /\ rank_ pm = world_rank world /\
  procs_ pm = world_size world /\ shape_empty shape = false /\
  shape_validate shape trange = true /\
  impl = {| impl_world := world; impl_trange := trange; impl_shape := shape;
            impl_pmap := pm; impl_id := id; impl_tiles := ∅ |}.
Proof.
  unfold init, TA_USER_ASSERT.
  destruct (size_ pm =? tiles_volume trange)%nat eqn:H1; [|done].
  destruct (rank_ pm =? world_rank world)%nat eqn:H2; [|done].
  destruct (procs_ pm =? world_size world)%nat eqn:H3; [|done].
  cbn [mbind result_bind].
  destruct (shape_empty shape) eqn:H4; [done|].
  destruct (shape_validate shape trange) eqn:H5; [|done].
  cbn [negb mbind result_bind]. intros [= <-].
  apply Nat.eqb_eq in H1, H2, H3. done.
Qed.

Lemma init_none_inv world trange shape id impl :
  init world trange shape None id = Ok impl ->
  shape_empty shape = false /\ shape_validate shape trange = true /\
  impl = {| impl_world := world; impl_trange := trange; impl_shape := shape;
            impl_pmap := BlockedPmap.make world (tiles_volume trange);
            impl_id := id; impl_tiles := ∅ |}.
Proof.
  unfold init, TA_USER_ASSERT. cbn [mbind result_bind].
  destruct (shape_empty shape) eqn:H4; [done|].
  destruct (shape_validate shape trange) eqn:H5; [|done].
  cbn [negb mbind result_bind]. intros [= <-]. done.
Qed.

Lemma init_valid world trange shape pmopt id :
  (forall pm, pmopt = Some pm ->
     size_ pm = tiles_volume trange /\ rank_ pm = world_rank world /\
     procs_ pm = world_size world) ->
  shape_empty shape = false -> shape_validate shape trange = true ->
  init world trange shape pmopt id
  = Ok {| impl_world := world; impl_trange := trange; impl_shape := shape;
          impl_pmap := default (BlockedPmap.make world (tiles_volume trange)) pmopt;
          impl_id := id; impl_tiles := ∅ |}.
Proof.
  intros Hpm H4 H5. unfold init, TA_USER_ASSERT. rewrite H4, H5.
  destruct pmopt as [pm|]; [|done].
  destruct (Hpm pm eq_refl) as (-> & -> & ->). by rewrite !Nat.eqb_refl.
Qed.

(** X15. The validation of the constructor arguments in [init].  With a process
    map given, an implementation is created exactly when the size, the rank and
    the number of processes of the map are those of the tiled range and of the
    world, the shape is initialised and the shape validates against the range;
    without one, exactly when the shape passes its two checks.  Every failure is a
    user error, and an implementation that is created stores the arguments (the
    default blocked map when no map is given) and has no tile set. *)
Theorem init_validates_arguments (world : World) (trange : TiledRange)
    (shape : shape_type) (id : uniqueidT) :
  (forall pm,
     (exists impl, init world trange shape (Some pm) id = Ok impl) <->
     size_ pm = tiles_volume trange /\ rank_ pm = world_rank world /\
     procs_ pm = world_size world /\ shape_empty shape = false /\
     shape_validate shape trange = true) /\
  ((exists impl, init world trange shape None id = Ok impl) <->
   shape_empty shape = false /\ shape_validate shape trange = true) /\
  (forall pmopt f, init world trange shape pmopt id = Fail f ->
     exists msg, f = UserError msg) /\
  (forall pmopt impl, init world trange shape pmopt id = Ok impl ->
     impl_world impl = world /\ impl_trange impl = trange /\
     impl_shape impl = shape /\ impl_id impl = id /\
     impl_pmap impl = default (BlockedPmap.make world (tiles_volume trange)) pmopt /\
     impl_tiles impl = ∅).
Proof.
  split; [|split; [|split]].
  - intros pm. split.
    + intros (impl & Himpl). apply init_some_inv in Himpl. tauto.
    + intros (H1 & H2 & H3 & H4 & H5). eexists.
      apply init_valid; [|done|done]. by intros ? [= <-].
  - split.
    + intros (impl & Himpl). apply init_none_inv in Himpl. tauto.
    + intros (H4 & H5). eexists. by apply init_valid.
  - intros pmopt f. unfold init, TA_USER_ASSERT.
    destruct pmopt as [pm|].
    + destruct (size_ pm =? tiles_volume trange)%nat;
        [|intros [= <-]; by eexists].
      destruct (rank_ pm =? world_rank world)%nat;
        [|intros [= <-]; by eexists].
      destruct (procs_ pm =? world_size world)%nat;
        [|intros [= <-]; by eexists].
      cbn [mbind result_bind].
      destruct (shape_empty shape); [intros [= <-]; by eexists|].
      destruct (shape_validate shape trange); [done|intros [= <-]; by eexists].
    + cbn [mbind result_bind].
      destruct (shape_empty shape); [intros [= <-]; by eexists|].
      destruct (shape_validate shape trange); [done|intros [= <-]; by eexists].
  - intros pmopt impl Himpl.
    assert (Hfields : impl
      = {| impl_world := world; impl_trange := trange; impl_shape := shape;
           impl_pmap := default (BlockedPmap.make world (tiles_volume trange)) pmopt;
           impl_id := id; impl_tiles := ∅ |}).
    { destruct pmopt as [pm|].
      - apply init_some_inv in Himpl. tauto.
      - apply init_none_inv in Himpl. tauto. }
    subst impl. do 5 (split; [reflexivity|]). reflexivity.
Qed.

Lemma make_replicated_result cfg id received impl a' :
  make_replicated cfg id received (Some impl) = Ok a' ->
  exists impl',
    a' = Some impl' /\
    negb (is_replicated (impl_pmap impl')) && (1 <? world_size (impl_world impl'))%nat
    = false /\
    impl_world impl' = impl_world impl /\
    impl_trange impl' = impl_trange impl /\
    impl_shape impl' = impl_shape impl /\
    ((impl' = impl /\
      negb (is_replicated (impl_pmap impl)) && (1 <? world_size (impl_world impl))%nat
      = false) \/
     (negb (is_replicated (impl_pmap impl)) && (1 <? world_size (impl_world impl))%nat
      = true /\
      ReplicatedPmap.make cfg (impl_world impl) (impl_size impl) = Ok (impl_pmap impl') /\
      impl_id impl' = id /\
      impl_tiles impl' = impl_tiles impl ∪ received /\
      shape_empty (impl_shape impl) = false /\
      shape_validate (impl_shape impl) (impl_trange impl) = true)).
Proof.
  unfold make_replicated, world, size, trange, shape.
  rewrite !check_pimpl_some. cbn [mbind result_bind deref].
  destruct (negb (is_replicated (impl_pmap impl))
            && (1 <? world_size (impl_world impl))%nat) eqn:Hcond.
  - rewrite replicated_make. cbn [mbind result_bind].
    destruct (init _ _ _ _ _) as [result_|f] eqn:Hinit; [|done].
    cbn [mbind result_bind]. rewrite TA_ASSERT_true. cbn [mbind result_bind].
    intros [= <-]. apply init_some_inv in Hinit.
    destruct Hinit as (_ & _ & _ & H4 & H5 & ->).
    eexists. split; [reflexivity|]. unfold Replicator.
    cbn [impl_world impl_trange impl_shape impl_pmap impl_id impl_tiles
         is_replicated negb andb].
    do 4 (split; [reflexivity|]). right.
    split; [reflexivity|]. split; [reflexivity|]. done.
  - intros [= <-]. exists impl. repeat split; try done. by left.
Qed.

(** X16. [make_replicated] is idempotent: a second call, with whatever id and
    tiles arriving, returns the array that the first call returned (and fails as
    the first call does when that one fails). *)
Theorem make_replicated_idempotent (cfg : BuildConfig) (id1 id2 : uniqueidT)
    (received1 received2 : gmap nat value_type) (a : DistArray) :
  (make_replicated cfg id1 received1 a ≫= make_replicated cfg id2 received2)
  = make_replicated cfg id1 received1 a.
Proof.
  destruct a as [impl|]; [|done].
  destruct (make_replicated cfg id1 received1 (Some impl)) as [a'|f] eqn:Hfirst;
    [|done].
  cbn [mbind result_bind].
  destruct (make_replicated_result _ _ _ _ _ Hfirst) as (impl' & -> & Hcond & _).
  unfold make_replicated, world.
  rewrite !check_pimpl_some. cbn [mbind result_bind deref].
  by rewrite Hcond.
Qed.

(** X17. [make_replicated] on an array that satisfies the invariant of [init]:
    the array that is returned satisfies the invariant again, has the world, the
    tiled range and the shape of the original, holds every tile that was set in
    the original with the same value, and is replicated unless the world has a
    single process. *)
Theorem make_replicated_preserves (cfg : BuildConfig) (id : uniqueidT)
    (received : gmap nat value_type) (impl : impl_type) :
  impl_invariant impl ->
  exists impl',
    make_replicated cfg id received (Some impl) = Ok (Some impl') /\
    impl_invariant impl' /\
    impl_world impl' = impl_world impl /\
    impl_trange impl' = impl_trange impl /\
    impl_shape impl' = impl_shape impl /\
    (forall i v, impl_tiles impl !! i = Some v -> impl_tiles impl' !! i = Some v) /\
    (is_replicated (impl_pmap impl') = true \/ world_size (impl_world impl) = 1%nat).
Proof.
  intros Hinv. pose proof Hinv as (Hsize & Hrank & Hprocs & Hempty & Hvalid & Hlt & Hc).
  destruct (make_replicated cfg id received (Some impl)) as [a'|f] eqn:Hm.
  - destruct (make_replicated_result _ _ _ _ _ Hm)
      as (impl' & -> & Hcond & Hw & Htr & Hsh & Hcase).
    exists impl'. split; [done|].
    destruct Hcase as [[-> Hc0] | (Hc1 & Hpm & Hid & Htiles & _)].
    + split; [exact Hinv|]. do 4 (split; [done|]).
      apply andb_false_iff in Hc0 as [Hrep | Hws].
      * left. by destruct (is_replicated (impl_pmap impl)).
      * right. apply Nat.ltb_ge in Hws. lia.
    + pose proof Hpm as Hpm'. rewrite replicated_make in Hpm'.
      injection Hpm' as Hpm'.
      split; [|do 3 (split; [done|]); split].
      * unfold impl_invariant. rewrite Hw, Htr, Hsh, <- Hpm'.
        cbn [size_ rank_ procs_].
        do 6 (split; [done|]).
        apply (replicated_pmap_contract cfg (impl_world impl) (impl_size impl));
          [done|apply replicated_make].
      * intros i v Hv. rewrite Htiles. by apply lookup_union_Some_l.
      * left. by rewrite <- Hpm'.
  - exfalso. revert Hm.
    unfold make_replicated, world, size, trange, shape.
    rewrite !check_pimpl_some. cbn [mbind result_bind deref].
    destruct (negb (is_replicated (impl_pmap impl))
              && (1 <? world_size (impl_world impl))%nat); [|done].
    rewrite replicated_make. cbn [mbind result_bind].
    rewrite (init_valid _ _ _ (Some _)); [|by intros ? [= <-]|done|done].
    cbn [mbind result_bind]. rewrite TA_ASSERT_true. done.
Qed.

End DistArrayMore.

(** ** DistArray: bounds of tile access, and filling *)

Section DistArrayTiles.
Import Pmap DistArray DistArraySpec.

Lemma check_index_out_of_range impl i :
  (impl_size impl <= i)%nat -> check_index (Some impl) i = out_of_range_error.
Proof.
  intros Hi. unfold check_index, impl_range_includes, TA_USER_ASSERT.
  rewrite check_pimpl_some. cbn [mbind result_bind deref].
  replace (i <? _)%nat with false by (symmetry; apply Nat.ltb_ge; exact Hi). done.
Qed.

(** X18. The accessors of an initialised array that take an ordinal index check
    it against the number of tiles in every build: for an index at or beyond the
    size, [find], [owner], [is_local], [is_zero] and [set] raise the user error
    for an index out of range; for an index below the size, [owner], [is_local]
    and [is_zero] answer as the process map and the shape of the implementation
    do. *)
Theorem indexed_accessors_check_bounds (cfg : BuildConfig) (impl : impl_type)
    (i : nat) (v : value_type) :
  ((impl_size impl <= i)%nat ->
   find (Some impl) i = out_of_range_error /\
   owner (Some impl) i = out_of_range_error /\
   is_local (Some impl) i = out_of_range_error /\
   is_zero (Some impl) i = out_of_range_error /\
   set cfg (Some impl) i v = out_of_range_error) /\
  ((i < impl_size impl)%nat ->
   owner (Some impl) i = Pmap.owner (impl_pmap impl) i /\
   is_local (Some impl) i = Pmap.is_local (impl_pmap impl) i /\
   is_zero (Some impl) i = Ok (shape_is_zero (impl_shape impl) i)).
Proof.
  unfold find, owner, is_local, is_zero, set. split; intros Hi.
  - rewrite !check_index_out_of_range by done. done.
  - rewrite !check_index_in_range by done. done.
Qed.









End DistArrayTiles.

(** ** The deleter and the lazy cleanup *)

Section LazyCleanupFacts.
Import Pmap DistArray LazyDeleter LazyCleanup.

Lemma lazy_deleter_registers st pimpl impl :
  madness_initialized st = true ->
  heap st !! pimpl = Some impl ->
  lazy_deleter Registers (Some pimpl) st
  = (Returned tt,
     {| madness_initialized := madness_initialized st;
        cleanup_counter_ := cleanup_counter_ st + 1;
        heap := heap st; deleted := deleted st; stderr := stderr st;
        lazy_sync_registry :=
          lazy_sync_registry st ++ [(impl_id impl, DeleteAndDecrement pimpl)] |}).
Proof.
  intros Hinit Hheap. destruct st as [mi cc hp dl se rg].
  cbn [madness_initialized heap] in Hinit, Hheap. subst mi.
  unfold lazy_deleter, mbind, M_bind, initialized, read.
  cbn [madness_initialized heap]. rewrite Hheap. reflexivity.
Qed.

Lemma run_callback_deletes st pimpl impl :
  heap st !! pimpl = Some impl ->
  run_callback (DeleteAndDecrement pimpl) st
  = (Returned tt,
     {| madness_initialized := madness_initialized st;
        cleanup_counter_ := cleanup_counter_ st + -1;
        heap := delete pimpl (heap st); deleted := deleted st ++ [pimpl];
        stderr := stderr st;
        lazy_sync_registry := lazy_sync_registry st |}).
Proof.
  intros Hheap.
  unfold run_callback, mbind, M_bind, delete_, add_to_cleanup_counter.
  rewrite Hheap. reflexivity.
Qed.

(** X22. The deleter returns normally in every case in which the pointer is null
    or points to an allocated implementation: whether or not the runtime is
    initialised, and whatever [lazy_sync] does.  It keeps the balance between the
    cleanup counter and the number of registered callbacks, leaves every other
    implementation alone, and either deletes the implementation at once (the
    counter and the registry are as before) or, when the runtime is initialised
    and [lazy_sync] accepts the callback, registers its deletion; without the
    runtime it writes no message, and a null pointer changes nothing. *)
Theorem lazy_deleter_always_returns (st : State) (behaviour : lazy_sync_behaviour)
    (pimpl : pointer) (impl : impl_type) :
  heap st !! pimpl = Some impl ->
  (exists st',
     lazy_deleter behaviour (Some pimpl) st = (Returned tt, st') /\
     madness_initialized st' = madness_initialized st /\
     cleanup_counter_ st' - Z.of_nat (length (lazy_sync_registry st'))
     = cleanup_counter_ st - Z.of_nat (length (lazy_sync_registry st)) /\
     (forall q, q <> pimpl -> heap st' !! q = heap st !! q) /\
     ((heap st' !! pimpl = None /\ deleted st' = deleted st ++ [pimpl] /\
       lazy_sync_registry st' = lazy_sync_registry st /\
       cleanup_counter_ st' = cleanup_counter_ st) \/
      (madness_initialized st = true /\ behaviour = Registers /\
       heap st' = heap st /\ deleted st' = deleted st /\
       lazy_sync_registry st'
       = lazy_sync_registry st ++ [(impl_id impl, DeleteAndDecrement pimpl)])) /\
     (madness_initialized st = false ->
      stderr st' = stderr st /\ heap st' !! pimpl = None)) /\
  lazy_deleter behaviour None st = (Returned tt, st).
Proof.
  intros Hheap. split; [|reflexivity].
  destruct (madness_initialized st) eqn:Hinit.
  - destruct behaviour as [|e].
    + eexists. split; [by apply lazy_deleter_registers|].
      cbn [madness_initialized cleanup_counter_ heap deleted stderr
           lazy_sync_registry].
      split; [done|]. split; [rewrite length_app; simpl; lia|].
      split; [done|]. split; [|done]. right. done.
    + destruct e; eexists;
        (split;
         [unfold lazy_deleter, mbind, M_bind, initialized, read;
          rewrite Hinit, Hheap;
          unfold try_catch, lazy_sync, throw, add_to_cleanup_counter;
          unfold fprintf_stderr, delete_, mbind, M_bind;
          cbn [heap]; rewrite Hheap; reflexivity|]);
        cbn [madness_initialized cleanup_counter_ heap deleted stderr
             lazy_sync_registry];
        (split; [done|]); (split; [lia|]);
        (split; [by intros q Hq; rewrite lookup_delete_ne|]);
        (split; [|done]); left; rewrite lookup_delete_eq;
        (repeat split; try done; lia).
  - eexists. split.
    { unfold lazy_deleter, mbind, M_bind, initialized. rewrite Hinit.
      unfold delete_. rewrite Hheap. reflexivity. }
    cbn [madness_initialized cleanup_counter_ heap deleted stderr
         lazy_sync_registry].
    split; [done|]. split; [done|].
    split; [by intros q Hq; rewrite lookup_delete_ne|].
    rewrite lookup_delete_eq. split; [by left|done].
Qed.

Lemma release_all_spec (ps : list pointer) : forall st,
  madness_initialized st = true ->
  (forall p, p ∈ ps -> is_Some (heap st !! p)) ->
  exists st1 fns,
    release_all ps st = (Returned tt, st1) /\
    madness_initialized st1 = true /\
    cleanup_counter_ st1 = cleanup_counter_ st + Z.of_nat (length ps) /\
    heap st1 = heap st /\ deleted st1 = deleted st /\ stderr st1 = stderr st /\
    lazy_sync_registry st1 = lazy_sync_registry st ++ fns /\
    fns.*2 = DeleteAndDecrement <$> ps.
Proof.
  induction ps as [|p ps IH]; intros st Hinit Halloc.
  - exists st, []. rewrite app_nil_r. cbn. repeat split; try done. lia.
  - destruct (Halloc p ltac:(by left)) as [impl Himpl].
    cbn [release_all]. unfold mbind at 1, M_bind at 1.
    rewrite (lazy_deleter_registers st p impl Hinit Himpl).
    destruct (IH {| madness_initialized := madness_initialized st;
                    cleanup_counter_ := cleanup_counter_ st + 1;
                    heap := heap st; deleted := deleted st; stderr := stderr st;
                    lazy_sync_registry :=
                      lazy_sync_registry st ++ [(impl_id impl, DeleteAndDecrement p)] |})
      as (st1 & fns & Hrel & Hi1 & Hc1 & Hh1 & Hd1 & Hs1 & Hr1 & Hf1).
    { done. }
    { intros q Hq. apply Halloc. by right. }
    exists st1, ((impl_id impl, DeleteAndDecrement p) :: fns).
    split; [exact Hrel|]. cbn [cleanup_counter_ heap deleted stderr
                               lazy_sync_registry] in *.
    split; [done|]. split; [rewrite Hc1; cbn [length]; lia|].
    split; [done|]. split; [done|]. split; [done|].
    split; [by rewrite Hr1, <- app_assoc|].
    cbn [fmap list_fmap snd]. f_equal. exact Hf1.
Qed.

Lemma run_callbacks_spec (ps : list pointer) : forall st,
  NoDup ps ->
  (forall p, p ∈ ps -> is_Some (heap st !! p)) ->
  exists st2,
    run_callbacks (DeleteAndDecrement <$> ps) st = (Returned tt, st2) /\
    madness_initialized st2 = madness_initialized st /\
    cleanup_counter_ st2 = cleanup_counter_ st - Z.of_nat (length ps) /\
    deleted st2 = deleted st ++ ps /\ stderr st2 = stderr st /\
    lazy_sync_registry st2 = lazy_sync_registry st /\
    (forall q, heap st2 !! q = if bool_decide (q ∈ ps) then None else heap st !! q).
Proof.
  induction ps as [|p ps IH]; intros st Hnd Halloc.
  - exists st. rewrite app_nil_r. cbn. repeat split; try done. lia.
  - destruct (Halloc p ltac:(by left)) as [impl Himpl].
    apply NoDup_cons in Hnd as [Hnotin Hnd].
    cbn [fmap list_fmap run_callbacks]. unfold mbind at 1, M_bind at 1.
    rewrite (run_callback_deletes st p impl Himpl).
    destruct (IH {| madness_initialized := madness_initialized st;
                    cleanup_counter_ := cleanup_counter_ st + -1;
                    heap := delete p (heap st); deleted := deleted st ++ [p];
                    stderr := stderr st;
                    lazy_sync_registry := lazy_sync_registry st |} Hnd)
      as (st2 & Hrun & Hi2 & Hc2 & Hd2 & Hs2 & Hr2 & Hh2).
    { intros q Hq. cbn [heap]. rewrite lookup_delete_ne by (intros ->; done).
      apply Halloc. by right. }
    exists st2. split; [exact Hrun|].
    cbn [madness_initialized cleanup_counter_ heap deleted stderr
         lazy_sync_registry] in *.
    split; [done|]. split; [rewrite Hc2; cbn [length]; lia|].
    split; [by rewrite Hd2, <- app_assoc|]. split; [done|]. split; [done|].
    intros q. rewrite Hh2.
    destruct (decide (q = p)) as [->|Hne].
    + rewrite (bool_decide_eq_true_2 (p ∈ p :: ps)) by (by left).
      rewrite lookup_delete_eq. by destruct (bool_decide (p ∈ ps)).
    + rewrite lookup_delete_ne by done.
      rewrite (bool_decide_ext (q ∈ p :: ps) (q ∈ ps))
        by (rewrite elem_of_cons; tauto). done.
Qed.

(** X23. Lazy cleanup of several arrays.  With the runtime initialised, when the
    last handles of distinct allocated implementations are released, every
    deleter returns, nothing is deleted yet, one callback per implementation is
    registered and the cleanup counter has grown by their number.  When the
    runtime then runs these callbacks, the counter is back at its value before
    the releases, every one of the implementations has been deleted exactly once,
    in the order of the releases, and the other implementations are untouched. *)
Theorem lazy_cleanup_balances (st : State) (ps : list pointer) :
  madness_initialized st = true ->
  NoDup ps ->
  (forall p, p ∈ ps -> is_Some (heap st !! p)) ->
  exists st1 st2 fns,
    release_all ps st = (Returned tt, st1) /\
    cleanup_counter_ st1 = cleanup_counter_ st + Z.of_nat (length ps) /\
    heap st1 = heap st /\ deleted st1 = deleted st /\
    lazy_sync_registry st1 = lazy_sync_registry st ++ fns /\
    fns.*2 = DeleteAndDecrement <$> ps /\
    run_callbacks (fns.*2) st1 = (Returned tt, st2) /\
    cleanup_counter_ st2 = cleanup_counter_ st /\
    deleted st2 = deleted st ++ ps /\
    stderr st2 = stderr st /\
    (forall q, heap st2 !! q = if bool_decide (q ∈ ps) then None else heap st !! q).
Proof.
  intros Hinit Hnd Halloc.
  destruct (release_all_spec ps st Hinit Halloc)
    as (st1 & fns & Hrel & Hi1 & Hc1 & Hh1 & Hd1 & Hs1 & Hr1 & Hf1).
  destruct (run_callbacks_spec ps st1 Hnd) as (st2 & Hrun & Hi2 & Hc2 & Hd2 & Hs2 & Hr2 & Hh2).
  { intros p Hp. rewrite Hh1. by apply Halloc. }
  exists st1, st2, fns. rewrite Hf1.
  split; [done|]. split; [done|]. split; [done|]. split; [done|].
  split; [done|]. split; [done|]. split; [done|].
  split; [lia|]. split; [by rewrite Hd2, Hd1|]. split; [by rewrite Hs2|].
  intros q. by rewrite Hh2, Hh1.
Qed.

End LazyCleanupFacts.

(** * The further properties at concrete inputs *)

(** X1 at the box [[5, 7) x [3, 6)] and the linear index 4. *)
Lemma coord_lands_in_orthotope_witness :
  exists c,
    Shape.coord (Shape.make Fixtures.box_5_3 (fun _ => true)) 4 = Ok c /\
    Shape.ortho_includes Fixtures.box_5_3 c = true /\
    length c = length (Shape.low Fixtures.box_5_3).
Proof.
  apply (coord_lands_in_orthotope Fixtures.box_5_3 (fun _ => true) 4 box_5_3_wf).
  - reflexivity.
  - vm_compute; split; [discriminate|reflexivity].
Defined.

(** X2 at the box [[5, 7) x [3, 6)] and the coordinate (6, 4). *)
Lemma ord_in_range_witness :
  let s := Shape.make Fixtures.box_5_3 (fun _ => true) in
  (exists k, Shape.ord s [6; 4] = Ok k /\ 0 <= k < Shape.nelements Fixtures.box_5_3) /\
  Shape.ord s (Shape.low Fixtures.box_5_3) = Ok 0.
Proof.
  exact (ord_in_range Fixtures.box_5_3 (fun _ => true) [6; 4] box_5_3_wf eq_refl
           eq_refl).
Defined.

(** X3 at the box [[5, 7) x [3, 6)]: (5, 5) comes before (6, 3). *)
Lemma ord_lexicographic_witness :
  let s := Shape.make Fixtures.box_5_3 (fun _ => true) in
  exists k1 k2,
    Shape.ord s [5; 5] = Ok k1 /\ Shape.ord s [6; 3] = Ok k2 /\ k1 < k2.
Proof.
  apply (ord_lexicographic Fixtures.box_5_3 (fun _ => true) [5; 5] [6; 3]
           box_5_3_wf eq_refl eq_refl eq_refl).
  simpl. left. lia.
Defined.

(** X4 at the box [[5, 7) x [3, 6)] and the coordinate (6, 4). *)
Lemma ord_injective_witness :
  let s := Shape.make Fixtures.box_5_3 (fun _ => true) in
  Shape.ord s [6; 4] = Shape.ord s [6; 4] /\ ([6; 4] : Shape.Tuple) = [6; 4].
Proof.
  split; [reflexivity|].
  exact (ord_injective Fixtures.box_5_3 (fun _ => true) [6; 4] [6; 4]
           box_5_3_wf eq_refl eq_refl eq_refl eq_refl).
Defined.

(** X5 at the box [[5, 7) x [3, 6)], which has six elements. *)
Lemma iterator_visits_in_order_witness :
  let s := Shape.make Fixtures.box_5_3 (fun _ => true) in
  (forall j : nat, Z.of_nat j < Shape.nelements Fixtures.box_5_3 ->
     exists c,
       Shape.coord s (Z.of_nat j) = Ok c /\
       (ShapeIterator.make s 0 ≫= ShapeIterator.increments j)
       = Ok {| ShapeIterator.m_coll := s; ShapeIterator.m_current := Z.of_nat j;
               ShapeIterator.m_value := c |} /\
       ((ShapeIterator.make s 0 ≫= ShapeIterator.increments j)
          ≫= ShapeIterator.dereference) = Ok c) /\
  (exists v,
     (ShapeIterator.make s 0
        ≫= ShapeIterator.increments (Z.to_nat (Shape.nelements Fixtures.box_5_3)))
     = Ok {| ShapeIterator.m_coll := s; ShapeIterator.m_current := -1;
             ShapeIterator.m_value := v |}) /\
  (ShapeIterator.make s 0
     ≫= ShapeIterator.increments (S (Z.to_nat (Shape.nelements Fixtures.box_5_3))))
  = Fail AssertFailed.
Proof.
  apply (iterator_visits_in_order Fixtures.box_5_3 (fun _ => true) box_5_3_wf).
  vm_compute; split; reflexivity.
Defined.

(** X6 at the shape over the box [[5, 7) x [3, 6)]. *)
Lemma end_iterator_asserts_witness :
  ShapeIterator.make (Shape.make Fixtures.box_5_3 (fun _ => true)) (-1)
  = Fail AssertFailed.
Proof.
  apply (end_iterator_asserts (Shape.make Fixtures.box_5_3 (fun _ => true))).
  vm_compute; reflexivity.
Defined.

(** X9 at the tiles [[1, 2, 3]] and [[4, 5, 6]]. *)
Lemma inplace_agrees_with_out_of_place_witness :
  Kernels.inplace_tensor_op Fixtures.debug_build Z.mul Fixtures.tile_123
    Fixtures.tile_456
  = Kernels.tensor_op Fixtures.debug_build Z.mul Fixtures.tile_123 Fixtures.tile_456.
Proof.
  exact (proj1 (inplace_agrees_with_out_of_place Fixtures.debug_build Z.mul
                  Fixtures.tile_123 Fixtures.tile_456 eq_refl eq_refl)).
Defined.

(** X10 at the tiles [[1, 2, 3]] and [[4, 5, 6]]. *)
Lemma tensor_op_checked_witness :
  Kernels.tensor_op Fixtures.debug_build Z.mul Fixtures.tile_123 Fixtures.tile_456
  = Ok (Kernels.MkTensor Fixtures.vector_range [4; 10; 18]).
Proof.
  exact (proj1 (tensor_op_checked Fixtures.debug_build Z.mul Fixtures.tile_123
                  Fixtures.tile_456 eq_refl eq_refl eq_refl)).
Defined.

Lemma Z_add_join_law (a : Z) (l : list Z) :
  a + fold_left Z.add l 0 = fold_left Z.add l a.
Proof.
  assert (H : forall b, a + fold_left Z.add l b = fold_left Z.add l (a + b)).
  { induction l as [|x l IH]; intros b; simpl; [done|].
    rewrite IH. f_equal. lia. }
  rewrite H. f_equal. lia.
Qed.

(** X11 at the tensor of tensors [[[1, 2], [3, 4]]] and the sum. *)
Lemma tensor_reduce_tot_flat_witness :
  Kernels.tensor_reduce_tot Fixtures.debug_build Z.add Z.add 0 Kernels.contiguous_tot
  = Ok 10.
Proof.
  refine (proj2 (tensor_reduce_tot_flat Fixtures.debug_build Z.add Z.add 0
                   Kernels.contiguous_tot eq_refl eq_refl _ Z_add_join_law)).
  repeat constructor.
Defined.

Lemma strided_view_in_bounds : KernelsSpec.blocks_in_bounds TileFixtures.strided_view.
Proof.
  intros j Hj. cbn in Hj |- *.
  destruct j as [|[|j]]; [vm_compute; lia|vm_compute; lia|lia].
Qed.

(** X12 at the view of two columns of a 2 by 4 buffer and the sum. *)
Lemma tensor_reduce_noncontiguous_flat_witness :
  Kernels.tensor_reduce_noncontiguous Fixtures.debug_build Z.add Z.add 0
    TileFixtures.strided_view = Ok 10 /\
  Kernels.tensor_reduce Fixtures.debug_build Z.add 0 TileFixtures.gathered_view
  = Kernels.tensor_reduce_noncontiguous Fixtures.debug_build Z.add Z.add 0
      TileFixtures.strided_view.
Proof.
  destruct (tensor_reduce_noncontiguous_flat Fixtures.debug_build Z.add Z.add 0
              TileFixtures.strided_view eq_refl ltac:(simpl; lia)
              strided_view_in_bounds Z_add_join_law) as [Hflat Hsame].
  split; [exact Hflat|].
  apply Hsame; reflexivity.
Defined.

(** X13 at the tiles [[1, 2, 3]] and [[4, 5, 6]], the left one consumable. *)
Lemma call_overwrites_only_consumable_witness :
  let product := Kernels.MkTensor Fixtures.vector_range [4; 10; 18] in
  let ev := {| Mult.returned := product;
               Mult.arguments_after := Mult.TileTile product Fixtures.tile_456 |} in
  exists first' second',
    Mult.arguments_after ev = Mult.TileTile first' second' /\
    (true = false -> first' = Fixtures.tile_123) /\
    (false = false -> second' = Fixtures.tile_456) /\
    (first' = Fixtures.tile_123 \/ second' = Fixtures.tile_456) /\
    (true = true -> first' = Mult.returned ev /\ second' = Fixtures.tile_456) /\
    (true = false -> false = true -> second' = Mult.returned ev).
Proof.
  cbn zeta.
  exact (call_overwrites_only_consumable Z.mul Fixtures.debug_build true false
           Fixtures.tile_123 Fixtures.tile_456 _ eq_refl).
Defined.

(** X14 at the tiles [[1, 2, 3]] and [[4, 5, 6]]. *)
Lemma consume_left_right_product_witness :
  let first := Fixtures.tile_123 in
  let second := Fixtures.tile_456 in
  let cfg := Fixtures.debug_build in
  let product := Kernels.MkTensor Fixtures.vector_range [4; 10; 18] in
  MultConsume.consume_left Z.mul cfg true true false first (Some second)
  = Ok {| Mult.returned := product;
          Mult.arguments_after := Mult.TileTile product second |} /\
  MultConsume.consume_right Z.mul cfg true true false (Some first) second
  = Ok {| Mult.returned := product;
          Mult.arguments_after := Mult.TileTile first product |}.
Proof.
  cbn zeta.
  destruct (consume_left_right_product Z.mul Fixtures.debug_build
              Fixtures.tile_123 Fixtures.tile_456 ltac:(intros; lia)
              eq_refl eq_refl eq_refl eq_refl eq_refl)
    as (_ & _ & Hleft & _ & Hright & _).
  split; [exact (Hleft true false)|exact (Hright true false)].
Defined.

(** X17 at the blocked matrix of two tiles, on rank 1 of 2. *)
Lemma make_replicated_preserves_witness :
  exists impl',
    DistArray.make_replicated Fixtures.debug_build 1%nat ∅ (Some Fixtures.matrix_impl)
    = Ok (Some impl') /\
    DistArray.impl_invariant impl' /\
    DistArray.impl_world impl' = Fixtures.rank1_of_2 /\
    DistArray.impl_trange impl' = Fixtures.matrix_trange /\
    Pmap.is_replicated (DistArray.impl_pmap impl') = true.
Proof.
  destruct (make_replicated_preserves Fixtures.debug_build 1%nat ∅
              Fixtures.matrix_impl matrix_impl_invariant)
    as (impl' & Hm & Hinv & Hw & Htr & _ & _ & Hrep).
  exists impl'. split; [exact Hm|]. split; [exact Hinv|].
  split; [exact Hw|]. split; [exact Htr|].
  destruct Hrep as [Hrep|Hone]; [exact Hrep|discriminate Hone].
Defined.





Lemma one_array_state_heap :
  LazyDeleter.heap Fixtures.one_array_state !! 7%nat = Some Fixtures.matrix_impl.
Proof. apply lookup_singleton_eq. Qed.

(** X22 at a process with one array, the runtime accepting the callback. *)
Lemma lazy_deleter_always_returns_witness :
  exists st',
    LazyDeleter.lazy_deleter LazyDeleter.Registers (Some 7%nat)
      Fixtures.one_array_state = (LazyDeleter.Returned tt, st') /\
    LazyDeleter.cleanup_counter_ st'
      - Z.of_nat (length (LazyDeleter.lazy_sync_registry st')) = 0.
Proof.
  destruct (lazy_deleter_always_returns Fixtures.one_array_state
              LazyDeleter.Registers 7%nat Fixtures.matrix_impl one_array_state_heap)
    as [(st' & Hrun & _ & Hbalance & _) _].
  exists st'. split; [exact Hrun|exact Hbalance].
Defined.

(** X23 at a process with one array. *)
Lemma lazy_cleanup_balances_witness :
  exists st1 st2,
    LazyCleanup.release_all [7%nat] Fixtures.one_array_state
    = (LazyDeleter.Returned tt, st1) /\
    LazyDeleter.cleanup_counter_ st1 = 1 /\
    LazyCleanup.run_callbacks (LazyDeleter.lazy_sync_registry st1).*2 st1
    = (LazyDeleter.Returned tt, st2) /\
    LazyDeleter.cleanup_counter_ st2 = 0 /\
    LazyDeleter.deleted st2 = [7%nat] /\
    LazyDeleter.heap st2 !! 7%nat = None.
Proof.
  destruct (lazy_cleanup_balances Fixtures.one_array_state [7%nat] eq_refl
              (NoDup_singleton 7%nat))
    as (st1 & st2 & fns & Hrel & Hc1 & _ & _ & Hreg & _ & Hrun & Hc2 & Hdel & _ & Hheap).
  { intros p Hp. apply list_elem_of_singleton in Hp as ->.
    exists Fixtures.matrix_impl. exact one_array_state_heap. }
  exists st1, st2. split; [exact Hrel|]. split; [exact Hc1|].
  split; [rewrite Hreg; exact Hrun|]. split; [exact Hc2|]. split; [exact Hdel|].
  exact (Hheap 7%nat).
Defined.
